(** * Semantic re-ranking of search results: a shallow embedding

    The two ranking engines of the backend
    ([services/search/rank-results.ts], one backed by Redis and one
    taking an in-memory cache object) are embedded here as Rocq
    functions, and the properties of the specification are stated and
    proved over them.  The services around them (the query generator,
    the search with its result cache, and the Redis connection) are
    embedded as well, with further properties of the code at the end.

    - JavaScript numbers are IEEE 754 binary64 values: Rocq's primitive
      [float], specified by [FloatAxioms] over [SpecFloat].
    - JavaScript strings are [string]s; one character stands for one
      code unit, and code units above 255 are not represented.
    - [async] functions are state passing over a [World] that records
      the Redis store, the connection flag and the trace of calls to
      the outside (Redis commands, provider requests, [console.error]).
    - [throw] is the [Throw] case of [outcome]. *)

From Stdlib Require Import ZArith Floats Lia DecimalString.
From stdpp Require Import base gmap strings list sorting.

(** ** Thrown values *)

(** Who rejected a promise the code awaited. *)
Inductive origin := FromRedis | FromOpenAI.

(** The values the code can see thrown: the errors it builds itself with
    [new Error(message)], the [TypeError] the runtime raises on a
    property read of [undefined], the [SyntaxError] of [JSON.parse], and
    whatever a client library rejects with. *)
Inductive exn :=
| Error (message : string)
| TypeError (message : string)
| SyntaxError (message : string)
| Rejected (by_ : origin) (name message : string).

(** The [name] property of a thrown value. *)
Definition exn_name (e : exn) : string :=
  match e with
  | Error _ => "Error"
  | TypeError _ => "TypeError"
  | SyntaxError _ => "SyntaxError"
  | Rejected _ n _ => n
  end.

(** The [cause] property: [new Error(message)] is called without
    options everywhere in the source, so no error built there has one;
    the errors of the client libraries are opaque. *)
Definition exn_cause (e : exn) : option exn := None.

Inductive outcome (A : Type) :=
| Ok (a : A)
| Throw (e : exn).
Arguments Ok {A} a.
Arguments Throw {A} e.

(** ** Numbers and vectors *)

Definition number := float.
Definition vector := list number.

(** [v[i]!]: an index out of range reads [undefined], which arithmetic
    coerces to NaN. *)
Definition at_ (v : vector) (i : nat) : number := nth i v nan.

Definition is_NaN (x : number) : bool := negb (x =? x)%float.

(** ** Strings *)

(** The white space and line terminators of [String.prototype.trim]
    that fit in one byte: TAB, LF, VT, FF, CR, SP and NBSP. *)
Definition isWhiteSpace (c : Ascii.ascii) : bool :=
  let n := Ascii.nat_of_ascii c in
  (n =? 9)%nat || (n =? 10)%nat || (n =? 11)%nat || (n =? 12)%nat
  || (n =? 13)%nat || (n =? 32)%nat || (n =? 160)%nat.

Fixpoint trimStart (s : string) : string :=
  match s with
  | EmptyString => EmptyString
  | String c s' => if isWhiteSpace c then trimStart s' else s
  end.

Definition trimEnd (s : string) : string := String.rev (trimStart (String.rev s)).

Definition trim (s : string) : string := trimEnd (trimStart s).

(** [s.substring(0, n)]. *)
Definition substring0 (n : nat) (s : string) : string := String.substring 0 n s.

(** ** Search results *)

(** Modelled from the spec: the [SearchResult] type of [types/search],
    which is not among the sources.  The specification gives the shape
    [{ title: string, snippet: string, pagemap?: { metatags?:
    [{ "og:description"?: string, ... }] } }]; an entry of [metatags]
    is an object read by property name. *)
Abbreviation metatag := (gmap string string).

Record Pagemap := { metatags : option (list metatag) }.

Record SearchResult := {
  title : string;
  snippet : string;
  pagemap : option Pagemap
}.

(** [{ ...result, similarity }]. *)
Record RankedResult := {
  base : SearchResult;
  similarity : number
}.

(** ** cosineSimilarity (lines 17-33, the same text in both files) *)

Definition cosine_step (a b : vector) (acc : number * number * number) (i : nat)
  : number * number * number :=
  let '(dotProduct, normA, normB) := acc in
  ((dotProduct + at_ a i * at_ b i)%float,
   (normA + at_ a i * at_ a i)%float,
   (normB + at_ b i * at_ b i)%float).

Definition cosine_loop (a b : vector) : number * number * number :=
  fold_left (cosine_step a b) (seq 0 (length a)) (0%float, 0%float, 0%float).

Definition cosineSimilarity (a b : vector) : outcome number :=
  if negb (length a =? length b)%nat then
    Throw (Error "Vectors must have the same length")
  else
    let '(dotProduct, normA, normB) := cosine_loop a b in
    Ok (dotProduct / (sqrt normA * sqrt normB))%float.

(** ** extractTextContent (the same text in both files) *)

Definition extractTextContent (result : SearchResult) : outcome string :=
  match pagemap result with
  | None => Throw (TypeError "Cannot read properties of undefined (reading 'metatags')")
  | Some pm =>
      match metatags pm with
      | Some (first :: _) =>
          let ogDescription := first !! "og:description" in
          let description :=
            match ogDescription with
            | Some d => if String.eqb d "" then snippet result else substring0 800 d
            | None => snippet result
            end in
          Ok ("Title: " +:+ title result +:+ " Description: " +:+ description)
      | _ =>
          let cleanSnippet := snippet result in
          Ok ("Title: " +:+ title result +:+ " Description: " +:+ cleanSnippet)
      end
  end.

(** ** Array.prototype.sort *)

(** ECMAScript sorts stably and reads the comparator through
    [SortCompare]: a positive result puts the second argument first,
    and zero, a negative number or NaN keep the two in their order.
    This insertion sort is such a sort.  When the comparator is not
    consistent (here: a NaN similarity) ECMAScript leaves the order to
    the engine, and nothing below is stated about it. *)
Fixpoint sort_insert {A} (compareFn : A -> A -> number) (x : A) (l : list A) : list A :=
  match l with
  | [] => [x]
  | y :: l' =>
      if (0 <? compareFn x y)%float then y :: sort_insert compareFn x l' else x :: l
  end.

Definition Array_sort {A} (compareFn : A -> A -> number) (l : list A) : list A :=
  foldr (sort_insert compareFn) [] l.

(** ** The outside world *)

(** [input] of [openaiClient.embeddings.create]: a string or an array. *)
Inductive provider_input :=
| Single (text : string)
| Batch (texts : list string).

(** What the provider answers: [response.data], each item with its
    [embedding] property or without it, or a rejection. *)
Inductive provider_reply :=
| Reply (data : list (option vector))
| Failure (name message : string).

(** The calls that leave the process, in the order they are issued
    ([console.log] is left out). *)
Inductive event :=
| RedisConnect
| RedisQuit
| RedisGet (key : string)
| RedisSetEx (key : string) (seconds : Z) (value : string)
| EmbeddingsCreate (input : provider_input)
| ConsoleError (message : string) (error : exn).

(** The library functions and the provider the engines are linked
    against.  [JSON_parse] answers [None] where [JSON.parse] throws;
    the source asserts [as number[]] on what it returns.  (A cached
    JSON [null] is read back as [null], the answer of a miss: the same
    answer as a throw, without the log.) *)
Record Env := {
  sha256_hex : string -> string;
  JSON_stringify : vector -> string;
  JSON_parse : string -> option vector;
  provider : provider_input -> provider_reply
}.

(** [isConnected] is the flag of [config/redis]; [store] is what the
    Redis server holds (expiry is not modelled); [faults] schedules the
    coming Redis commands, [Some (name, message)] for one the client
    rejects. *)
Record World := {
  isConnected : bool;
  store : gmap string string;
  faults : list (option (string * string));
  trace : list event
}.

Definition log (ev : event) (w : World) : World :=
  {| isConnected := isConnected w; store := store w; faults := faults w;
     trace := trace w ++ [ev] |}.

(** An [async] function: it runs from a world to an outcome and a world. *)
Definition M (A : Type) : Type := World -> outcome A * World.

Definition ret {A} (a : A) : M A := fun w => (Ok a, w).

Definition throw {A} (e : exn) : M A := fun w => (Throw e, w).

Definition bind {A B} (m : M A) (k : A -> M B) : M B :=
  fun w =>
    match m w with
    | (Ok a, w') => k a w'
    | (Throw e, w') => (Throw e, w')
    end.

Notation "'let*' x ':=' m 'in' k" := (bind m (fun x => k))
  (at level 10, x pattern, m at level 100, k at level 200).

(** [try { m } catch (error) { handler(error) }]. *)
Definition try_catch {A} (m : M A) (handler : exn -> M A) : M A :=
  fun w =>
    match m w with
    | (Ok a, w') => (Ok a, w')
    | (Throw e, w') => handler e w'
    end.

(** A synchronous computation that may throw, inside an [async] one. *)
Definition lift {A} (o : outcome A) : M A := fun w => (o, w).

Definition console_error (message : string) (error : exn) : M unit :=
  fun w => (Ok tt, log (ConsoleError message error) w).

(** [Promise.all(ps)]: every promise has been started, in order, when
    it is awaited; it rejects with the first rejection.  The promises
    are run one after the other. *)
Fixpoint Promise_all {A} (ps : list (M A)) : M (list A) :=
  match ps with
  | [] => ret []
  | p :: ps' =>
      fun w =>
        let '(o, w1) := p w in
        let '(os, w2) := Promise_all ps' w1 in
        (match o, os with
         | Throw e, _ => Throw e
         | Ok _, Throw e => Throw e
         | Ok a, Ok l => Ok (a :: l)
         end, w2)
  end.

(** [l.forEach((x, i) => ...)] on the state the callback updates. *)
Definition forEach {A S} (l : list A) (f : S -> A -> nat -> S) (s : S) : S :=
  fold_left (fun s ix => f s (snd ix) (fst ix)) (zip (seq 0 (length l)) l) s.

(** [l.map((x, i) => f x i)] with a callback that may throw. *)
Fixpoint map_throwing {A B} (f : A -> nat -> outcome B) (i : nat) (l : list A)
  : outcome (list B) :=
  match l with
  | [] => Ok []
  | x :: l' =>
      match f x i with
      | Throw e => Throw e
      | Ok y =>
          match map_throwing f (S i) l' with
          | Throw e => Throw e
          | Ok ys => Ok (y :: ys)
          end
      end
  end.

(** *** config/redis *)

Definition getRedisClient : M unit :=
  fun w =>
    if isConnected w then (Ok tt, w)
    else (Throw (Error "Redis not connected. Call initRedis() first."), w).

Definition next_fault (w : World) : option (string * string) * World :=
  match faults w with
  | [] => (None, w)
  | f :: rest =>
      (f, {| isConnected := isConnected w; store := store w; faults := rest;
             trace := trace w |})
  end.

Definition set_connected (b : bool) (w : World) : World :=
  {| isConnected := b; store := store w; faults := faults w; trace := trace w |}.

(** [initRedis]: [await redis.connect()] may reject, and the flag is
    then left as it was. *)
Definition initRedis : M unit :=
  fun w =>
    if isConnected w then (Ok tt, w)
    else
      let '(f, w1) := next_fault (log RedisConnect w) in
      match f with
      | Some (n, m) => (Throw (Rejected FromRedis n m), w1)
      | None => (Ok tt, set_connected true w1)
      end.

Definition closeRedis : M unit :=
  fun w =>
    if isConnected w then
      let '(f, w1) := next_fault (log RedisQuit w) in
      match f with
      | Some (n, m) => (Throw (Rejected FromRedis n m), w1)
      | None => (Ok tt, set_connected false w1)
      end
    else (Ok tt, w).

(** [redis.get(key)]. *)
Definition redis_get (key : string) : M (option string) :=
  fun w =>
    let '(f, w1) := next_fault (log (RedisGet key) w) in
    match f with
    | Some (n, m) => (Throw (Rejected FromRedis n m), w1)
    | None => (Ok (store w1 !! key), w1)
    end.

(** [redis.setEx(key, seconds, value)]. *)
Definition redis_setEx (key : string) (seconds : Z) (value : string) : M unit :=
  fun w =>
    let '(f, w1) := next_fault (log (RedisSetEx key seconds value) w) in
    match f with
    | Some (n, m) => (Throw (Rejected FromRedis n m), w1)
    | None =>
        (Ok tt, {| isConnected := isConnected w1; store := <[key := value]> (store w1);
                   faults := faults w1; trace := trace w1 |})
    end.

(** *** config/openai *)

(** [openaiClient.embeddings.create({ model, input, encoding_format })]:
    resolves to [response.data] or rejects. *)
Definition embeddings_create (E : Env) (input : provider_input)
  : M (list (option vector)) :=
  fun w =>
    let w1 := log (EmbeddingsCreate input) w in
    match provider E input with
    | Reply data => (Ok data, w1)
    | Failure n m => (Throw (Rejected FromOpenAI n m), w1)
    end.

(** ** The engine backed by Redis *)

Module RedisEngine.

Definition EMBEDDING_MODEL : string := "text-embedding-3-small".

(** 7 days. *)
Definition EMBEDDING_CACHE_DURATION : Z := 7 * 24 * 60 * 60.

Definition generateEmbeddingCacheKey (E : Env) (text : string) : string :=
  let hash := substring0 16 (sha256_hex E (trim text)) in
  "embedding:" +:+ EMBEDDING_MODEL +:+ ":" +:+ hash.

(** Lines 53-67.  [getRedisClient()] is called before the [try]. *)
Definition getCachedEmbedding (E : Env) (text : string) : M (option vector) :=
  let* _ := getRedisClient in
  let cacheKey := generateEmbeddingCacheKey E text in
  try_catch
    (let* cached := redis_get cacheKey in
     match cached with
     | Some c =>
         if String.eqb c "" then ret None
         else
           match JSON_parse E c with
           | Some v => ret (Some v)
           | None => throw (SyntaxError "Unexpected token in JSON")
           end
     | None => ret None
     end)
    (fun error =>
       let* _ := console_error
         ("Error reading embedding from cache for key " +:+ cacheKey +:+ ":") error in
       ret None).

(** Lines 69-78.  [embedding] is [None] when the caller passes
    [undefined] ([freshEmbeddings[i]!] past the end): [JSON.stringify]
    then yields [undefined] and the client refuses the argument before
    any command is sent. *)
Definition setCachedEmbedding (E : Env) (text : string) (embedding : option vector)
  : M unit :=
  let* _ := getRedisClient in
  let cacheKey := generateEmbeddingCacheKey E text in
  try_catch
    (match embedding with
     | Some v => redis_setEx cacheKey EMBEDDING_CACHE_DURATION (JSON_stringify E v)
     | None => throw (TypeError "Invalid argument type")
     end)
    (fun error =>
       console_error ("Error caching embedding for key " +:+ cacheKey +:+ ":") error).

(** Lines 80-114. *)
Definition getEmbedding (E : Env) (text : string) (useCache : bool) : M vector :=
  if String.eqb text "" || (String.length (trim text) =? 0)%nat then
    throw (Error "Text cannot be empty for embedding")
  else
    let* cached := (if useCache then getCachedEmbedding E text else ret None) in
    match cached with
    | Some v => ret v
    | None =>
        try_catch
          (let* data := embeddings_create E (Single text) in
           match head data with
           | Some (Some embedding) =>
               let* _ := (if useCache then setCachedEmbedding E text (Some embedding)
                          else ret tt) in
               ret embedding
           | _ => throw (Error "No embedding returned from OpenAI API")
           end)
          (fun error =>
             let* _ := console_error "Error getting embedding:" error in
             throw error)
    end.

(** Lines 154-174. *)
Definition getBatchEmbeddingsFromAPI (E : Env) (texts : list string) : M (list vector) :=
  try_catch
    (let* data := embeddings_create E (Batch texts) in
     lift (map_throwing
             (fun item _ =>
                match item with
                | Some embedding => Ok embedding
                | None => Throw (Error "Missing embedding in batch response")
                end) 0 data))
    (fun error =>
       let* _ := console_error "Error getting batch embeddings:" error in
       throw error).

(** The first [forEach] of [getEmbeddingsBatch] (lines 129-134). *)
Definition collect_uncached (texts : list string) (embeddings : list (option vector))
  : list nat * list string :=
  forEach embeddings
    (fun acc embedding index =>
       let '(uncachedIndices, uncachedTexts) := acc in
       match embedding with
       | None => (uncachedIndices ++ [index], uncachedTexts ++ [texts !!! index])
       | Some _ => acc
       end)
    ([], []).

(** The second [forEach] (lines 146-148): [embeddings[originalIndex] =
    freshEmbeddings[i]!], every [originalIndex] being in range. *)
Definition fill_fresh (uncachedIndices : list nat) (freshEmbeddings : list vector)
    (embeddings : list (option vector)) : list (option vector) :=
  forEach uncachedIndices
    (fun embeddings originalIndex i => <[originalIndex := freshEmbeddings !! i]> embeddings)
    embeddings.

(** Lines 116-152.  The array it returns may hold [null] or
    [undefined] ([None]) where the provider sent too few vectors. *)
Definition getEmbeddingsBatch (E : Env) (texts : list string) (useCache : bool)
  : M (list (option vector)) :=
  if negb useCache then
    let* embeddings := getBatchEmbeddingsFromAPI E texts in
    ret (map Some embeddings)
  else
    let* embeddings := Promise_all (map (getCachedEmbedding E) texts) in
    let '(uncachedIndices, uncachedTexts) := collect_uncached texts embeddings in
    if (0 <? length uncachedTexts)%nat then
      let* freshEmbeddings := getBatchEmbeddingsFromAPI E uncachedTexts in
      let* _ := Promise_all
        (imap (fun i text => setCachedEmbedding E text (freshEmbeddings !! i))
              uncachedTexts) in
      ret (fill_fresh uncachedIndices freshEmbeddings embeddings)
    else
      ret embeddings.

(** [options.useCache]: [None] when the caller leaves it out. *)
Record Options := { useCache : option bool }.

(** The callback of [results.map] at lines 200-203:
    [cosineSimilarity(queryEmbedding, undefined)] reads [undefined.length]. *)
Definition score (queryEmbedding : vector) (resultEmbeddings : list (option vector))
    (result : SearchResult) (index : nat) : outcome RankedResult :=
  match resultEmbeddings !! index with
  | Some (Some embedding) =>
      match cosineSimilarity queryEmbedding embedding with
      | Ok s => Ok {| base := result; similarity := s |}
      | Throw e => Throw e
      end
  | _ => Throw (TypeError "Cannot read properties of undefined (reading 'length')")
  end.

Definition bySimilarity (a b : RankedResult) : number :=
  (similarity b - similarity a)%float.

(** The body of the [try] at lines 190-206. *)
Definition rank_steps (E : Env) (query : string) (results : list SearchResult)
    (useCache : bool) : M (list RankedResult) :=
  let* queryEmbedding := getEmbedding E query useCache in
  let* resultTexts := lift (map_throwing (fun r _ => extractTextContent r) 0 results) in
  let* resultEmbeddings := getEmbeddingsBatch E resultTexts useCache in
  let* rankedResults := lift (map_throwing (score queryEmbedding resultEmbeddings) 0 results) in
  ret (Array_sort bySimilarity rankedResults).

(** Lines 177-212. *)
Definition rankSearchResults (E : Env) (query : string) (results : list SearchResult)
    (options : Options) : M (list RankedResult) :=
  if (length results =? 0)%nat then ret []
  else
    let useCache := default true (useCache options) in
    try_catch (rank_steps E query results useCache)
      (fun error =>
         let* _ := console_error "Error ranking search results:" error in
         throw error).

Definition quickRank (E : Env) (query : string) (results : list SearchResult)
  : M (list RankedResult) :=
  rankSearchResults E query results {| useCache := Some false |}.

Definition getTopResults (E : Env) (query : string) (results : list SearchResult)
    (topN : nat) (useCache : bool) : M (list RankedResult) :=
  let* ranked := rankSearchResults E query results {| useCache := Some useCache |} in
  ret (take topN ranked).

End RedisEngine.

(** ** The engine with an in-memory cache ([rank-results.ts]) *)

Module MemoryEngine.

(** [interface EmbeddingCache { [key: string]: number[] }]: the own
    properties of the object the caller passes. *)
Abbreviation EmbeddingCache := (gmap string vector).

(** Lines 48-66. *)
Definition getEmbedding (E : Env) (text : string) : M vector :=
  try_catch
    (let* data := embeddings_create E (Single text) in
     match head data with
     | Some (Some embedding) => ret embedding
     | _ => throw (Error "No embedding returned from OpenAI API")
     end)
    (fun error =>
       let* _ := console_error "Error getting embedding:" error in
       throw error).

(** Lines 68-88. *)
Definition getEmbeddingsBatch (E : Env) (texts : list string) : M (list vector) :=
  try_catch
    (let* data := embeddings_create E (Batch texts) in
     lift (map_throwing
             (fun item _ =>
                match item with
                | Some embedding => Ok embedding
                | None => Throw (Error "Missing embedding in batch response")
                end) 0 data))
    (fun error =>
       let* _ := console_error "Error getting batch embeddings:" error in
       throw error).

Record Options := {
  useCache : option bool;
  cache : option EmbeddingCache
}.

Definition score (queryEmbedding : vector) (resultEmbeddings : list vector)
    (result : SearchResult) (index : nat) : outcome RankedResult :=
  match resultEmbeddings !! index with
  | Some embedding =>
      match cosineSimilarity queryEmbedding embedding with
      | Ok s => Ok {| base := result; similarity := s |}
      | Throw e => Throw e
      end
  | None => Throw (TypeError "Cannot read properties of undefined (reading 'length')")
  end.

Definition bySimilarity (a b : RankedResult) : number :=
  (similarity b - similarity a)%float.

(** The body of the [try] at lines 105-130.  The cache object is
    updated in place: the computation answers with the object as it is
    left, whether it returns or throws. *)
Definition rank_steps (E : Env) (query : string) (results : list SearchResult)
    (useCache : bool) (cache : EmbeddingCache)
  : World -> outcome (list RankedResult) * EmbeddingCache * World :=
  fun w =>
    let '(q, cache1, w1) :=
      match (if useCache then cache !! query else None) with
      | Some queryEmbedding => (Ok queryEmbedding, cache, w)
      | None =>
          match getEmbedding E query w with
          | (Ok queryEmbedding, w') =>
              (Ok queryEmbedding,
               if useCache then <[query := queryEmbedding]> cache else cache, w')
          | (Throw e, w') => (Throw e, cache, w')
          end
      end in
    match q with
    | Throw e => (Throw e, cache1, w1)
    | Ok queryEmbedding =>
        let '(o, w2) :=
          (let* resultTexts := lift (map_throwing (fun r _ => extractTextContent r) 0 results) in
           let* resultEmbeddings := getEmbeddingsBatch E resultTexts in
           let* rankedResults :=
             lift (map_throwing (score queryEmbedding resultEmbeddings) 0 results) in
           ret (Array_sort bySimilarity rankedResults)) w1 in
        (o, cache1, w2)
    end.

(** Lines 91-136. *)
Definition rankSearchResults (E : Env) (query : string) (results : list SearchResult)
    (options : Options)
  : World -> outcome (list RankedResult) * EmbeddingCache * World :=
  let useCache := default false (useCache options) in
  let cache := default ∅ (cache options) in
  fun w =>
    if (length results =? 0)%nat then (Ok [], cache, w)
    else
      match rank_steps E query results useCache cache w with
      | (Ok ranked, cache', w') => (Ok ranked, cache', w')
      | (Throw error, cache', w') =>
          (Throw error, cache', log (ConsoleError "Error ranking search results:" error) w')
      end.

Definition quickRank (E : Env) (query : string) (results : list SearchResult)
  : World -> outcome (list RankedResult) * EmbeddingCache * World :=
  rankSearchResults E query results {| useCache := None; cache := None |}.

Definition getTopResults (E : Env) (query : string) (results : list SearchResult)
    (topN : nat)
  : World -> outcome (list RankedResult) * EmbeddingCache * World :=
  fun w =>
    match rankSearchResults E query results {| useCache := None; cache := None |} w with
    | (Ok ranked, cache', w') => (Ok (take topN ranked), cache', w')
    | (Throw e, cache', w') => (Throw e, cache', w')
    end.

End MemoryEngine.

(** ** The specification's vocabulary *)

(** The error taxonomy of the specification, as the thrown values the
    source uses for it. *)
Definition DimensionMismatchError : exn := Error "Vectors must have the same length".

Definition InvalidInputError : exn := Error "Text cannot be empty for embedding".

Definition RedisNotConnected : exn := Error "Redis not connected. Call initRedis() first.".

(** An error that wraps [cause] under the name [RankingError]. *)
Definition RankingError_wrapping (e cause : exn) : Prop :=
  exn_name e = "RankingError" /\ exn_cause e = Some cause.

(** A failure of the cache: a rejected Redis command or a client that
    is not connected. *)
Definition cache_failure (e : exn) : bool :=
  match e with
  | Rejected FromRedis _ _ => true
  | Error m => String.eqb m "Redis not connected. Call initRedis() first."
  | _ => false
  end.

(** The dot product and the Euclidean norm, summed left to right from
    zero. *)
Definition dot_product (a b : vector) : number :=
  fold_left (fun s xy => (s + fst xy * snd xy)%float) (combine a b) 0%float.

Definition norm (a : vector) : number := sqrt (dot_product a a).

Definition zero_vector (a : vector) : bool := forallb (fun x => (x =? 0)%float) a.

(** Non-increasing similarity, between any two positions. *)
Definition sorted_by_similarity (l : list RankedResult) : Prop :=
  StronglySorted (fun a b => (similarity b <=? similarity a)%float = true) l.

Definition no_NaN_similarity (l : list RankedResult) : Prop :=
  Forall (fun r => is_NaN (similarity r) = false) l.

(** The description the specification's extractor uses: the rich
    description of an entry of the metadata that has one. *)
Definition rich_description (result : SearchResult) : option string :=
  match pagemap result with
  | Some {| metatags := Some entries |} =>
      head (omap (fun entry : metatag => entry !! "og:description") entries)
  | _ => None
  end.

Definition extractText_spec (result : SearchResult) : string :=
  "Title: " +:+ title result +:+ " Description: " +:+
  match rich_description result with
  | Some d => substring0 800 d
  | None => snippet result
  end.

(** Batch reconciliation: the texts still to fetch, and the fetched
    vectors put back where the cache had none. *)
Fixpoint missed_texts (texts : list string) (cached : list (option vector)) : list string :=
  match texts, cached with
  | t :: texts', None :: cached' => t :: missed_texts texts' cached'
  | _ :: texts', Some _ :: cached' => missed_texts texts' cached'
  | _, _ => []
  end.

Fixpoint splice (cached : list (option vector)) (fresh : list vector) : list (option vector) :=
  match cached with
  | [] => []
  | Some v :: cached' => Some v :: splice cached' fresh
  | None :: cached' =>
      match fresh with
      | f :: fresh' => Some f :: splice cached' fresh'
      | [] => None :: splice cached' []
      end
  end.

(** What the cache answers for each text, in the order of the texts. *)
Definition cache_view (E : Env) (texts : list string) (w : World) : list (option vector) :=
  match fst (Promise_all (map (RedisEngine.getCachedEmbedding E) texts) w) with
  | Ok cached => cached
  | Throw _ => []
  end.

(** What a stored string is read back as: an empty string is falsy,
    and a string that does not parse is a caught error. *)
Definition read_back (E : Env) (stored : option string) : option vector :=
  match stored with
  | Some c => if String.eqb c "" then None else JSON_parse E c
  | None => None
  end.

(** The channels of a trace. *)
Definition redis_commands (t : list event) : list event :=
  omap (fun ev => match ev with RedisGet _ | RedisSetEx _ _ _ => Some ev | _ => None end) t.

Definition provider_calls (t : list event) : list provider_input :=
  omap (fun ev => match ev with EmbeddingsCreate i => Some i | _ => None end) t.

(** A run of the batch operation from [w] to [w'] that returns [out]
    reconciles the cache with the vectors [fresh] of one provider
    request. *)
Record reconciled (E : Env) (texts : list string) (w : World) (fresh : list vector)
    (out : list (option vector)) (w' : World) : Prop := {
  (* one cache answer and one returned entry for every text *)
  reconciled_view : length (cache_view E texts w) = length texts;
  reconciled_length : length out = length texts;
  (* the returned array is the cache answers with the fresh vectors put
     where the cache had none *)
  reconciled_merge : out = splice (cache_view E texts w) fresh;
  reconciled_hit : forall i v,
    cache_view E texts w !! i = Some (Some v) -> out !! i = Some (Some v);
  (* the text at a missed position [i] is the [j]-th missed text, [j]
     being the number of misses before [i], and it gets the [j]-th
     fresh vector *)
  reconciled_miss : forall i,
    cache_view E texts w !! i = Some None ->
    let j := length (missed_texts (take i texts) (take i (cache_view E texts w))) in
    missed_texts texts (cache_view E texts w) !! j = texts !! i
    /\ out !! i = Some (fresh !! j);
  (* no request when nothing was missed, else one request, of the
     missed texts, answered by [fresh] *)
  reconciled_request :
    provider_calls (trace w')
    = provider_calls (trace w)
      ++ match missed_texts texts (cache_view E texts w) with
         | [] => []
         | _ :: _ => [Batch (missed_texts texts (cache_view E texts w))]
         end;
  reconciled_answer :
    missed_texts texts (cache_view E texts w) <> [] ->
    provider E (Batch (missed_texts texts (cache_view E texts w))) = Reply (map Some fresh);
  (* one read for every text, then one write for every fresh vector *)
  reconciled_commands :
    redis_commands (trace w')
    = redis_commands (trace w)
      ++ map (fun t => RedisGet (RedisEngine.generateEmbeddingCacheKey E t)) texts
      ++ zip_with
           (fun t f => RedisSetEx (RedisEngine.generateEmbeddingCacheKey E t)
                         RedisEngine.EMBEDDING_CACHE_DURATION (JSON_stringify E f))
           (missed_texts texts (cache_view E texts w)) fresh
}.

(** A step inside the [try] of [rankSearchResults] fails with [c]:
    the embedding of the query, the extraction of the texts, the
    embeddings of the texts, or a similarity. [w1] is the world at the
    failure. *)
Inductive step_fails (E : Env) (query : string) (results : list SearchResult)
    (useCache : bool) (w : World) (c : exn) (w1 : World) : Prop :=
| query_embedding_fails :
    RedisEngine.getEmbedding E query useCache w = (Throw c, w1) ->
    step_fails E query results useCache w c w1
| extraction_fails queryEmbedding :
    RedisEngine.getEmbedding E query useCache w = (Ok queryEmbedding, w1) ->
    map_throwing (fun r _ => extractTextContent r) 0 results = Throw c ->
    step_fails E query results useCache w c w1
| result_embeddings_fail queryEmbedding w0 resultTexts :
    RedisEngine.getEmbedding E query useCache w = (Ok queryEmbedding, w0) ->
    map_throwing (fun r _ => extractTextContent r) 0 results = Ok resultTexts ->
    RedisEngine.getEmbeddingsBatch E resultTexts useCache w0 = (Throw c, w1) ->
    step_fails E query results useCache w c w1
| similarity_fails queryEmbedding w0 resultTexts resultEmbeddings :
    RedisEngine.getEmbedding E query useCache w = (Ok queryEmbedding, w0) ->
    map_throwing (fun r _ => extractTextContent r) 0 results = Ok resultTexts ->
    RedisEngine.getEmbeddingsBatch E resultTexts useCache w0 = (Ok resultEmbeddings, w1) ->
    map_throwing (RedisEngine.score queryEmbedding resultEmbeddings) 0 results = Throw c ->
    step_fails E query results useCache w c w1.

(** ** The vocabulary of the proofs *)

Module Binary64.

Definition sf_zero (x : spec_float) : bool :=
  match x with S754_zero _ => true | _ => false end.

Definition sf_nan (x : spec_float) : bool :=
  match x with S754_nan => true | _ => false end.

Definition sf_zero_or_nan (x : spec_float) : bool := sf_zero x || sf_nan x.

(** An order embedding of the valid binary64 values that are not NaN
    into the integers: a finite value counts in units of [2^emin]. *)
Definition ord (x : spec_float) : Z :=
  match x with
  | S754_zero _ => 0
  | S754_nan => 0
  | S754_infinity s => cond_Zopp s (2 ^ 2098)
  | S754_finite s m e => cond_Zopp s (Zpos m * 2 ^ (e + 1074))
  end.

Definition mag (m : positive) (e : Z) : Z := Zpos m * 2 ^ (e + 1074).

(** The sign of an infinity or of a finite non-zero value. *)
Definition sf_signed (s : bool) (x : spec_float) : bool :=
  match x with
  | S754_infinity s' | S754_finite s' _ _ => Bool.eqb s s'
  | _ => false
  end.

(** The place of a number in the order. *)
Definition key (x : number) : Z := ord (Prim2SF x).

End Binary64.

(** A computation keeps the connection flag as it finds it. *)
Definition keeps_connection {A} (m : M A) : Prop :=
  forall w, isConnected (snd (m w)) = isConnected w.

(** On a connected client, a computation throws no cache failure. *)
Definition absorbs_cache_failures {A} (m : M A) : Prop :=
  keeps_connection m
  /\ forall w e, isConnected w = true -> fst (m w) = Throw e -> cache_failure e = false.

(** On a connected client, a computation does not throw at all. *)
Definition never_throws {A} (m : M A) : Prop :=
  keeps_connection m
  /\ forall w, isConnected w = true -> exists a, fst (m w) = Ok a.

(** The positions at which the cache had no vector, counted from [k]. *)
Fixpoint none_indices (k : nat) (cached : list (option vector)) : list nat :=
  match cached with
  | [] => []
  | None :: cached' => k :: none_indices (S k) cached'
  | Some _ :: cached' => none_indices (S k) cached'
  end.

(** ** Fixtures *)

(** The end-to-end example of the specification: the provider answers
    [1, 0] for the query, [0.9, 0.1] for the text of the first result
    and [0, 1] for any other text. *)
Definition boots : SearchResult :=
  {| title := "Top Boots 2024"; snippet := "Our picks for hiking boots";
     pagemap := Some {| metatags := None |} |}.

Definition shoes : SearchResult :=
  {| title := "Cheap Shoes"; snippet := "Discount footwear deals";
     pagemap := Some {| metatags := None |} |}.

Definition boots_vector (text : string) : vector :=
  if String.eqb text "Title: Top Boots 2024 Description: Our picks for hiking boots"
  then [0x1.ccccccccccccdp-1%float; 0x1.999999999999ap-4%float]
  else [0%float; 1%float].

Definition boots_env : Env :=
  {| sha256_hex := fun s => s;
     JSON_stringify := fun _ => "[0,1]";
     JSON_parse := fun _ => Some [1%float; 0%float];
     provider := fun input =>
       match input with
       | Single _ => Reply [Some [1%float; 0%float]]
       | Batch texts => Reply (map (fun t => Some (boots_vector t)) texts)
       end |}.

(** A provider that answers the zero vector of dimension 2 for every
    text. *)
Definition zero_env : Env :=
  {| sha256_hex := fun s => s;
     JSON_stringify := fun _ => "[]";
     JSON_parse := fun _ => None;
     provider := fun input =>
       match input with
       | Single _ => Reply [Some [0%float; 0%float]]
       | Batch texts => Reply (map (fun _ => Some [0%float; 0%float]) texts)
       end |}.

(** A connected client on an empty store, and a client on which
    [initRedis] was not called. *)
Definition connected : World :=
  {| isConnected := true; store := ∅; faults := []; trace := [] |}.

Definition not_connected : World :=
  {| isConnected := false; store := ∅; faults := []; trace := [] |}.

(** The reconciliation example of the specification: five texts, of
    which the first, the third and the fifth are in the cache. *)
Definition five_texts : list string := ["alpha"; "bravo"; "charlie"; "delta"; "echo"].

Definition three_cached : World :=
  {| isConnected := true;
     store := <["embedding:text-embedding-3-small:alpha" := "[1,0]"]>
              (<["embedding:text-embedding-3-small:charlie" := "[1,0]"]>
               (<["embedding:text-embedding-3-small:echo" := "[1,0]"]> ∅));
     faults := []; trace := [] |}.

(** A connected client that rejects the next command. *)
Definition socket_closed : World :=
  {| isConnected := true; store := ∅;
     faults := [Some ("SocketClosedUnexpectedlyError", "Socket closed unexpectedly")];
     trace := [] |}.

(** A result whose rich description sits in the second entry of the
    metadata, and one where it sits in the first. *)
Definition result_second_entry : SearchResult :=
  {| title := "T"; snippet := "snip";
     pagemap := Some {| metatags := Some [∅; {["og:description" := "rich"]}] |} |}.

Definition result_first_entry : SearchResult :=
  {| title := "T"; snippet := "snip";
     pagemap := Some {| metatags := Some [{["og:description" := "rich"]}; ∅] |} |}.

(** ** generateSearchQueries (services/search, lines 163-215) *)

Module QueryGeneration.

(** A value as [JSON.parse] returns it; the fields of an object in the
    order of its own properties, every key once. *)
#[warnings="-register-all"] Inductive json :=
| JNull
| JBool (b : bool)
| JNumber (x : number)
| JString (s : string)
| JArray (items : list json)
| JObject (fields : list (string * json)).

(** What a [catch] clause can be handed: an instance of [Error], or
    any other value a promise was rejected with. *)
Inductive thrown :=
| AnError (e : exn)
| NotAnError.

Inductive attempt (A : Type) :=
| Done (a : A)
| Failed (t : thrown).
Arguments Done {A} a.
Arguments Failed {A} t.

(** [read_prompt] is the outcome of [readFile(promptPath, 'utf-8')];
    [chat_completions_create prompt content] is the outcome of the
    request with the system message [prompt] and the user message
    [content], reduced to [choices[0]?.message?.content]: [None] where
    the choice, its message or its content is missing or [null]. *)
Record Env := {
  read_prompt : attempt string;
  chat_completions_create : string -> string -> attempt (option string);
  JSON_parse : string -> outcome json
}.

(** The [message] property of an instance of [Error]. *)
Definition exn_message (e : exn) : string :=
  match e with
  | Error m | TypeError m | SyntaxError m | Rejected _ _ m => m
  end.

(** [ToBoolean]. *)
Definition truthy (v : option json) : bool :=
  match v with
  | None | Some JNull => false
  | Some (JBool b) => b
  | Some (JNumber x) => negb (x =? 0)%float && negb (is_NaN x)
  | Some (JString s) => negb (String.eqb s "")
  | Some (JArray _) | Some (JObject _) => true
  end.

Definition Array_isArray (v : option json) : bool :=
  match v with
  | Some (JArray _) => true
  | _ => false
  end.

(** [v.queries]: a property read throws on [null]; a primitive and an
    array have no such property. *)
Definition queries_of (v : json) : outcome (option json) :=
  match v with
  | JNull => Throw (TypeError "Cannot read properties of null (reading 'queries')")
  | JObject fields =>
      Ok (snd <$> find (fun field : string * json => String.eqb (fst field) "queries") fields)
  | _ => Ok None
  end.

(** [queries.length] of an array. *)
Definition length_of (v : option json) : nat :=
  match v with
  | Some (JArray items) => length items
  | _ => 0
  end.

(** [text.match(/\{[\s\S]*\}/)]: the match starts at the first opening
    brace and, the star being greedy, ends at the last closing brace
    after it. *)
Fixpoint from_first_brace (s : string) : option string :=
  match s with
  | EmptyString => None
  | String c s' => if String.eqb (String c "") "{" then Some s' else from_first_brace s'
  end.

Fixpoint up_to_last_brace (s : string) : option string :=
  match s with
  | EmptyString => None
  | String c s' =>
      match up_to_last_brace s' with
      | Some p => Some (String c p)
      | None => if String.eqb (String c "") "}" then Some (String c EmptyString) else None
      end
  end.

Definition match_braces (text : string) : option string :=
  match from_first_brace text with
  | Some rest =>
      match up_to_last_brace rest with
      | Some p => Some ("{" +:+ p)
      | None => None
      end
  | None => None
  end.

(** The template literal [${n}] of a length. *)
Definition decimal (n : nat) : string := NilEmpty.string_of_uint (Nat.to_uint n).

Definition Unfulfilled : json := JObject [("queries", JArray [JString "Unfulfilled"])].

(** The body of the [try]. *)
Definition generate (E : Env) (naturalLanguageQuery : string) : attempt json :=
  match read_prompt E with
  | Failed t => Failed t
  | Done prompt =>
      match chat_completions_create E prompt naturalLanguageQuery with
      | Failed t => Failed t
      | Done content =>
          let text := match content with Some c => trim c | None => "" end in
          if String.eqb text "Unfulfilled" || String.eqb text "UNDEFINED" then
            Done Unfulfilled
          else
            match match_braces text with
            | None => Failed (AnError (Error "Failed to extract JSON from OpenAI response"))
            | Some jsonMatch =>
                match JSON_parse E jsonMatch with
                | Throw e => Failed (AnError e)
                | Ok parsedResponse =>
                    match queries_of parsedResponse with
                    | Throw e => Failed (AnError e)
                    | Ok queries =>
                        if negb (truthy queries) || negb (Array_isArray queries) then
                          Failed (AnError (Error "Invalid response structure from OpenAI"))
                        else if (4 <? length_of queries)%nat then
                          Failed (AnError (Error ("Expected at most 4 queries, got "
                                                  +:+ decimal (length_of queries))))
                        else Done parsedResponse
                    end
                end
            end
      end
  end.

Definition generateSearchQueries (E : Env) (naturalLanguageQuery : string) : outcome json :=
  match generate E naturalLanguageQuery with
  | Done response => Ok response
  | Failed (AnError error) =>
      Throw (Error ("Failed to generate search queries: " +:+ exn_message error))
  | Failed NotAnError =>
      Throw (Error "Failed to generate search queries: Unknown error")
  end.

(** The code unit [unit], a string of length one, occurs in [s]. *)
Fixpoint occurs (unit : string) (s : string) : bool :=
  match s with
  | EmptyString => false
  | String c s' => String.eqb (String c "") unit || occurs unit s'
  end.

(** The text the braces are looked for in. *)
Definition reply_text (content : option string) : string :=
  match content with
  | Some c => trim c
  | None => ""
  end.

End QueryGeneration.


(** ** searchGoogle (services/search, lines 216-283) *)

Module GoogleSearch.

(** [String.prototype.toLowerCase] on the code units below 256: the
    letters A to Z and the Latin-1 capitals (192 to 222, the
    multiplication sign 215 apart) move up by 32. *)
Definition isUpperCase (c : Ascii.ascii) : bool :=
  let n := Ascii.nat_of_ascii c in
  ((65 <=? n)%nat && (n <=? 90)%nat)
  || ((192 <=? n)%nat && (n <=? 222)%nat && negb (n =? 215)%nat).

Definition toLowerCase_unit (c : Ascii.ascii) : Ascii.ascii :=
  if isUpperCase c then Ascii.ascii_of_nat (Ascii.nat_of_ascii c + 32) else c.

Fixpoint toLowerCase (s : string) : string :=
  match s with
  | EmptyString => EmptyString
  | String c s' => String (toLowerCase_unit c) (toLowerCase s')
  end.

(** [s.replace(/\s+/g, '-')]: every maximal run of white space becomes
    one hyphen.  [inRun] tells that the unit before was white space. *)
Fixpoint replace_runs (inRun : bool) (s : string) : string :=
  match s with
  | EmptyString => EmptyString
  | String c s' =>
      if isWhiteSpace c then
        if inRun then replace_runs true s' else "-" +:+ replace_runs true s'
      else String c (replace_runs false s')
  end.

Definition replace_white_space (s : string) : string := replace_runs false s.

(** 2 hours. *)
Definition CACHE_DURATION : Z := 2 * 60 * 60.

(** Lines 231-233. *)
Definition generateCacheKey (query : string) : string :=
  "search:" +:+ replace_white_space (toLowerCase query).

(** What [axios.get] resolves to, reduced to [response.data.items], or
    the error it rejects with. *)
Inductive http_reply :=
| Response (items : option (list SearchResult))
| HttpFailure (error : exn).

(** The search engine, keyed by the parameter [q], and the JSON
    functions at the type the source asserts ([as SearchResult[]]);
    [JSON_parse] answers [None] where [JSON.parse] throws. *)
Record Env := {
  axios_get : string -> http_reply;
  JSON_parse : string -> option (list SearchResult);
  JSON_stringify : list SearchResult -> string
}.

(** The Redis side of the world, and the searches requested so far. *)
Record State := {
  redis : World;
  requests : list string
}.

(** A double quote. *)
Definition quote : string := String (Ascii.ascii_of_nat 34) EmptyString.

(** The first [try] of the callback: the cached results, if any. *)
Definition readCache (E : Env) (query : string) : M (option (list SearchResult)) :=
  let cacheKey := generateCacheKey query in
  try_catch
    (let* cachedResults := redis_get cacheKey in
     match cachedResults with
     | Some c =>
         if String.eqb c "" then ret None
         else
           match JSON_parse E c with
           | Some results => ret (Some results)
           | None => throw (SyntaxError "Unexpected token in JSON")
           end
     | None => ret None
     end)
    (fun error =>
       let* _ := console_error
         ("Error reading from cache for " +:+ quote +:+ query +:+ quote +:+ ":") error in
       ret None).

(** The second [try] of the callback: the search, and the caching of
    what it found. *)
Definition performSearch (E : Env) (query : string) : State -> list SearchResult * State :=
  fun s =>
    let cacheKey := generateCacheKey query in
    let asked := requests s ++ [query] in
    match axios_get E query with
    | Response items =>
        let results := default [] items in
        let '(_, w) :=
          try_catch
            (redis_setEx cacheKey CACHE_DURATION (JSON_stringify E results))
            (fun cacheError =>
               console_error
                 ("Error caching results for " +:+ quote +:+ query +:+ quote +:+ ":")
                 cacheError)
            (redis s) in
        (results, {| redis := w; requests := asked |})
    | HttpFailure error =>
        ([], {| redis := log (ConsoleError
                                ("Error searching for " +:+ quote +:+ query +:+ quote +:+ ":")
                                error) (redis s);
                requests := asked |})
    end.

(** The callbacks after their cache reads, in the order of the
    queries. *)
Fixpoint finish (E : Env) (queries : list string)
    (cached : list (option (list SearchResult)))
  : State -> list (list SearchResult) * State :=
  fun s =>
    match queries, cached with
    | query :: queries', Some results :: cached' =>
        let '(rest, s') := finish E queries' cached' s in
        (results :: rest, s')
    | query :: queries', None :: cached' =>
        let '(results, s1) := performSearch E query s in
        let '(rest, s2) := finish E queries' cached' s1 in
        (results :: rest, s2)
    | _, _ => ([], s)
    end.

(** Lines 235-281.  Every callback of the [Promise.all] sends its
    [GET] before any of them goes on, so the reads come first, in the
    order of the queries; the searches are then taken to complete in
    that order as well. *)
Definition searchGoogle (E : Env) (queries : list string)
  : State -> outcome (list SearchResult) * State :=
  fun s =>
    match getRedisClient (redis s) with
    | (Throw e, w) => (Throw e, {| redis := w; requests := requests s |})
    | (Ok _, w) =>
        match Promise_all (map (readCache E) queries) w with
        | (Throw e, w1) => (Throw e, {| redis := w1; requests := requests s |})
        | (Ok cached, w1) =>
            let '(searchResults, s2) :=
              finish E queries cached {| redis := w1; requests := requests s |} in
            (Ok (concat searchResults), s2)
        end
    end.

(** What a stored string is read back as. *)
Definition read_results (E : Env) (stored : option string) : option (list SearchResult) :=
  match stored with
  | Some c => if String.eqb c "" then None else JSON_parse E c
  | None => None
  end.

(** What the search engine contributes for a query. *)
Definition found (E : Env) (query : string) : list SearchResult :=
  match axios_get E query with
  | Response items => default [] items
  | HttpFailure _ => []
  end.

(** The queries the cache has no results for. *)
Definition missed (E : Env) (w : World) (queries : list string) : list string :=
  List.filter
    (fun query =>
       match read_results E (store w !! generateCacheKey query) with
       | Some _ => false
       | None => true
       end) queries.

(** The results of a query: the cached ones, else those found. *)
Definition results_for (E : Env) (w : World) (query : string) : list SearchResult :=
  match read_results E (store w !! generateCacheKey query) with
  | Some results => results
  | None => found E query
  end.

Fixpoint all_units (P : Ascii.ascii -> bool) (s : string) : bool :=
  match s with
  | EmptyString => true
  | String c s' => P c && all_units P s'
  end.

End GoogleSearch.


(** ** Vocabulary of the further properties *)

(** A computation leaves Redis alone: the flag, the store and the
    fault schedule are as it found them and it issues no command. *)
Definition redis_silent {A} (m : M A) : Prop :=
  forall w,
    isConnected (snd (m w)) = isConnected w
    /\ store (snd (m w)) = store w
    /\ faults (snd (m w)) = faults w
    /\ redis_commands (trace (snd (m w))) = redis_commands (trace w).


(** A computation writes the store only at the keys in [K], and
    removes no entry. *)
Definition cache_frame {A} (K : string -> Prop) (m : M A) : Prop :=
  forall w k,
    (~ K k -> store (snd (m w)) !! k = store w !! k)
    /\ (is_Some (store w !! k) -> is_Some (store (snd (m w)) !! k)).

(** Every code unit of [s] is white space. *)
Fixpoint isBlank (s : string) : bool :=
  match s with
  | EmptyString => true
  | String c s' => isWhiteSpace c && isBlank s'
  end.

Definition first_unit (s : string) : option Ascii.ascii :=
  match s with
  | EmptyString => None
  | String c _ => Some c
  end.

Fixpoint last_unit (d : option Ascii.ascii) (s : string) : option Ascii.ascii :=
  match s with
  | EmptyString => d
  | String c s' => last_unit (Some c) s'
  end.

(** [s] does not start with white space. *)
Definition starts_clean (s : string) : Prop :=
  match first_unit s with
  | Some c => isWhiteSpace c = false
  | None => True
  end.

(** ** Further fixtures *)

(** A provider that answers a batch with no vector at all. *)
Definition short_env : Env :=
  {| sha256_hex := fun s => s;
     JSON_stringify := fun _ => "[0,1]";
     JSON_parse := fun _ => Some [1%float; 0%float];
     provider := fun input =>
       match input with
       | Single _ => Reply [Some [1%float; 0%float]]
       | Batch _ => Reply []
       end |}.

(** A cache object that holds the vector of the query. *)
Definition query_cached : MemoryEngine.EmbeddingCache :=
  {["best hiking boots" := [1%float; 0%float]]}.

(** A model that answers with five queries, and one whose prompt
    cannot be read. *)
Definition five_queries_env : QueryGeneration.Env :=
  {| QueryGeneration.read_prompt := QueryGeneration.Done "Turn the request into queries.";
     QueryGeneration.chat_completions_create := fun _ _ =>
       QueryGeneration.Done (Some " Here you are: { five queries } ");
     QueryGeneration.JSON_parse := fun _ =>
       Ok (QueryGeneration.JObject
             [("queries",
               QueryGeneration.JArray
                 [QueryGeneration.JString "a"; QueryGeneration.JString "b";
                  QueryGeneration.JString "c"; QueryGeneration.JString "d";
                  QueryGeneration.JString "e"])]) |}.

(** A search engine that finds the boots for every query, on a
    connected client and on one that is not. *)
Definition shop_env : GoogleSearch.Env :=
  {| GoogleSearch.axios_get := fun _ => GoogleSearch.Response (Some [boots]);
     GoogleSearch.JSON_parse := fun _ => Some [boots];
     GoogleSearch.JSON_stringify := fun _ => "[boots]" |}.

Definition online : GoogleSearch.State :=
  {| GoogleSearch.redis := connected; GoogleSearch.requests := [] |}.

Definition offline : GoogleSearch.State :=
  {| GoogleSearch.redis := not_connected; GoogleSearch.requests := [] |}.

(** A connected client that rejects the next two commands. *)
Definition unreliable : GoogleSearch.State :=
  {| GoogleSearch.redis :=
       {| isConnected := true; store := ∅;
          faults := [Some ("SocketClosedUnexpectedlyError", "Socket closed unexpectedly");
                     Some ("SocketClosedUnexpectedlyError", "Socket closed unexpectedly")];
          trace := [] |};
     GoogleSearch.requests := [] |}.

(** * Proofs *)

(** ** Binary64 arithmetic *)

Module Binary64Facts.

Import Binary64.

Lemma SFcompare_refl x : sf_nan x = false -> SFcompare x x = Some Eq.
Proof.
  destruct x as [[]|[]| |[] m e]; simpl; try discriminate; intros _; try reflexivity.
  - now rewrite Z.compare_refl, Pos.compare_cont_refl.
  - now rewrite Z.compare_refl, Pos.compare_cont_refl.
Qed.

Lemma is_NaN_spec x : is_NaN x = sf_nan (Prim2SF x).
Proof.
  unfold is_NaN. rewrite FloatAxioms.eqb_spec. unfold SFeqb.
  destruct (sf_nan (Prim2SF x)) eqn:E.
  - destruct (Prim2SF x); try discriminate. reflexivity.
  - now rewrite SFcompare_refl.
Qed.

Lemma eqb_zero_spec x : (x =? 0)%float = sf_zero (Prim2SF x).
Proof.
  rewrite FloatAxioms.eqb_spec. change (Prim2SF 0) with (S754_zero false).
  now destruct (Prim2SF x) as [[]|[]| |[] m e].
Qed.

Lemma mul_zero_r x y :
  sf_zero y = true -> sf_zero_or_nan (SF64mul x y) = true.
Proof. destruct y; try discriminate. now destruct x. Qed.

Lemma mul_zero_l x y :
  sf_zero x = true -> sf_zero_or_nan (SF64mul x y) = true.
Proof. destruct x; try discriminate. now destruct y. Qed.

Lemma add_zero_or_nan x y :
  sf_zero_or_nan x = true -> sf_zero_or_nan y = true ->
  sf_zero_or_nan (SF64add x y) = true.
Proof. destruct x as [[]|[]| |[] ? ?], y as [[]|[]| |[] ? ?]; now try discriminate. Qed.

Lemma mul_zero_zero x y :
  sf_zero x = true -> sf_zero y = true -> sf_zero (SF64mul x y) = true.
Proof. destruct x, y; now try discriminate. Qed.

Lemma add_zero_zero x y :
  sf_zero x = true -> sf_zero y = true -> sf_zero (SF64add x y) = true.
Proof. destruct x as [[]|[]| |[] ? ?], y as [[]|[]| |[] ? ?]; now try discriminate. Qed.

Lemma sqrt_zero x : sf_zero x = true -> sf_zero (SF64sqrt x) = true.
Proof. now destruct x. Qed.

Lemma div_zero_or_nan x y :
  sf_zero_or_nan x = true -> sf_zero_or_nan y = true -> SF64div x y = S754_nan.
Proof. destruct x as [[]|[]| |[] ? ?], y as [[]|[]| |[] ? ?]; now try discriminate. Qed.

(** *** The order of the values that are not NaN *)

Lemma digits2_size m : digits2_pos m = Pos.size m.
Proof. induction m; simpl; congruence. Qed.

Lemma digits2_bounds m :
  (2 ^ (Zpos (digits2_pos m) - 1) <= Zpos m < 2 ^ Zpos (digits2_pos m))%Z.
Proof.
  rewrite digits2_size. split.
  - pose proof (Pos.size_le m) as H.
    assert (Hp : (2 ^ Zpos (Pos.size m) <= 2 * Zpos m)%Z).
    { change 2%Z with (Zpos 2). rewrite <- Pos2Z.inj_pow. 
      change (Zpos 2 * Zpos m)%Z with (Zpos (m~0)). now apply Pos2Z.pos_le_pos. }
    replace (Zpos (Pos.size m)) with (Z.succ (Zpos (Pos.size m) - 1)) in Hp by lia.
    rewrite Z.pow_succ_r in Hp by lia. lia.
  - pose proof (Pos.size_gt m) as H.
    change 2%Z with (Zpos 2). rewrite <- Pos2Z.inj_pow. now apply Pos2Z.pos_lt_pos.
Qed.

(** What validity says of a finite value. *)
Lemma valid_finite s m e :
  valid_binary (S754_finite s m e) = true ->
  (-1074 <= e <= 971)%Z /\ (Zpos (digits2_pos m) <= 53)%Z /\
  ((-1074 < e)%Z -> Zpos (digits2_pos m) = 53%Z).
Proof.
  simpl. unfold bounded, canonical_mantissa, fexp, emin, prec, emax.
  intros H. apply andb_prop in H as [H1 H2].
  apply Z.eqb_eq in H1. apply Z.leb_le in H2. lia.
Qed.

Lemma mag_pos m e : (-1074 <= e)%Z -> (0 < mag m e)%Z.
Proof.
  intros He. unfold mag.
  pose proof (Z.pow_pos_nonneg 2 (e + 1074)). lia.
Qed.

Lemma mag_lt_pow m e d :
  (-1074 <= e)%Z -> (Zpos (digits2_pos m) <= d)%Z ->
  (mag m e < 2 ^ (d + e + 1074))%Z.
Proof.
  intros He Hd. unfold mag.
  pose proof (digits2_bounds m) as [_ Hm].
  assert (Hle : (2 ^ Zpos (digits2_pos m) <= 2 ^ d)%Z) by (apply Z.pow_le_mono_r; lia).
  replace (d + e + 1074)%Z with (d + (e + 1074))%Z by lia.
  assert (0 <= d)%Z by (clear Hm Hle; lia).
  assert (0 <= e + 1074)%Z by (clear Hm Hle; lia).
  rewrite (Z.pow_add_r 2 d (e + 1074)) by assumption.
  apply Z.mul_lt_mono_pos_r; [apply Z.pow_pos_nonneg; lia|].
  eapply Z.lt_le_trans; eassumption.
Qed.

Lemma mag_ge_pow m e :
  (-1074 <= e)%Z -> (2 ^ (Zpos (digits2_pos m) - 1 + e + 1074) <= mag m e)%Z.
Proof.
  intros He. unfold mag.
  pose proof (digits2_bounds m) as [Hm _].
  replace (Zpos (digits2_pos m) - 1 + e + 1074)%Z
    with ((Zpos (digits2_pos m) - 1) + (e + 1074))%Z by (clear Hm; lia).
  rewrite Z.pow_add_r by (clear Hm; lia).
  apply Z.mul_le_mono_nonneg_r; [apply Z.pow_nonneg; lia| exact Hm].
Qed.

Lemma mag_lt_inf s m e :
  valid_binary (S754_finite s m e) = true -> (0 < mag m e < 2 ^ 2098)%Z.
Proof.
  intros H. apply valid_finite in H as (He & Hd & _). split.
  - apply mag_pos; lia.
  - pose proof (mag_lt_pow m e 53 ltac:(lia) Hd) as Hlt.
    assert (2 ^ (53 + e + 1074) <= 2 ^ 2098)%Z by (apply Z.pow_le_mono_r; lia).
    lia.
Qed.

Lemma mag_lt_of_exp m1 e1 m2 e2 :
  (-1074 <= e1 < e2)%Z ->
  (Zpos (digits2_pos m1) <= 53)%Z -> Zpos (digits2_pos m2) = 53%Z ->
  (mag m1 e1 < mag m2 e2)%Z.
Proof.
  intros He Hd1 Hd2.
  pose proof (mag_lt_pow m1 e1 53 ltac:(lia) Hd1) as Hlt.
  pose proof (mag_ge_pow m2 e2 ltac:(lia)) as Hge. rewrite Hd2 in Hge.
  assert (Hle : (2 ^ (53 + e1 + 1074) <= 2 ^ (53 - 1 + e2 + 1074))%Z)
    by (apply Z.pow_le_mono_r; lia).
  eapply Z.lt_le_trans; [exact Hlt|]. eapply Z.le_trans; eassumption.
Qed.

Lemma mag_compare s1 m1 e1 s2 m2 e2 :
  valid_binary (S754_finite s1 m1 e1) = true ->
  valid_binary (S754_finite s2 m2 e2) = true ->
  (mag m1 e1 ?= mag m2 e2)%Z =
  match (e1 ?= e2)%Z with
  | Lt => Lt
  | Gt => Gt
  | Eq => Pos.compare_cont Eq m1 m2
  end.
Proof.
  intros H1 H2.
  apply valid_finite in H1 as (He1 & Hd1 & Hn1).
  apply valid_finite in H2 as (He2 & Hd2 & Hn2).
  destruct (Z.compare_spec e1 e2) as [-> | Hlt | Hgt].
  - unfold mag. change (Pos.compare_cont Eq m1 m2) with (Zpos m1 ?= Zpos m2)%Z.
    symmetry. apply Zmult_compare_compat_r, Z.lt_gt, Z.pow_pos_nonneg; lia.
  - apply Z.compare_lt_iff, mag_lt_of_exp; [lia | lia | apply Hn2; lia].
  - apply Z.compare_gt_iff, mag_lt_of_exp; [lia | lia | apply Hn1; lia].
Qed.

Ltac cmp_lia :=
  symmetry;
  first [ apply Z.compare_lt_iff; lia | apply Z.compare_gt_iff; lia
        | apply Z.compare_eq_iff; lia ].

Lemma SFcompare_ord x y :
  valid_binary x = true -> valid_binary y = true ->
  sf_nan x = false -> sf_nan y = false ->
  SFcompare x y = Some (ord x ?= ord y)%Z.
Proof.
  intros Vx Vy Nx Ny.
  destruct x as [sx|sx| |sx mx ex], y as [sy|sy| |sy my ey]; try discriminate;
    cbn [SFcompare ord]; f_equal.
  - now destruct sy; vm_compute.
  - pose proof (mag_lt_inf _ _ _ Vy) as [Hp _]. fold (mag my ey).
    destruct sy; cbn [cond_Zopp]; cmp_lia.
  - now destruct sx; vm_compute.
  - now destruct sx, sy; vm_compute.
  - pose proof (mag_lt_inf _ _ _ Vy) as [Hp Hq]. fold (mag my ey).
    destruct sx, sy; cbn [cond_Zopp]; cmp_lia.
  - pose proof (mag_lt_inf _ _ _ Vx) as [Hp _]. fold (mag mx ex).
    destruct sx; cbn [cond_Zopp]; cmp_lia.
  - pose proof (mag_lt_inf _ _ _ Vx) as [Hp Hq]. fold (mag mx ex).
    destruct sx, sy; cbn [cond_Zopp]; cmp_lia.
  - pose proof (mag_lt_inf _ _ _ Vx) as [Hpx _].
    pose proof (mag_lt_inf _ _ _ Vy) as [Hpy _].
    pose proof (mag_compare _ _ _ _ _ _ Vx Vy) as Hc.
    fold (mag mx ex) (mag my ey).
    destruct sx, sy; cbn [cond_Zopp].
    + rewrite Z.compare_opp, (Z.compare_antisym (mag mx ex)), Hc.
      now destruct (ex ?= ey)%Z.
    + cmp_lia.
    + cmp_lia.
    + rewrite Hc. now destruct (ex ?= ey)%Z.
Qed.

(** *** Rounding keeps the sign of a non-zero value *)

Lemma shr_1_m mrs : (0 <= shr_m mrs)%Z -> shr_m (shr_1 mrs) = (shr_m mrs / 2)%Z.
Proof.
  destruct mrs as [m r t]; cbn [shr_m]. intros Hm.
  rewrite <- Z.div2_div.
  destruct m as [|[p|p|]|p]; try reflexivity; lia.
Qed.

Ltac pow_side :=
  first [ lia | apply Z.pow_pos_nonneg; lia | apply Z.pow_nonzero; lia
        | apply Z.pow_nonneg; lia ].

Lemma iter_shr_1_m p : forall mrs,
  (0 <= shr_m mrs)%Z ->
  shr_m (SpecFloat.iter_pos shr_1 p mrs) = (shr_m mrs / 2 ^ Zpos p)%Z.
Proof.
  induction p as [p IH|p IH|]; intros mrs Hm; cbn [SpecFloat.iter_pos].
  - assert (H1 : (0 <= shr_m (shr_1 mrs))%Z)
      by (rewrite shr_1_m by assumption; apply Z.div_pos; lia).
    assert (H2 : (0 <= shr_m (SpecFloat.iter_pos shr_1 p (shr_1 mrs)))%Z)
      by (rewrite IH by assumption; apply Z.div_pos; [lia | apply Z.pow_pos_nonneg; lia]).
    rewrite IH, IH, shr_1_m by assumption.
    rewrite !Z.div_div by pow_side.
    f_equal. rewrite <- Z.pow_add_r by lia.
    rewrite <- (Z.pow_1_r 2) at 1. rewrite <- Z.pow_add_r by lia. f_equal. lia.
  - assert (H2 : (0 <= shr_m (SpecFloat.iter_pos shr_1 p mrs))%Z)
      by (rewrite IH by assumption; apply Z.div_pos; [lia | apply Z.pow_pos_nonneg; lia]).
    rewrite IH, IH by assumption.
    rewrite Z.div_div by pow_side.
    f_equal. rewrite <- Z.pow_add_r by lia. f_equal. lia.
  - now rewrite shr_1_m.
Qed.

Lemma shr_record_of_loc_m m l : shr_m (shr_record_of_loc m l) = m.
Proof. now destruct l as [|[]]. Qed.

Lemma shr_fexp_pos m e l :
  (-1074 <= e)%Z ->
  (0 < shr_m (fst (shr_fexp prec emax (Zpos m) e l)))%Z /\
  (-1074 <= snd (shr_fexp prec emax (Zpos m) e l))%Z.
Proof.
  intros He. unfold shr_fexp, shr, fexp, emin, prec, emax. cbn [Zdigits2].
  set (d := Zpos (digits2_pos m)).
  destruct (Z.max (d + e - 53) (3 - 1024 - 53) - e)%Z as [|n|n] eqn:En; cbn [fst snd];
    rewrite ?shr_record_of_loc_m; try lia.
  rewrite iter_shr_1_m by (rewrite shr_record_of_loc_m; lia).
  rewrite shr_record_of_loc_m.
  assert (Hn : Zpos n = (d - 53)%Z) by lia.
  split; [|lia].
  pose proof (digits2_bounds m) as [Hlo _]. fold d in Hlo.
  assert (Hpow : (2 ^ Zpos n <= 2 ^ (d - 1))%Z) by (apply Z.pow_le_mono_r; lia).
  assert (Hpos : (0 < 2 ^ Zpos n)%Z) by (apply Z.pow_pos_nonneg; lia).
  apply Z.lt_le_trans with 1%Z; [lia|].
  apply Z.div_le_lower_bound; [assumption|].
  rewrite Z.mul_1_r. eapply Z.le_trans; eassumption.
Qed.

Lemma round_nearest_even_pos m l : (0 < m)%Z -> (0 < round_nearest_even m l)%Z.
Proof.
  intros Hm. destruct l as [|[]]; cbn [round_nearest_even]; try lia.
  destruct (Z.even m); lia.
Qed.

Lemma binary_round_aux_signed s m e l :
  (-1074 <= e)%Z ->
  sf_signed s (binary_round_aux prec emax s (Zpos m) e l) = true.
Proof.
  intros He. unfold binary_round_aux.
  pose proof (shr_fexp_pos m e l He) as [Hm1 He1].
  destruct (shr_fexp prec emax (Zpos m) e l) as [mrs1 e1]; cbn [fst snd] in *.
  pose proof (round_nearest_even_pos _ (loc_of_shr_record mrs1) Hm1) as Hr.
  destruct (round_nearest_even (shr_m mrs1) (loc_of_shr_record mrs1)) as [|m2|m2];
    try lia.
  pose proof (shr_fexp_pos m2 e1 loc_Exact He1) as [Hm2 _].
  destruct (shr_fexp prec emax (Zpos m2) e1 loc_Exact) as [mrs2 e2]; cbn [fst snd] in *.
  destruct (shr_m mrs2) as [|m3|m3]; try lia.
  destruct (e2 <=? emax - prec)%Z; cbn [sf_signed]; now destruct s.
Qed.

Lemma iter_xO m d : Zpos (Pos.iter xO m d) = (Zpos m * 2 ^ Zpos d)%Z.
Proof.
  induction d as [|d IH] using Pos.peano_ind.
  - cbn [Pos.iter]. lia.
  - rewrite Pos.iter_succ, Pos2Z.inj_xO, IH, Pos2Z.inj_succ, Z.pow_succ_r by lia. lia.
Qed.

Lemma shl_align_fst m e ez :
  (ez <= e)%Z -> Zpos (fst (shl_align m e ez)) = (Zpos m * 2 ^ (e - ez))%Z.
Proof.
  intros Hle. unfold shl_align.
  destruct (ez - e)%Z as [|d|d] eqn:Ed; cbn [fst]; try lia.
  - replace (e - ez)%Z with 0%Z by lia. lia.
  - rewrite iter_xO. do 2 f_equal. lia.
Qed.

Lemma binary_round_signed s m e :
  (-1074 <= e)%Z -> sf_signed s (binary_round prec emax s m e) = true.
Proof.
  intros He. unfold binary_round, shl_align.
  set (f := fexp prec emax (Zpos (digits2_pos m) + e)).
  assert (Hf : (-1074 <= f)%Z) by (unfold f, fexp, emin, prec, emax; lia).
  destruct (f - e)%Z; now apply binary_round_aux_signed.
Qed.

Lemma binary_normalize_signed m e :
  (-1074 <= e)%Z ->
  sf_signed false (binary_normalize prec emax m e false) = (0 <? m)%Z.
Proof.
  intros He. destruct m as [|m|m]; cbn [binary_normalize].
  - reflexivity.
  - now rewrite binary_round_signed.
  - pose proof (binary_round_signed true m e He) as H.
    now destruct (binary_round prec emax true m e) as [|[]| |[] ? ?].
Qed.

Lemma SFltb_zero x : SFltb (S754_zero false) x = sf_signed false x.
Proof. now destruct x as [|[]| |[] ? ?]. Qed.

(** *** The sign of a difference is the order of its operands *)

Lemma ord_finite_sub sx mx ex sy my ey :
  (-1074 <= ex)%Z -> (-1074 <= ey)%Z ->
  let ez := Z.min ex ey in
  ((cond_Zopp sy (Zpos (fst (shl_align my ey ez)))
    - cond_Zopp sx (Zpos (fst (shl_align mx ex ez)))) * 2 ^ (ez + 1074))%Z
  = (ord (S754_finite sy my ey) - ord (S754_finite sx mx ex))%Z.
Proof.
  intros Hx Hy ez. cbn [ord].
  rewrite !shl_align_fst by (unfold ez; lia).
  assert (Hpx : (2 ^ (ex + 1074) = 2 ^ (ex - ez) * 2 ^ (ez + 1074))%Z).
  { rewrite <- Z.pow_add_r by (unfold ez; lia). f_equal. lia. }
  assert (Hpy : (2 ^ (ey + 1074) = 2 ^ (ey - ez) * 2 ^ (ez + 1074))%Z).
  { rewrite <- Z.pow_add_r by (unfold ez; lia). f_equal. lia. }
  rewrite Hpx, Hpy. clear Hpx Hpy.
  destruct sx, sy; cbn [cond_Zopp]; ring.
Qed.

Lemma SFsub_signed x y :
  valid_binary x = true -> valid_binary y = true ->
  sf_nan x = false -> sf_nan y = false ->
  sf_signed false (SF64sub y x) = (ord x <? ord y)%Z.
Proof.
  intros Vx Vy Nx Ny.
  destruct x as [sx|sx| |sx mx ex], y as [sy|sy| |sy my ey]; try discriminate;
    unfold SF64sub; cbn [SFsub].
  - now destruct sx, sy.
  - now destruct sx, sy; vm_compute.
  - pose proof (mag_lt_inf _ _ _ Vy) as [Hp _].
    cbn [sf_signed ord]. fold (mag my ey).
    destruct sy; cbn [cond_Zopp Bool.eqb]; symmetry;
      [apply Z.ltb_ge | apply Z.ltb_lt]; lia.
  - now destruct sx, sy; vm_compute.
  - now destruct sx, sy; vm_compute.
  - pose proof (mag_lt_inf _ _ _ Vy) as [Hp Hq].
    cbn [sf_signed ord]. fold (mag my ey).
    destruct sx, sy; cbn [cond_Zopp Bool.eqb negb]; symmetry;
      first [apply Z.ltb_ge; lia | apply Z.ltb_lt; lia].
  - pose proof (mag_lt_inf _ _ _ Vx) as [Hp _].
    cbn [sf_signed ord]. fold (mag mx ex).
    destruct sx; cbn [cond_Zopp Bool.eqb negb]; symmetry;
      first [apply Z.ltb_ge; lia | apply Z.ltb_lt; lia].
  - pose proof (mag_lt_inf _ _ _ Vx) as [Hp Hq].
    cbn [sf_signed ord]. fold (mag mx ex).
    destruct sx, sy; cbn [cond_Zopp Bool.eqb negb]; symmetry;
      first [apply Z.ltb_ge; lia | apply Z.ltb_lt; lia].
  - pose proof (valid_finite _ _ _ Vx) as (Hex & _).
    pose proof (valid_finite _ _ _ Vy) as (Hey & _).
    rewrite binary_normalize_signed by lia.
    pose proof (ord_finite_sub sx mx ex sy my ey ltac:(lia) ltac:(lia)) as Hd.
    cbv zeta in Hd.
    set (D := (cond_Zopp sy (Zpos (fst (shl_align my ey (Z.min ey ex))))
               - cond_Zopp sx (Zpos (fst (shl_align mx ex (Z.min ey ex)))))%Z).
    rewrite (Z.min_comm ex ey) in Hd. fold D in Hd.
    assert (Hpow : (0 < 2 ^ (Z.min ey ex + 1074))%Z) by (apply Z.pow_pos_nonneg; lia).
    set (P := (2 ^ (Z.min ey ex + 1074))%Z) in *.
    set (ox := ord (S754_finite sx mx ex)) in *.
    set (oy := ord (S754_finite sy my ey)) in *.
    clearbody D P ox oy.
    destruct (Z.ltb_spec 0 D), (Z.ltb_spec ox oy); try reflexivity; nia.
Qed.

(** *** On the primitive floats *)

Lemma ltb_key x y :
  is_NaN x = false -> is_NaN y = false -> (x <? y)%float = (key x <? key y)%Z.
Proof.
  rewrite !is_NaN_spec. intros Nx Ny.
  rewrite ltb_spec. unfold SFltb, key.
  rewrite SFcompare_ord by (assumption || apply Prim2SF_valid).
  unfold Z.ltb. now destruct (ord (Prim2SF x) ?= ord (Prim2SF y))%Z.
Qed.

Lemma leb_key x y :
  is_NaN x = false -> is_NaN y = false -> (x <=? y)%float = (key x <=? key y)%Z.
Proof.
  rewrite !is_NaN_spec. intros Nx Ny.
  rewrite leb_spec. unfold SFleb, key.
  rewrite SFcompare_ord by (assumption || apply Prim2SF_valid).
  unfold Z.leb. now destruct (ord (Prim2SF x) ?= ord (Prim2SF y))%Z.
Qed.

Lemma sub_pos_key x y :
  is_NaN x = false -> is_NaN y = false ->
  (0 <? y - x)%float = (key x <? key y)%Z.
Proof.
  rewrite !is_NaN_spec. intros Nx Ny.
  rewrite ltb_spec, sub_spec. change (Prim2SF 0) with (S754_zero false).
  rewrite SFltb_zero. apply SFsub_signed; assumption || apply Prim2SF_valid.
Qed.

End Binary64Facts.

(** ** The similarity engine *)

Section Cosine.

Let term (s : number) (xy : number * number) : number := (s + fst xy * snd xy)%float.

Lemma cosine_loop_from (a b pa pb : vector) (acc : number * number * number) :
  length pa = length pb -> length a = length b ->
  fold_left (cosine_step (pa ++ a) (pb ++ b)) (seq (length pa) (length a)) acc
  = (fold_left term (combine a b) (fst (fst acc)),
     fold_left term (combine a a) (snd (fst acc)),
     fold_left term (combine b b) (snd acc)).
Proof.
  revert b pa pb acc.
  induction a as [|x a IH]; intros [|y b] pa pb [[d na] nb] Hp Hl;
    try discriminate; [reflexivity|].
  cbn [length seq fold_left combine].
  assert (Hx : at_ (pa ++ x :: a) (length pa) = x) by apply nth_middle.
  assert (Hy : at_ (pb ++ y :: b) (length pa) = y) by (rewrite Hp; apply nth_middle).
  unfold cosine_step at 2. rewrite Hx, Hy.
  replace (pa ++ x :: a) with ((pa ++ [x]) ++ a) by now rewrite <- app_assoc.
  replace (pb ++ y :: b) with ((pb ++ [y]) ++ b) by now rewrite <- app_assoc.
  replace (S (length pa)) with (length (pa ++ [x])) by (rewrite length_app; simpl; lia).
  rewrite IH; [reflexivity | rewrite !length_app; simpl; lia | now injection Hl].
Qed.

Lemma cosine_loop_spec (a b : vector) :
  length a = length b ->
  cosine_loop a b = (dot_product a b, dot_product a a, dot_product b b).
Proof.
  intros Hl. unfold cosine_loop.
  exact (cosine_loop_from a b [] [] (0%float, 0%float, 0%float) eq_refl Hl).
Qed.

Lemma cosineSimilarity_eq (a b : vector) :
  cosineSimilarity a b =
  if (length a =? length b)%nat
  then Ok (dot_product a b / (norm a * norm b))%float
  else Throw DimensionMismatchError.
Proof.
  unfold cosineSimilarity.
  destruct (Nat.eqb_spec (length a) (length b)) as [Hl|Hl]; cbn [negb]; [|reflexivity].
  now rewrite cosine_loop_spec.
Qed.

End Cosine.

(** C6. [cosineSimilarity a b] throws exactly when the lengths of [a]
    and [b] differ, and what it throws is the dimension mismatch error;
    for vectors of equal length it returns the dot product divided by
    the product of the two norms. *)
Theorem cosineSimilarity_contract (a b : vector) :
  ((exists e, cosineSimilarity a b = Throw e) <-> length a <> length b)
  /\ (forall e, cosineSimilarity a b = Throw e -> e = DimensionMismatchError)
  /\ (length a = length b ->
      cosineSimilarity a b = Ok (dot_product a b / (norm a * norm b))%float).
Proof.
  rewrite cosineSimilarity_eq.
  destruct (Nat.eqb_spec (length a) (length b)) as [Hl|Hl].
  - split; [split|split].
    + intros [e He]. discriminate.
    + intros Hne. contradiction.
    + intros e He. discriminate.
    + reflexivity.
  - split; [split|split].
    + intros _. exact Hl.
    + intros _. now exists DimensionMismatchError.
    + intros e He. now injection He.
    + intros Heq. contradiction.
Qed.

Lemma cosineSimilarity_contract_witness :
  cosineSimilarity [1%float; 2%float] [2%float; 1%float]
  = Ok (dot_product [1%float; 2%float] [2%float; 1%float]
        / (norm [1%float; 2%float] * norm [2%float; 1%float]))%float.
Proof.
  apply (cosineSimilarity_contract [1%float; 2%float] [2%float; 1%float]).
  reflexivity.
Defined.

Section ZeroVector.

Import Binary64 Binary64Facts.

Let term (s : number) (xy : number * number) : number := (s + fst xy * snd xy)%float.

Lemma fold_zero_r (a b : vector) (acc : number) :
  zero_vector b = true ->
  sf_zero_or_nan (Prim2SF acc) = true ->
  sf_zero_or_nan (Prim2SF (fold_left term (combine a b) acc)) = true.
Proof.
  revert b acc. induction a as [|x a IH]; intros [|y b] acc Hb Hacc; try assumption.
  cbn [zero_vector forallb] in Hb. apply andb_prop in Hb as [Hy Hb].
  cbn [combine fold_left]. apply IH; [exact Hb|].
  unfold term; cbn [fst snd]. rewrite add_spec, mul_spec.
  apply add_zero_or_nan; [exact Hacc|].
  apply mul_zero_r. now rewrite <- eqb_zero_spec.
Qed.

Lemma fold_zero_l (a b : vector) (acc : number) :
  zero_vector a = true ->
  sf_zero_or_nan (Prim2SF acc) = true ->
  sf_zero_or_nan (Prim2SF (fold_left term (combine a b) acc)) = true.
Proof.
  revert b acc. induction a as [|x a IH]; intros [|y b] acc Ha Hacc; try assumption.
  cbn [zero_vector forallb] in Ha. apply andb_prop in Ha as [Hx Ha].
  cbn [combine fold_left]. apply IH; [exact Ha|].
  unfold term; cbn [fst snd]. rewrite add_spec, mul_spec.
  apply add_zero_or_nan; [exact Hacc|].
  apply mul_zero_l. now rewrite <- eqb_zero_spec.
Qed.

Lemma fold_zero_zero (a : vector) (acc : number) :
  zero_vector a = true ->
  sf_zero (Prim2SF acc) = true ->
  sf_zero (Prim2SF (fold_left term (combine a a) acc)) = true.
Proof.
  revert acc. induction a as [|x a IH]; intros acc Ha Hacc; [assumption|].
  cbn [zero_vector forallb] in Ha. apply andb_prop in Ha as [Hx Ha].
  cbn [combine fold_left]. apply IH; [exact Ha|].
  unfold term; cbn [fst snd]. rewrite add_spec, mul_spec.
  rewrite eqb_zero_spec in Hx.
  apply add_zero_zero; [exact Hacc|]. now apply mul_zero_zero.
Qed.

Lemma norm_zero (a : vector) :
  zero_vector a = true -> sf_zero (Prim2SF (norm a)) = true.
Proof.
  intros Ha. unfold norm. rewrite sqrt_spec. apply sqrt_zero.
  now apply fold_zero_zero.
Qed.

Lemma zero_vector_quotient (a b : vector) :
  zero_vector a = true \/ zero_vector b = true ->
  is_NaN (dot_product a b / (norm a * norm b))%float = true.
Proof.
  intros Hz. rewrite is_NaN_spec, div_spec, mul_spec.
  rewrite div_zero_or_nan; [reflexivity| |].
  - destruct Hz as [Ha|Hb]; [now apply fold_zero_l | now apply fold_zero_r].
  - destruct Hz as [Ha|Hb]; [apply mul_zero_l | apply mul_zero_r]; now apply norm_zero.
Qed.

End ZeroVector.

(** C9. For vectors of equal length of which at least one is all
    zero, [cosineSimilarity] returns NaN: no policy is applied to a zero
    norm. *)
Theorem cosineSimilarity_zero_vector (a b : vector) :
  length a = length b ->
  zero_vector a = true \/ zero_vector b = true ->
  exists s, cosineSimilarity a b = Ok s /\ is_NaN s = true.
Proof.
  intros Hl Hz. rewrite cosineSimilarity_eq.
  apply Nat.eqb_eq in Hl. rewrite Hl.
  eexists. split; [reflexivity|]. now apply zero_vector_quotient.
Qed.

Lemma cosineSimilarity_zero_vector_witness :
  exists s, cosineSimilarity [1%float; 2%float] [0%float; (-0)%float] = Ok s
            /\ is_NaN s = true.
Proof.
  apply (cosineSimilarity_zero_vector [1%float; 2%float] [0%float; (-0)%float]).
  - reflexivity.
  - right. reflexivity.
Defined.

(** ** The result-text extractor *)

Lemma substring0_length (n : nat) (s : string) :
  String.length (substring0 n s) = Nat.min n (String.length s).
Proof.
  unfold substring0. revert n.
  induction s as [|c s IH]; intros [|n]; cbn [String.substring String.length Nat.min];
    try reflexivity.
  now rewrite IH.
Qed.

Lemma substring0_short (n : nat) (s : string) :
  String.length s <= n -> substring0 n s = s.
Proof.
  unfold substring0. revert n.
  induction s as [|c s IH]; intros [|n] Hn; cbn [String.substring String.length] in *;
    try reflexivity; try lia.
  f_equal. apply IH. lia.
Qed.

Lemma substring0_prefix (n : nat) (s : string) :
  exists rest, s = substring0 n s +:+ rest.
Proof.
  unfold substring0. revert n.
  induction s as [|c s IH]; intros [|n]; cbn [String.substring].
  - now exists "".
  - now exists "".
  - now exists (String c s).
  - destruct (IH n) as [rest Hrest]. exists rest.
    change (String c (String.substring 0 n s) +:+ rest)
      with (String c (String.substring 0 n s +:+ rest)).
    now rewrite <- Hrest.
Qed.

(** A result whose page map is absent makes the extractor throw. *)
Lemma extractTextContent_no_pagemap (r : SearchResult) :
  pagemap r = None ->
  extractTextContent r
  = Throw (TypeError "Cannot read properties of undefined (reading 'metatags')").
Proof. intros H. unfold extractTextContent. now rewrite H. Qed.

(** C4, as stated, fails: the metadata of [result_second_entry] has an
    entry with a rich description, and the text is built from the
    snippet. *)
Lemma extractTextContent_reads_first_entry_only :
  extractTextContent result_second_entry = Ok "Title: T Description: snip"
  /\ extractText_spec result_second_entry = "Title: T Description: rich".
Proof. split; reflexivity. Qed.

(** C4, amended. For every result whose page map is present,
    [extractTextContent] does not throw; the text is
    ["Title: {title} Description: {description}"], where the
    description is the rich description of the first metadata entry cut
    to 800 characters when the metadata is not empty and that entry has
    a non-empty one, and the snippet otherwise. *)
Theorem extractTextContent_total (r : SearchResult) (pm : Pagemap) :
  pagemap r = Some pm ->
  (exists text, extractTextContent r = Ok text)
  /\ (forall first rest d,
        metatags pm = Some (first :: rest) ->
        first !! "og:description" = Some d -> d <> "" ->
        extractTextContent r
        = Ok ("Title: " +:+ title r +:+ " Description: " +:+ substring0 800 d))
  /\ ((forall first rest,
         metatags pm = Some (first :: rest) ->
         first !! "og:description" = None \/ first !! "og:description" = Some "") ->
      extractTextContent r
      = Ok ("Title: " +:+ title r +:+ " Description: " +:+ snippet r)).
Proof.
  intros Hpm. unfold extractTextContent. rewrite Hpm.
  destruct (metatags pm) as [[|first rest]|] eqn:Hm.
  - split; [eauto|]. split; [intros ? ? ? [=]|reflexivity].
  - destruct (first !! "og:description") as [d|] eqn:Hd.
    + destruct (String.eqb_spec d "") as [->|Hne].
      * split; [eauto|]. split; [|reflexivity].
        intros f r' d' [= <- <-] Hd' Hne'. congruence.
      * split; [eauto|]. split.
        -- intros f r' d' [= <- <-] Hd' _.
           assert (d' = d) as -> by congruence. reflexivity.
        -- intros H. destruct (H first rest eq_refl) as [H'|H']; congruence.
    + split; [eauto|]. split; [|reflexivity].
      intros f r' d' [= <- <-] Hd' _. congruence.
  - split; [eauto|]. split; [intros ? ? ? [=]|reflexivity].
Qed.

Lemma extractTextContent_total_witness :
  extractTextContent result_first_entry = Ok "Title: T Description: rich".
Proof.
  destruct (extractTextContent_total result_first_entry
              {| metatags := Some [{["og:description" := "rich"]}; ∅] |} eq_refl)
    as (_ & Hrich & _).
  apply (Hrich {["og:description" := "rich"]} [∅] "rich").
  - reflexivity.
  - reflexivity.
  - discriminate.
Defined.

(** ** The ranking orchestrator *)

(** C5. On an empty list of results both engines return the empty
    list and leave the world as it was: the trace gains no provider
    request and no cache command, the store and the cache object are
    untouched. *)
Theorem rankSearchResults_empty (E : Env) (query : string)
    (options : RedisEngine.Options) (options' : MemoryEngine.Options) (w : World) :
  RedisEngine.rankSearchResults E query [] options w = (Ok [], w)
  /\ MemoryEngine.rankSearchResults E query [] options' w
     = (Ok [], default ∅ (MemoryEngine.cache options'), w).
Proof. split; reflexivity. Qed.

Lemma map_throwing_ext {A B} (f g : A -> nat -> outcome B) (l : list A) (i : nat) :
  (forall x j, f x j = g x j) -> map_throwing f i l = map_throwing g i l.
Proof.
  intros Hfg. revert i. induction l as [|x l IH]; intros i; cbn [map_throwing].
  - reflexivity.
  - now rewrite Hfg, IH.
Qed.

Lemma score_agree (queryEmbedding : vector) (embeddings : list vector)
    (result : SearchResult) (index : nat) :
  RedisEngine.score queryEmbedding (map Some embeddings) result index
  = MemoryEngine.score queryEmbedding embeddings result index.
Proof.
  unfold RedisEngine.score, MemoryEngine.score.
  change (map Some embeddings) with (Some <$> embeddings).
  rewrite list_lookup_fmap. now destruct (embeddings !! index).
Qed.

Lemma trim_empty_string : trim "" = "".
Proof. reflexivity. Qed.

Lemma getEmbedding_agree (E : Env) (query : string) (w : World) :
  String.length (trim query) <> 0 ->
  RedisEngine.getEmbedding E query false w = MemoryEngine.getEmbedding E query w.
Proof.
  intros Hq. unfold RedisEngine.getEmbedding, MemoryEngine.getEmbedding.
  assert (Hguard : String.eqb query "" || (String.length (trim query) =? 0)%nat = false).
  { apply orb_false_intro.
    - apply String.eqb_neq. intros ->. now apply Hq.
    - now apply Nat.eqb_neq. }
  rewrite Hguard. unfold bind, ret, try_catch, embeddings_create.
  destruct (provider E (Single query)) as [data|n m]; [|reflexivity].
  now destruct (head data) as [[embedding|]|].
Qed.

Lemma getEmbeddingsBatch_agree (E : Env) (texts : list string) (w : World) :
  RedisEngine.getEmbeddingsBatch E texts false w
  = (match MemoryEngine.getEmbeddingsBatch E texts w with
     | (Ok embeddings, w') => (Ok (map Some embeddings), w')
     | (Throw e, w') => (Throw e, w')
     end).
Proof.
  unfold RedisEngine.getEmbeddingsBatch, RedisEngine.getBatchEmbeddingsFromAPI,
    MemoryEngine.getEmbeddingsBatch. cbn [negb]. unfold bind at 1.
  now destruct (try_catch _ _ w) as [[embeddings|e] w'].
Qed.

(** C10. With caching disabled ([useCache: false] for the engine
    backed by Redis, [useCache] left out or [false] for the other) and
    a query that is not blank, the two engines give the same outcome,
    ranked list or error, and leave the same world, whatever the
    provider answers; the cache object is left as it was passed. *)
Theorem engines_agree_without_cache (E : Env) (query : string)
    (results : list SearchResult) (options : MemoryEngine.Options) (w : World) :
  String.length (trim query) <> 0 ->
  default false (MemoryEngine.useCache options) = false ->
  MemoryEngine.rankSearchResults E query results options w
  = (fst (RedisEngine.rankSearchResults E query results
            {| RedisEngine.useCache := Some false |} w),
     default ∅ (MemoryEngine.cache options),
     snd (RedisEngine.rankSearchResults E query results
            {| RedisEngine.useCache := Some false |} w)).
Proof.
  intros Hq Hc.
  unfold MemoryEngine.rankSearchResults, RedisEngine.rankSearchResults.
  rewrite Hc. cbn [RedisEngine.useCache default from_option].
  destruct (length results =? 0)%nat; [reflexivity|].
  unfold MemoryEngine.rank_steps, RedisEngine.rank_steps, try_catch, id.
  unfold bind, lift, ret, console_error, throw.
  rewrite (getEmbedding_agree E query w Hq).
  destruct (MemoryEngine.getEmbedding E query w) as [[queryEmbedding|e] w1];
    [|reflexivity].
  destruct (map_throwing (fun r _ => extractTextContent r) 0 results)
    as [resultTexts|e]; [|reflexivity].
  rewrite getEmbeddingsBatch_agree.
  destruct (MemoryEngine.getEmbeddingsBatch E resultTexts w1)
    as [[resultEmbeddings|e] w2]; [|reflexivity].
  rewrite (map_throwing_ext _ _ results 0 (score_agree queryEmbedding resultEmbeddings)).
  now destruct (map_throwing (MemoryEngine.score queryEmbedding resultEmbeddings) 0 results).
Qed.

Lemma engines_agree_without_cache_witness :
  MemoryEngine.rankSearchResults boots_env "best hiking boots" [shoes; boots]
    {| MemoryEngine.useCache := None; MemoryEngine.cache := None |} connected
  = (fst (RedisEngine.rankSearchResults boots_env "best hiking boots" [shoes; boots]
            {| RedisEngine.useCache := Some false |} connected),
     ∅,
     snd (RedisEngine.rankSearchResults boots_env "best hiking boots" [shoes; boots]
            {| RedisEngine.useCache := Some false |} connected)).
Proof.
  apply (engines_agree_without_cache boots_env "best hiking boots" [shoes; boots]
           {| MemoryEngine.useCache := None; MemoryEngine.cache := None |} connected).
  - vm_compute. lia.
  - reflexivity.
Defined.

(** *** Errors of the ranking operation *)

Lemma rank_steps_throws (E : Env) (query : string) (results : list SearchResult)
    (useCache : bool) (w : World) (c : exn) (w1 : World) :
  RedisEngine.rank_steps E query results useCache w = (Throw c, w1)
  <-> step_fails E query results useCache w c w1.
Proof.
  unfold RedisEngine.rank_steps, bind, lift, ret. split.
  - intros H.
    destruct (RedisEngine.getEmbedding E query useCache w)
      as [[queryEmbedding|e] w0] eqn:Hq.
    2: { injection H as <- <-. now apply query_embedding_fails. }
    destruct (map_throwing (fun r _ => extractTextContent r) 0 results)
      as [resultTexts|e] eqn:Ht.
    2: { injection H as <- <-. now apply extraction_fails with queryEmbedding. }
    destruct (RedisEngine.getEmbeddingsBatch E resultTexts useCache w0)
      as [[resultEmbeddings|e] w2] eqn:Hb.
    2: { injection H as <- <-.
         now apply result_embeddings_fail with queryEmbedding w0 resultTexts. }
    destruct (map_throwing (RedisEngine.score queryEmbedding resultEmbeddings) 0 results)
      as [rankedResults|e] eqn:Hs; [discriminate|].
    injection H as <- <-.
    now apply similarity_fails with queryEmbedding w0 resultTexts resultEmbeddings.
  - intros [Hq|qe Hq Ht|qe w0 texts Hq Ht Hb|qe w0 texts embs Hq Ht Hb Hs].
    + now rewrite Hq.
    + now rewrite Hq, Ht.
    + now rewrite Hq, Ht, Hb.
    + now rewrite Hq, Ht, Hb, Hs.
Qed.

(** C7, as stated, fails: a blank query makes the ranking operation
    throw the error of the embedding step itself, whose name is not
    [RankingError] and which has no cause. *)
Lemma rankSearchResults_throws_the_cause_itself :
  fst (RedisEngine.rankSearchResults boots_env "   " [boots]
         {| RedisEngine.useCache := Some false |} connected)
  = Throw InvalidInputError
  /\ ~ (exists cause, RankingError_wrapping InvalidInputError cause).
Proof.
  split; [reflexivity|].
  intros [cause [Hname _]]. discriminate Hname.
Qed.

(** C7, amended. On a list of results that is not empty, when a step
    inside the ranking operation fails with an error, the caller gets
    that very error, thrown again as it is after it was logged, and no
    list; and every error the ranking operation throws is the error of
    such a step. *)
Theorem rankSearchResults_rethrows (E : Env) (query : string)
    (results : list SearchResult) (options : RedisEngine.Options) (w : World) :
  results <> [] ->
  (forall c w1,
     step_fails E query results (default true (RedisEngine.useCache options)) w c w1 ->
     RedisEngine.rankSearchResults E query results options w
     = (Throw c, log (ConsoleError "Error ranking search results:" c) w1))
  /\ (forall c w',
        RedisEngine.rankSearchResults E query results options w = (Throw c, w') ->
        exists w1,
          step_fails E query results (default true (RedisEngine.useCache options)) w c w1
          /\ w' = log (ConsoleError "Error ranking search results:" c) w1).
Proof.
  intros Hne. unfold RedisEngine.rankSearchResults.
  destruct results as [|r results]; [contradiction|]. cbn [length Nat.eqb].
  unfold try_catch. split.
  - intros c w1 Hfail. apply rank_steps_throws in Hfail. now rewrite Hfail.
  - intros c w' H.
    destruct (RedisEngine.rank_steps E query (r :: results)
                (default true (RedisEngine.useCache options)) w)
      as [[ranked|e] w1] eqn:Hsteps; [discriminate|].
    unfold bind, console_error, throw in H. injection H as <- <-.
    exists w1. split; [now apply rank_steps_throws|reflexivity].
Qed.

Lemma rankSearchResults_rethrows_witness :
  RedisEngine.rankSearchResults boots_env "   " [boots]
    {| RedisEngine.useCache := Some false |} connected
  = (Throw InvalidInputError,
     log (ConsoleError "Error ranking search results:" InvalidInputError) connected).
Proof.
  apply (rankSearchResults_rethrows boots_env "   " [boots]
           {| RedisEngine.useCache := Some false |} connected).
  - discriminate.
  - apply query_embedding_fails. reflexivity.
Defined.

(** *** Validation of the texts to embed *)

(** The single-text operation refuses a blank text before anything
    leaves the process. *)
Lemma getEmbedding_rejects_blank (E : Env) (text : string) (useCache : bool) (w : World) :
  String.length (trim text) = 0 ->
  RedisEngine.getEmbedding E text useCache w = (Throw InvalidInputError, w).
Proof.
  intros Hb. unfold RedisEngine.getEmbedding.
  apply Nat.eqb_eq in Hb. rewrite Hb, orb_true_r. reflexivity.
Qed.

(** The batch operation sends its texts to the provider whatever they
    are. *)
Lemma getBatchEmbeddingsFromAPI_calls_provider (E : Env) (texts : list string) (w : World) :
  exists rest,
    trace (snd (RedisEngine.getBatchEmbeddingsFromAPI E texts w))
    = trace w ++ EmbeddingsCreate (Batch texts) :: rest.
Proof.
  unfold RedisEngine.getBatchEmbeddingsFromAPI, try_catch, bind, embeddings_create, lift.
  destruct (provider E (Batch texts)) as [data|n m].
  - destruct (map_throwing _ 0 data) as [embeddings|e]; cbn.
    + now exists [].
    + rewrite <- app_assoc. now eexists.
  - cbn. rewrite <- app_assoc. now eexists.
Qed.

(** The single-text operation of the engine with the in-memory cache
    has no such check. *)
Lemma memory_getEmbedding_calls_provider (E : Env) (text : string) (w : World) :
  exists rest,
    trace (snd (MemoryEngine.getEmbedding E text w))
    = trace w ++ EmbeddingsCreate (Single text) :: rest.
Proof.
  unfold MemoryEngine.getEmbedding, try_catch, bind, embeddings_create.
  destruct (provider E (Single text)) as [data|n m].
  - destruct (head data) as [[embedding|]|]; cbn.
    + now exists [].
    + rewrite <- app_assoc. now eexists.
    + rewrite <- app_assoc. now eexists.
  - cbn. rewrite <- app_assoc. now eexists.
Qed.

(** C8 at its failing input: the batch operation given one empty text
    does not throw; it requests the embedding of the empty text from the
    provider and returns what the provider answers.  The single-text
    operation of the engine with the in-memory cache does the same with
    a blank query. *)
Theorem blank_text_reaches_provider :
  RedisEngine.getEmbeddingsBatch boots_env [""] false connected
  = (Ok [Some [0%float; 1%float]],
     {| isConnected := true; store := ∅; faults := [];
        trace := [EmbeddingsCreate (Batch [""])] |})
  /\ MemoryEngine.getEmbedding boots_env "   " connected
     = (Ok [1%float; 0%float],
        {| isConnected := true; store := ∅; faults := [];
           trace := [EmbeddingsCreate (Single "   ")] |}).
Proof. split; reflexivity. Qed.

(** *** Cache failures *)

Lemma never_throws_absorbs {A} (m : M A) : never_throws m -> absorbs_cache_failures m.
Proof.
  intros [Hk Hn]. split; [exact Hk|]. intros w e Hc He.
  destruct (Hn w Hc) as [a Ha]. congruence.
Qed.

Lemma keeps_ret {A} (a : A) : keeps_connection (ret a).
Proof. now intros w. Qed.

Lemma keeps_throw {A} (e : exn) : keeps_connection (@throw A e).
Proof. now intros w. Qed.

Lemma keeps_lift {A} (o : outcome A) : keeps_connection (lift o).
Proof. now intros w. Qed.

Lemma keeps_console_error message error : keeps_connection (console_error message error).
Proof. now intros w. Qed.

Lemma keeps_bind {A B} (m : M A) (k : A -> M B) :
  keeps_connection m -> (forall a, keeps_connection (k a)) -> keeps_connection (bind m k).
Proof.
  intros Hm Hk w. unfold bind. specialize (Hm w).
  destruct (m w) as [[a|e] w1]; cbn [snd] in *; [|exact Hm].
  now rewrite Hk.
Qed.

Lemma keeps_try_catch {A} (m : M A) (handler : exn -> M A) :
  keeps_connection m -> (forall e, keeps_connection (handler e)) ->
  keeps_connection (try_catch m handler).
Proof.
  intros Hm Hh w. unfold try_catch. specialize (Hm w).
  destruct (m w) as [[a|e] w1]; cbn [snd] in *; [exact Hm|].
  now rewrite Hh.
Qed.

Lemma keeps_getRedisClient : keeps_connection getRedisClient.
Proof. intros w. unfold getRedisClient. now destruct (isConnected w) eqn:Hc. Qed.

Lemma keeps_redis_get key : keeps_connection (redis_get key).
Proof.
  intros w. unfold redis_get, next_fault, log; cbn [faults].
  now destruct (faults w) as [|[[n m]|] rest].
Qed.

Lemma keeps_redis_setEx key seconds value : keeps_connection (redis_setEx key seconds value).
Proof.
  intros w. unfold redis_setEx, next_fault, log; cbn [faults].
  now destruct (faults w) as [|[[n m]|] rest].
Qed.

Lemma keeps_embeddings_create E input : keeps_connection (embeddings_create E input).
Proof.
  intros w. unfold embeddings_create. now destruct (provider E input).
Qed.

Lemma keeps_Promise_all {A} (ps : list (M A)) :
  Forall keeps_connection ps -> keeps_connection (Promise_all ps).
Proof.
  induction 1 as [|p ps Hp _ IH]; intros w; [reflexivity|].
  cbn [Promise_all]. specialize (Hp w).
  destruct (p w) as [o w1]. specialize (IH w1).
  destruct (Promise_all ps w1) as [os w2]. cbn [snd] in *. congruence.
Qed.

Create HintDb keeps.

#[local] Hint Resolve keeps_ret keeps_throw keeps_lift keeps_console_error
  keeps_getRedisClient keeps_redis_get keeps_redis_setEx keeps_embeddings_create
  : keeps.

Ltac keeps :=
  repeat first
    [ apply keeps_bind; [|intros ?]
    | apply keeps_try_catch; [|intros ?]
    | solve [auto with keeps]
    | match goal with |- keeps_connection (match ?x with _ => _ end) => destruct x end
    | match goal with |- keeps_connection (if ?x then _ else _) => destruct x end ].

Lemma keeps_getCachedEmbedding E text :
  keeps_connection (RedisEngine.getCachedEmbedding E text).
Proof. unfold RedisEngine.getCachedEmbedding. keeps. Qed.

Lemma keeps_setCachedEmbedding E text embedding :
  keeps_connection (RedisEngine.setCachedEmbedding E text embedding).
Proof. unfold RedisEngine.setCachedEmbedding. keeps. Qed.

#[local] Hint Resolve keeps_getCachedEmbedding keeps_setCachedEmbedding : keeps.

(** [initRedis], when the connection is accepted, makes the client
    connected. *)
Lemma initRedis_connects (w : World) :
  head (faults w) = None \/ head (faults w) = Some None ->
  fst (initRedis w) = Ok tt /\ isConnected (snd (initRedis w)) = true.
Proof.
  intros Hf. unfold initRedis. destruct (isConnected w) eqn:Hc; [now split|].
  unfold next_fault, log; cbn [faults].
  destruct (faults w) as [|[[n m]|] rest]; cbn [head] in Hf; cbn; try now split.
  destruct Hf as [Hf|Hf]; discriminate Hf.
Qed.

Lemma getRedisClient_connected (w : World) :
  isConnected w = true -> getRedisClient w = (Ok tt, w).
Proof. intros Hc. unfold getRedisClient. now rewrite Hc. Qed.

(** What a rejected read and a miss have in common. *)
Lemma getCachedEmbedding_rejected E text w n m rest :
  isConnected w = true -> faults w = Some (n, m) :: rest ->
  fst (RedisEngine.getCachedEmbedding E text w) = Ok None.
Proof.
  intros Hc Hf. unfold RedisEngine.getCachedEmbedding, bind.
  rewrite (getRedisClient_connected w Hc).
  unfold try_catch, bind, redis_get, next_fault, log; cbn [faults].
  now rewrite Hf.
Qed.

Lemma getCachedEmbedding_miss E text w :
  isConnected w = true ->
  head (faults w) = None \/ head (faults w) = Some None ->
  store w !! RedisEngine.generateEmbeddingCacheKey E text = None ->
  fst (RedisEngine.getCachedEmbedding E text w) = Ok None.
Proof.
  intros Hc Hf Hs. unfold RedisEngine.getCachedEmbedding, bind.
  rewrite (getRedisClient_connected w Hc).
  unfold try_catch, bind, redis_get, next_fault, log; cbn [faults].
  destruct (faults w) as [|[[n m]|] rest]; cbn [head] in Hf.
  - cbn. now rewrite Hs.
  - destruct Hf as [Hf|Hf]; discriminate Hf.
  - cbn. now rewrite Hs.
Qed.

Lemma getCachedEmbedding_never_throws E text :
  never_throws (RedisEngine.getCachedEmbedding E text).
Proof.
  split; [apply keeps_getCachedEmbedding|]. intros w Hc.
  unfold RedisEngine.getCachedEmbedding, bind.
  rewrite (getRedisClient_connected w Hc).
  unfold try_catch, bind, redis_get, next_fault, log; cbn [faults].
  destruct (faults w) as [|[[n m]|] rest]; cbn;
    try (destruct (store w !! _) as [c|]; [|now eexists];
         destruct (String.eqb c ""); [now eexists|];
         destruct (JSON_parse E c)); now eexists.
Qed.

Lemma setCachedEmbedding_never_throws E text embedding :
  never_throws (RedisEngine.setCachedEmbedding E text embedding).
Proof.
  split; [apply keeps_setCachedEmbedding|]. intros w Hc.
  unfold RedisEngine.setCachedEmbedding, bind.
  rewrite (getRedisClient_connected w Hc).
  unfold try_catch, redis_setEx, next_fault, log, throw, console_error; cbn [faults].
  destruct embedding as [v|]; [|now exists tt].
  destruct (faults w) as [|[[n m]|] rest]; now exists tt.
Qed.

Lemma absorbs_ret {A} (a : A) : absorbs_cache_failures (ret a).
Proof. split; [apply keeps_ret|]. intros w e _ H. discriminate H. Qed.

Lemma absorbs_throw {A} (e : exn) :
  cache_failure e = false -> absorbs_cache_failures (@throw A e).
Proof. intros He. split; [apply keeps_throw|]. intros w e' _ [= <-]. exact He. Qed.

Lemma absorbs_lift {A} (o : outcome A) :
  (forall e, o = Throw e -> cache_failure e = false) -> absorbs_cache_failures (lift o).
Proof. intros Ho. split; [apply keeps_lift|]. intros w e _ H. now apply Ho. Qed.

Lemma absorbs_bind {A B} (m : M A) (k : A -> M B) :
  absorbs_cache_failures m -> (forall a, absorbs_cache_failures (k a)) ->
  absorbs_cache_failures (bind m k).
Proof.
  intros [Hkm Hm] Hk. split.
  - apply keeps_bind; [exact Hkm|]. intros a. apply Hk.
  - intros w e Hc. unfold bind. specialize (Hkm w). specialize (Hm w).
    destruct (m w) as [[a|e'] w1]; cbn [fst snd] in *.
    + apply (Hk a). congruence.
    + intros [= <-]. now apply Hm.
Qed.

(** [catch (error) { console.error(...); throw error; }] *)
Lemma absorbs_rethrow {A} (m : M A) (message : string) :
  absorbs_cache_failures m ->
  absorbs_cache_failures
    (try_catch m (fun error => let* _ := console_error message error in throw error)).
Proof.
  intros [Hkm Hm]. split.
  - apply keeps_try_catch; [exact Hkm|]. intros e. keeps.
  - intros w e Hc. unfold try_catch. specialize (Hm w).
    destruct (m w) as [[a|e'] w1]; cbn [fst] in *; [discriminate|].
    unfold bind, console_error, throw. intros [= <-]. now apply Hm.
Qed.

Lemma absorbs_Promise_all {A} (ps : list (M A)) :
  Forall absorbs_cache_failures ps -> absorbs_cache_failures (Promise_all ps).
Proof.
  intros Hps. split.
  - apply keeps_Promise_all. eapply Forall_impl; [exact Hps|]. now intros p [Hk _].
  - induction Hps as [|p ps [Hkp Hp] Hps IH]; intros w e Hc; [discriminate|].
    cbn [Promise_all]. specialize (Hkp w). specialize (Hp w).
    destruct (p w) as [o w1]. cbn [fst snd] in *.
    specialize (IH w1). destruct (Promise_all ps w1) as [os w2]. cbn [fst] in *.
    destruct o as [a|e1].
    + destruct os as [l|e2]; [discriminate|]. intros [= <-]. apply IH; congruence.
    + intros [= <-]. now apply Hp.
Qed.

Lemma absorbs_embeddings_create E input :
  absorbs_cache_failures (embeddings_create E input).
Proof.
  split; [apply keeps_embeddings_create|]. intros w e _. unfold embeddings_create.
  destruct (provider E input); [discriminate|]. now intros [= <-].
Qed.

Lemma map_throwing_throws {A B} (f : A -> nat -> outcome B) (l : list A) (i : nat) (e : exn) :
  map_throwing f i l = Throw e -> exists x j, f x j = Throw e.
Proof.
  revert i. induction l as [|x l IH]; intros i; cbn [map_throwing]; [discriminate|].
  destruct (f x i) as [y|e'] eqn:Hx.
  - destruct (map_throwing f (S i) l) as [ys|e'] eqn:Hl; [discriminate|].
    intros [= <-]. now apply (IH (S i)).
  - intros [= <-]. now exists x, i.
Qed.

Lemma absorbs_getEmbedding E text useCache :
  absorbs_cache_failures (RedisEngine.getEmbedding E text useCache).
Proof.
  unfold RedisEngine.getEmbedding.
  destruct (_ || _); [now apply absorbs_throw|].
  apply absorbs_bind.
  - destruct useCache; [|apply absorbs_ret].
    apply never_throws_absorbs, getCachedEmbedding_never_throws.
  - intros [v|]; [apply absorbs_ret|].
    apply absorbs_rethrow, absorbs_bind; [apply absorbs_embeddings_create|].
    intros data. destruct (head data) as [[embedding|]|]; try now apply absorbs_throw.
    apply absorbs_bind; [|intros _; apply absorbs_ret].
    destruct useCache; [|apply absorbs_ret].
    apply never_throws_absorbs, setCachedEmbedding_never_throws.
Qed.

Lemma absorbs_getBatchEmbeddingsFromAPI E texts :
  absorbs_cache_failures (RedisEngine.getBatchEmbeddingsFromAPI E texts).
Proof.
  unfold RedisEngine.getBatchEmbeddingsFromAPI.
  apply absorbs_rethrow, absorbs_bind; [apply absorbs_embeddings_create|].
  intros data. apply absorbs_lift. intros e He.
  apply map_throwing_throws in He as ([v|] & j & He); [discriminate|].
  now injection He as <-.
Qed.

Lemma absorbs_getEmbeddingsBatch E texts useCache :
  absorbs_cache_failures (RedisEngine.getEmbeddingsBatch E texts useCache).
Proof.
  unfold RedisEngine.getEmbeddingsBatch. destruct useCache; cbn [negb].
  - apply absorbs_bind.
    + apply absorbs_Promise_all, Forall_map, Forall_forall. intros text _.
      apply never_throws_absorbs, getCachedEmbedding_never_throws.
    + intros embeddings.
      destruct (RedisEngine.collect_uncached texts embeddings)
        as [uncachedIndices uncachedTexts].
      destruct (0 <? length uncachedTexts)%nat; [|apply absorbs_ret].
      apply absorbs_bind; [apply absorbs_getBatchEmbeddingsFromAPI|].
      intros freshEmbeddings. apply absorbs_bind; [|intros _; apply absorbs_ret].
      apply absorbs_Promise_all, Forall_forall. intros p Hp.
      apply list_elem_of_lookup in Hp as [i Hi].
      rewrite list_lookup_imap in Hi.
      destruct (uncachedTexts !! i) as [text|]; [|discriminate].
      injection Hi as <-.
      apply never_throws_absorbs, setCachedEmbedding_never_throws.
  - apply absorbs_bind; [apply absorbs_getBatchEmbeddingsFromAPI|].
    intros embeddings. apply absorbs_ret.
Qed.

Lemma extraction_throws (results : list SearchResult) (e : exn) :
  map_throwing (fun r _ => extractTextContent r) 0 results = Throw e ->
  cache_failure e = false.
Proof.
  intros He. apply map_throwing_throws in He as (r & _ & He).
  unfold extractTextContent in He.
  destruct (pagemap r) as [pm|]; [|now injection He as <-].
  now destruct (metatags pm) as [[|first rest]|].
Qed.

Lemma score_throws queryEmbedding resultEmbeddings (results : list SearchResult) (e : exn) :
  map_throwing (RedisEngine.score queryEmbedding resultEmbeddings) 0 results = Throw e ->
  cache_failure e = false.
Proof.
  intros He. apply map_throwing_throws in He as (r & j & He).
  unfold RedisEngine.score in He.
  destruct (resultEmbeddings !! j) as [[embedding|]|]; try now injection He as <-.
  rewrite cosineSimilarity_eq in He.
  destruct (length queryEmbedding =? length embedding)%nat; [discriminate|].
  now injection He as <-.
Qed.

Lemma absorbs_rankSearchResults E query results options :
  absorbs_cache_failures (RedisEngine.rankSearchResults E query results options).
Proof.
  unfold RedisEngine.rankSearchResults.
  destruct (length results =? 0)%nat; [apply absorbs_ret|].
  apply absorbs_rethrow. unfold RedisEngine.rank_steps.
  apply absorbs_bind; [apply absorbs_getEmbedding|]. intros queryEmbedding.
  apply absorbs_bind; [apply absorbs_lift, extraction_throws|]. intros resultTexts.
  apply absorbs_bind; [apply absorbs_getEmbeddingsBatch|]. intros resultEmbeddings.
  apply absorbs_bind; [apply absorbs_lift, score_throws|]. intros rankedResults.
  apply absorbs_ret.
Qed.

(** C3, as stated, fails: when the Redis client is not connected,
    the guard of [getRedisClient] throws outside the [try] of the cache
    accessors and the error reaches the caller of the ranking
    operation. *)
Lemma rankSearchResults_not_connected :
  fst (RedisEngine.rankSearchResults boots_env "best hiking boots" [boots]
         {| RedisEngine.useCache := None |} not_connected)
  = Throw RedisNotConnected
  /\ cache_failure RedisNotConnected = true.
Proof. split; reflexivity. Qed.

(** C3, amended. On a connected Redis client the failures of the cache
    are absorbed: reading the cache does not throw, and a rejected read
    answers [null] as a miss does; writing the cache does not throw;
    and no error the ranking operation throws is a cache failure. *)
Theorem cache_failures_absorbed (E : Env) (w : World) :
  isConnected w = true ->
  (forall text, exists cached, fst (RedisEngine.getCachedEmbedding E text w) = Ok cached)
  /\ (forall text n m rest,
        faults w = Some (n, m) :: rest ->
        fst (RedisEngine.getCachedEmbedding E text w) = Ok None)
  /\ (forall text,
        head (faults w) = None \/ head (faults w) = Some None ->
        store w !! RedisEngine.generateEmbeddingCacheKey E text = None ->
        fst (RedisEngine.getCachedEmbedding E text w) = Ok None)
  /\ (forall text embedding,
        fst (RedisEngine.setCachedEmbedding E text embedding w) = Ok tt)
  /\ (forall query results options e,
        fst (RedisEngine.rankSearchResults E query results options w) = Throw e ->
        cache_failure e = false).
Proof.
  intros Hc. repeat split.
  - intros text. now apply getCachedEmbedding_never_throws.
  - intros text n m rest. now apply getCachedEmbedding_rejected.
  - intros text. now apply getCachedEmbedding_miss.
  - intros text embedding.
    destruct (setCachedEmbedding_never_throws E text embedding) as [_ Hn].
    destruct (Hn w Hc) as [[] Ha]. exact Ha.
  - intros query results options e.
    now apply absorbs_rankSearchResults.
Qed.

Lemma cache_failures_absorbed_witness :
  fst (RedisEngine.getCachedEmbedding boots_env "best hiking boots" socket_closed)
  = Ok None.
Proof.
  destruct (cache_failures_absorbed boots_env socket_closed eq_refl)
    as (_ & Hrejected & _).
  exact (Hrejected "best hiking boots" _ _ [] eq_refl).
Defined.

(** *** The ranked list *)

Lemma sort_insert_perm {A} (compareFn : A -> A -> number) (x : A) (l : list A) :
  sort_insert compareFn x l ≡ₚ x :: l.
Proof.
  induction l as [|y l IH]; cbn [sort_insert]; [reflexivity|].
  destruct (0 <? compareFn x y)%float; [|reflexivity].
  rewrite IH. apply perm_swap.
Qed.

Lemma Array_sort_perm {A} (compareFn : A -> A -> number) (l : list A) :
  Array_sort compareFn l ≡ₚ l.
Proof.
  unfold Array_sort. induction l as [|x l IH]; cbn [foldr]; [reflexivity|].
  now rewrite sort_insert_perm, IH.
Qed.

Lemma map_throwing_inverse {A B} (f : A -> nat -> outcome B) (g : B -> A)
    (l : list A) (i : nat) (l' : list B) :
  (forall x j y, f x j = Ok y -> g y = x) ->
  map_throwing f i l = Ok l' -> map g l' = l.
Proof.
  intros Hfg. revert i l'.
  induction l as [|x l IH]; intros i l'; cbn [map_throwing].
  - now intros [= <-].
  - destruct (f x i) as [y|e] eqn:Hx; [|discriminate].
    destruct (map_throwing f (S i) l) as [ys|e] eqn:Hl; [|discriminate].
    intros [= <-]. cbn [map]. f_equal; [now apply Hfg with i | now apply IH with (S i)].
Qed.

Lemma redis_score_base queryEmbedding resultEmbeddings result index ranked :
  RedisEngine.score queryEmbedding resultEmbeddings result index = Ok ranked ->
  base ranked = result.
Proof.
  unfold RedisEngine.score.
  destruct (resultEmbeddings !! index) as [[embedding|]|]; try discriminate.
  destruct (cosineSimilarity queryEmbedding embedding); [|discriminate].
  now intros [= <-].
Qed.

Lemma memory_score_base queryEmbedding resultEmbeddings result index ranked :
  MemoryEngine.score queryEmbedding resultEmbeddings result index = Ok ranked ->
  base ranked = result.
Proof.
  unfold MemoryEngine.score.
  destruct (resultEmbeddings !! index) as [embedding|]; try discriminate.
  destruct (cosineSimilarity queryEmbedding embedding); [|discriminate].
  now intros [= <-].
Qed.

Section Sorting.

Import Binary64 Binary64Facts.

(** The comparator of both engines: [(a, b) => b.similarity - a.similarity]. *)
Let compareFn (a b : RankedResult) : number := (similarity b - similarity a)%float.

Lemma compareFn_positive (a b : RankedResult) :
  is_NaN (similarity a) = false -> is_NaN (similarity b) = false ->
  (0 <? compareFn a b)%float = (key (similarity a) <? key (similarity b))%Z.
Proof. intros Ha Hb. unfold compareFn. now apply sub_pos_key. Qed.

Lemma sort_insert_sorted (x : RankedResult) (l : list RankedResult) :
  is_NaN (similarity x) = false -> no_NaN_similarity l ->
  sorted_by_similarity l -> sorted_by_similarity (sort_insert compareFn x l).
Proof.
  intros Hx Hl Hs. induction Hs as [|y l Hs IH Hy]; cbn [sort_insert].
  - repeat constructor.
  - apply Forall_cons in Hl as [Hny Hl].
    rewrite compareFn_positive by assumption.
    destruct (Z.ltb_spec (key (similarity x)) (key (similarity y))) as [Hlt|Hge].
    + constructor; [now apply IH|].
      rewrite sort_insert_perm. constructor; [|exact Hy].
      rewrite leb_key by assumption. apply Z.leb_le. lia.
    + constructor; [now constructor|].
      assert (Hyx : (similarity y <=? similarity x)%float = true)
        by (rewrite leb_key by assumption; now apply Z.leb_le).
      constructor; [exact Hyx|].
      rewrite Forall_forall in Hy, Hl |- *. intros z Hz.
      specialize (Hy z Hz). specialize (Hl z Hz). cbn beta in Hy, Hl.
      rewrite leb_key in Hy |- * by assumption.
      rewrite leb_key in Hyx by assumption.
      apply Z.leb_le in Hy, Hyx. apply Z.leb_le. lia.
Qed.

Lemma Array_sort_sorted (l : list RankedResult) :
  no_NaN_similarity l -> sorted_by_similarity (Array_sort compareFn l).
Proof.
  unfold Array_sort. induction 1 as [|x l Hx Hl IH]; cbn [foldr].
  - constructor.
  - apply sort_insert_sorted; [exact Hx| |exact IH].
    unfold no_NaN_similarity. fold (Array_sort compareFn l).
    now rewrite Array_sort_perm.
Qed.

(** What a sorted copy of the scored results satisfies. *)
Lemma ranked_list_complete (results : list SearchResult) (ranked : list RankedResult) :
  map base ranked = results ->
  length (Array_sort compareFn ranked) = length results
  /\ map base (Array_sort compareFn ranked) ≡ₚ results
  /\ (no_NaN_similarity (Array_sort compareFn ranked) ->
      sorted_by_similarity (Array_sort compareFn ranked)).
Proof.
  intros <-. pose proof (Array_sort_perm compareFn ranked) as Hp.
  split; [|split].
  - now rewrite Hp, length_map.
  - now rewrite Hp.
  - intros Hn. apply Array_sort_sorted. unfold no_NaN_similarity. now rewrite <- Hp.
Qed.

End Sorting.

Lemma redis_rank_ok (E : Env) (query : string) (results : list SearchResult)
    (options : RedisEngine.Options) (w : World) (out : list RankedResult) (w' : World) :
  RedisEngine.rankSearchResults E query results options w = (Ok out, w') ->
  exists ranked,
    map base ranked = results /\ out = Array_sort RedisEngine.bySimilarity ranked.
Proof.
  unfold RedisEngine.rankSearchResults.
  destruct results as [|r results]; cbn [length Nat.eqb].
  { intros [= <- <-]. now exists []. }
  unfold try_catch, RedisEngine.rank_steps, bind, lift, ret, console_error, throw.
  destruct (RedisEngine.getEmbedding E query _ w) as [[queryEmbedding|e] w1];
    [|discriminate].
  destruct (map_throwing (fun r _ => extractTextContent r) 0 (r :: results))
    as [resultTexts|e]; [|discriminate].
  destruct (RedisEngine.getEmbeddingsBatch E resultTexts _ w1)
    as [[resultEmbeddings|e] w2]; [|discriminate].
  destruct (map_throwing (RedisEngine.score queryEmbedding resultEmbeddings) 0 (r :: results))
    as [ranked|e] eqn:Hs; [|discriminate].
  intros [= <- <-]. exists ranked. split; [|reflexivity].
  apply (map_throwing_inverse _ base _ _ _ (redis_score_base _ _) Hs).
Qed.

Lemma memory_rank_ok (E : Env) (query : string) (results : list SearchResult)
    (options : MemoryEngine.Options) (w : World) (out : list RankedResult)
    (cache' : gmap string vector) (w' : World) :
  MemoryEngine.rankSearchResults E query results options w = (Ok out, cache', w') ->
  exists ranked,
    map base ranked = results /\ out = Array_sort MemoryEngine.bySimilarity ranked.
Proof.
  unfold MemoryEngine.rankSearchResults.
  destruct results as [|r results]; cbn [length Nat.eqb].
  { intros [= <- <- <-]. now exists []. }
  unfold MemoryEngine.rank_steps, bind, lift, ret.
  set (useCache := default false (MemoryEngine.useCache options)).
  set (cache := default ∅ (MemoryEngine.cache options)).
  assert (Hrest : forall queryEmbedding cache1 w1,
    (let '(o, w2) :=
       match map_throwing (fun r _ => extractTextContent r) 0 (r :: results) with
       | Ok resultTexts =>
           match MemoryEngine.getEmbeddingsBatch E resultTexts w1 with
           | (Ok resultEmbeddings, w3) =>
               match map_throwing (MemoryEngine.score queryEmbedding resultEmbeddings) 0
                       (r :: results) with
               | Ok rankedResults =>
                   (Ok (Array_sort MemoryEngine.bySimilarity rankedResults), w3)
               | Throw e => (Throw e, w3)
               end
           | (Throw e, w3) => (Throw e, w3)
           end
       | Throw e => (Throw e, w1)
       end in (o, cache1, w2)) = (Ok out, cache', w') ->
    exists ranked,
      map base ranked = r :: results /\ out = Array_sort MemoryEngine.bySimilarity ranked).
  { intros queryEmbedding cache1 w1.
    destruct (map_throwing (fun r _ => extractTextContent r) 0 (r :: results))
      as [resultTexts|e]; [|discriminate].
    destruct (MemoryEngine.getEmbeddingsBatch E resultTexts w1)
      as [[resultEmbeddings|e] w2]; [|discriminate].
    destruct (map_throwing (MemoryEngine.score queryEmbedding resultEmbeddings) 0
                (r :: results)) as [ranked|e] eqn:Hs; [|discriminate].
    intros [= <- <- <-]. exists ranked. split; [|reflexivity].
    apply (map_throwing_inverse _ base _ _ _ (memory_score_base _ _) Hs). }
  destruct (if useCache then cache !! query else None) as [queryEmbedding|].
  - specialize (Hrest queryEmbedding cache w).
    destruct (let '(o, w2) := _ in (o, cache, w2)) as [[[ranked|e] c1] w1]; [|discriminate].
    intros [= <- <- <-]. now apply Hrest.
  - destruct (MemoryEngine.getEmbedding E query w) as [[queryEmbedding|e] w1];
      [|discriminate].
    specialize (Hrest queryEmbedding
                  (if useCache then <[query:=queryEmbedding]> cache else cache) w1).
    destruct (let '(o, w2) := _ in (o, _, w2)) as [[[ranked|e] c1] w2]; [|discriminate].
    intros [= <- <- <-]. now apply Hrest.
Qed.

(** C2, as stated, fails: a provider that answers zero vectors makes
    every similarity NaN; the ranking operation returns the two results
    and no arrangement of them is sorted by non-increasing similarity. *)
Lemma rankSearchResults_NaN_not_sorted :
  exists out,
    fst (RedisEngine.rankSearchResults zero_env "best hiking boots" [boots; shoes]
           {| RedisEngine.useCache := Some false |} connected) = Ok out
    /\ length out = 2
    /\ forall l, l ≡ₚ out -> ~ sorted_by_similarity l.
Proof.
  eexists. split; [reflexivity|]. split; [reflexivity|].
  intros l Hl Hs.
  apply Permutation_sym, Permutation_length_2_inv in Hl as [-> | ->];
    apply StronglySorted_inv in Hs as [_ Hs];
    apply Forall_cons in Hs as [Hs _]; vm_compute in Hs; discriminate Hs.
Qed.

(** C2, amended. When the ranking operation returns, on a list of N
    results, it returns N ranked results, each a result of the list
    with its similarity, in one-to-one correspondence with the list;
    and the ranked list is sorted by non-increasing similarity provided
    no similarity in it is NaN. *)
Theorem rankSearchResults_complete (E : Env) (query : string)
    (results : list SearchResult) (w : World) (out : list RankedResult) :
  (forall options w',
     RedisEngine.rankSearchResults E query results options w = (Ok out, w') ->
     length out = length results
     /\ map base out ≡ₚ results
     /\ (no_NaN_similarity out -> sorted_by_similarity out))
  /\ (forall options cache' w',
        MemoryEngine.rankSearchResults E query results options w = (Ok out, cache', w') ->
        length out = length results
        /\ map base out ≡ₚ results
        /\ (no_NaN_similarity out -> sorted_by_similarity out)).
Proof.
  split.
  - intros options w' H. apply redis_rank_ok in H as (ranked & Hb & ->).
    now apply ranked_list_complete.
  - intros options cache' w' H. apply memory_rank_ok in H as (ranked & Hb & ->).
    now apply ranked_list_complete.
Qed.

Lemma rankSearchResults_complete_witness :
  exists out,
    fst (RedisEngine.rankSearchResults boots_env "best hiking boots" [shoes; boots]
           {| RedisEngine.useCache := None |} connected) = Ok out
    /\ map base out = [boots; shoes]
    /\ length out = 2 /\ sorted_by_similarity out.
Proof.
  destruct (RedisEngine.rankSearchResults boots_env "best hiking boots" [shoes; boots]
              {| RedisEngine.useCache := None |} connected) as [[out|e] w'] eqn:Hr.
  - exists out. split; [reflexivity|].
    destruct (rankSearchResults_complete boots_env "best hiking boots" [shoes; boots]
                connected out) as [Hredis _].
    destruct (Hredis _ _ Hr) as (Hlen & _ & Hsorted).
    vm_compute in Hr. injection Hr as <- <-.
    split; [reflexivity|]. split; [exact Hlen|].
    apply Hsorted. repeat constructor.
  - vm_compute in Hr. discriminate Hr.
Defined.

(** *** Batch reconciliation *)

Lemma redis_commands_app (t t' : list event) :
  redis_commands (t ++ t') = redis_commands t ++ redis_commands t'.
Proof. apply omap_app. Qed.

Lemma provider_calls_app (t t' : list event) :
  provider_calls (t ++ t') = provider_calls t ++ provider_calls t'.
Proof. apply omap_app. Qed.

Ltac channels :=
  cbn [trace log isConnected]; rewrite ?redis_commands_app, ?provider_calls_app;
  cbn [redis_commands provider_calls omap option_bind mbind]; rewrite ?app_nil_r, <- ?app_assoc;
  try reflexivity.

Lemma getCachedEmbedding_effect (E : Env) (text : string) (w : World) :
  isConnected w = true ->
  exists cached w',
    RedisEngine.getCachedEmbedding E text w = (Ok cached, w')
    /\ isConnected w' = true
    /\ redis_commands (trace w')
       = redis_commands (trace w) ++ [RedisGet (RedisEngine.generateEmbeddingCacheKey E text)]
    /\ provider_calls (trace w') = provider_calls (trace w).
Proof.
  intros Hc. unfold RedisEngine.getCachedEmbedding, bind.
  rewrite (getRedisClient_connected w Hc).
  unfold try_catch, bind, redis_get, next_fault, log, console_error, ret, throw;
    cbn [faults].
  destruct (faults w) as [|[[n m]|] rest]; cbn [store];
    try (destruct (store w !! _) as [c|];
         [destruct (String.eqb c ""); [|destruct (JSON_parse E c)]|]);
    do 2 eexists; (split; [reflexivity|]); (split; [exact Hc|]); split; channels.
Qed.

Lemma setCachedEmbedding_effect (E : Env) (text : string) (embedding : option vector)
    (w : World) :
  isConnected w = true ->
  exists w',
    RedisEngine.setCachedEmbedding E text embedding w = (Ok tt, w')
    /\ isConnected w' = true
    /\ redis_commands (trace w')
       = redis_commands (trace w)
         ++ match embedding with
            | Some v => [RedisSetEx (RedisEngine.generateEmbeddingCacheKey E text)
                           RedisEngine.EMBEDDING_CACHE_DURATION (JSON_stringify E v)]
            | None => []
            end
    /\ provider_calls (trace w') = provider_calls (trace w).
Proof.
  intros Hc. unfold RedisEngine.setCachedEmbedding, bind.
  rewrite (getRedisClient_connected w Hc).
  unfold try_catch, redis_setEx, next_fault, log, console_error, throw; cbn [faults].
  destruct embedding as [v|]; [destruct (faults w) as [|[[n m]|] rest]|];
    eexists; (split; [reflexivity|]); (split; [exact Hc|]); split; channels.
Qed.

Lemma lookups_effect (E : Env) (texts : list string) (w : World) :
  isConnected w = true ->
  exists cached w1,
    Promise_all (map (RedisEngine.getCachedEmbedding E) texts) w = (Ok cached, w1)
    /\ isConnected w1 = true
    /\ length cached = length texts
    /\ redis_commands (trace w1)
       = redis_commands (trace w)
         ++ map (fun t => RedisGet (RedisEngine.generateEmbeddingCacheKey E t)) texts
    /\ provider_calls (trace w1) = provider_calls (trace w).
Proof.
  revert w. induction texts as [|text texts IH]; intros w Hc.
  - exists [], w. cbn. now rewrite app_nil_r.
  - destruct (getCachedEmbedding_effect E text w Hc) as (c & w0 & H0 & Hc0 & Hr0 & Hp0).
    destruct (IH w0 Hc0) as (cached & w1 & H1 & Hc1 & Hl1 & Hr1 & Hp1).
    exists (c :: cached), w1. cbn [map Promise_all]. rewrite H0, H1.
    split; [reflexivity|]. split; [exact Hc1|]. split; [cbn; lia|].
    split; [|congruence].
    rewrite Hr1, Hr0, <- app_assoc. reflexivity.
Qed.

Lemma writes_effect (E : Env) (missed : list string) (fresh : list vector) (w : World) :
  isConnected w = true ->
  exists w',
    Promise_all
      (imap (fun i text => RedisEngine.setCachedEmbedding E text (fresh !! i)) missed) w
    = (Ok (map (fun _ => tt) missed), w')
    /\ redis_commands (trace w')
       = redis_commands (trace w)
         ++ zip_with (fun t f => RedisSetEx (RedisEngine.generateEmbeddingCacheKey E t)
                                   RedisEngine.EMBEDDING_CACHE_DURATION (JSON_stringify E f))
              missed fresh
    /\ provider_calls (trace w') = provider_calls (trace w).
Proof.
  revert fresh w. induction missed as [|text missed IH]; intros fresh w Hc.
  - exists w. cbn. now rewrite app_nil_r.
  - cbn [imap Promise_all].
    destruct (setCachedEmbedding_effect E text (fresh !! 0) w Hc)
      as (w0 & H0 & Hc0 & Hr0 & Hp0).
    rewrite H0.
    destruct (IH (tail fresh) w0 Hc0) as (w1 & H1 & Hr1 & Hp1).
    rewrite (imap_ext _ (fun i text =>
               RedisEngine.setCachedEmbedding E text (tail fresh !! i)))
      by (intros i t _; cbn; now rewrite lookup_tail).
    rewrite H1. exists w1. split; [reflexivity|]. split; [|congruence].
    rewrite Hr1, Hr0, <- app_assoc. f_equal.
    destruct fresh as [|f fresh]; [now destruct missed|reflexivity].
Qed.

Lemma map_throwing_all_present {A} (fresh : list A) (i : nat) (e : exn) :
  map_throwing
    (fun (item : option A) (_ : nat) =>
       match item with Some embedding => Ok embedding | None => Throw e end)
    i (map Some fresh) = Ok fresh.
Proof.
  revert i. induction fresh as [|f fresh IH]; intros i; cbn [map map_throwing].
  - reflexivity.
  - now rewrite IH.
Qed.

Lemma getBatchEmbeddingsFromAPI_reply (E : Env) (texts : list string)
    (fresh : list vector) (w : World) :
  provider E (Batch texts) = Reply (map Some fresh) ->
  RedisEngine.getBatchEmbeddingsFromAPI E texts w
  = (Ok fresh, log (EmbeddingsCreate (Batch texts)) w).
Proof.
  intros Hp.
  unfold RedisEngine.getBatchEmbeddingsFromAPI, try_catch, bind, embeddings_create, lift.
  now rewrite Hp, map_throwing_all_present.
Qed.

Lemma collect_uncached_from (pre texts : list string) (cached : list (option vector))
    (indices : list nat) (missed : list string) :
  length cached = length texts ->
  fold_left
    (fun acc ix =>
       let '(uncachedIndices, uncachedTexts) := acc in
       match snd ix with
       | None => (uncachedIndices ++ [fst ix], uncachedTexts ++ [(pre ++ texts) !!! fst ix])
       | Some _ => acc
       end)
    (zip (seq (length pre) (length cached)) cached) (indices, missed)
  = (indices ++ none_indices (length pre) cached, missed ++ missed_texts texts cached).
Proof.
  revert pre texts indices missed.
  induction cached as [|c cached IH]; intros pre [|t texts] indices missed Hl;
    try discriminate.
  - cbn. now rewrite !app_nil_r.
  - assert (Hpre : length (pre ++ [t]) = S (length pre)) by (rewrite length_app; cbn; lia).
    assert (Happ : pre ++ t :: texts = (pre ++ [t]) ++ texts) by now rewrite <- app_assoc.
    specialize (IH (pre ++ [t]) texts). rewrite Hpre, <- Happ in IH.
    destruct c as [v|]; cbn [length seq zip_with fold_left fst snd none_indices missed_texts].
    + apply IH. now injection Hl.
    + rewrite (list_lookup_total_middle pre texts t _ eq_refl).
      rewrite IH by (now injection Hl). now rewrite <- !app_assoc.
Qed.

Lemma collect_uncached_spec (texts : list string) (cached : list (option vector)) :
  length cached = length texts ->
  RedisEngine.collect_uncached texts cached
  = (none_indices 0 cached, missed_texts texts cached).
Proof.
  intros Hl. unfold RedisEngine.collect_uncached, forEach.
  exact (collect_uncached_from [] texts cached [] [] Hl).
Qed.

Lemma fill_fresh_from (pre cached : list (option vector)) (fresh : list vector) (j : nat) :
  fold_left
    (fun (embeddings : list (option vector)) (ix : nat * nat) =>
       <[snd ix := fresh !! fst ix]> embeddings)
    (zip (seq j (length (none_indices (length pre) cached)))
         (none_indices (length pre) cached))
    (pre ++ cached)
  = pre ++ splice cached (drop j fresh).
Proof.
  revert pre j. induction cached as [|c cached IH]; intros pre j; [reflexivity|].
  assert (Hpre : forall x : option vector, length (pre ++ [x]) = S (length pre))
    by (intros x; rewrite length_app; cbn; lia).
  assert (Happ : forall x : option vector, pre ++ x :: cached = (pre ++ [x]) ++ cached)
    by (intros x; now rewrite <- app_assoc).
  destruct c as [v|]; cbn [none_indices splice].
  - specialize (IH (pre ++ [Some v]) j). rewrite Hpre, <- Happ in IH.
    rewrite IH, <- app_assoc. reflexivity.
  - cbn [length seq zip_with fold_left fst snd].
    replace (length pre) with (length pre + 0) at 3 by lia.
    rewrite insert_app_r. cbn [insert list_insert].
    specialize (IH (pre ++ [fresh !! j]) (S j)). rewrite Hpre, <- Happ in IH.
    rewrite IH, <- app_assoc. cbn [app]. f_equal.
    destruct (fresh !! j) as [f|] eqn:Hf.
    + now rewrite (drop_S _ _ _ Hf).
    + apply lookup_ge_None in Hf.
      now rewrite !drop_ge by lia.
Qed.

Lemma fill_fresh_spec (cached : list (option vector)) (fresh : list vector) :
  RedisEngine.fill_fresh (none_indices 0 cached) fresh cached = splice cached fresh.
Proof.
  unfold RedisEngine.fill_fresh, forEach.
  exact (fill_fresh_from [] cached fresh 0).
Qed.

Lemma splice_length (cached : list (option vector)) (fresh : list vector) :
  length (splice cached fresh) = length cached.
Proof.
  revert fresh. induction cached as [|[v|] cached IH]; intros fresh; cbn [splice length].
  - reflexivity.
  - now rewrite IH.
  - destruct fresh; cbn [length]; now rewrite IH.
Qed.

Lemma splice_all_present (texts : list string) (cached : list (option vector))
    (fresh : list vector) :
  length cached = length texts ->
  length fresh = length (missed_texts texts cached) ->
  Forall is_Some (splice cached fresh).
Proof.
  revert texts fresh.
  induction cached as [|[v|] cached IH]; intros [|t texts] fresh Hl Hf;
    try discriminate; cbn [splice missed_texts] in *.
  - constructor.
  - constructor; [eauto|]. apply (IH texts); [now injection Hl|exact Hf].
  - destruct fresh as [|f fresh]; [discriminate|].
    constructor; [eauto|]. apply (IH texts); [now injection Hl|now injection Hf].
Qed.

Lemma splice_hit (cached : list (option vector)) (fresh : list vector) (i : nat) (v : vector) :
  cached !! i = Some (Some v) -> splice cached fresh !! i = Some (Some v).
Proof.
  revert fresh i. induction cached as [|c cached IH]; intros fresh [|i] H;
    try discriminate; cbn in H.
  - injection H as ->. reflexivity.
  - destruct c as [v'|]; cbn [splice]; [now apply IH|].
    destruct fresh; cbn; now apply IH.
Qed.

Lemma splice_miss (texts : list string) (cached : list (option vector))
    (fresh : list vector) (i : nat) :
  length cached = length texts ->
  cached !! i = Some None ->
  missed_texts texts cached !! length (missed_texts (take i texts) (take i cached))
  = texts !! i
  /\ splice cached fresh !! i
     = Some (fresh !! length (missed_texts (take i texts) (take i cached))).
Proof.
  revert texts fresh i.
  induction cached as [|c cached IH]; intros [|t texts] fresh [|i] Hl H;
    try discriminate; cbn in H.
  - injection H as ->. cbn. now destruct fresh.
  - assert (Hl' : length cached = length texts) by now injection Hl.
    destruct c as [v|]; cbn [take missed_texts splice length].
    + apply (IH texts fresh i Hl' H).
    + destruct fresh as [|f fresh].
      * destruct (IH texts [] i Hl' H) as [Hm Hs]. split; [exact Hm|].
        change ((None :: splice cached []) !! S i) with (splice cached [] !! i).
        rewrite Hs. now rewrite !lookup_nil.
      * destruct (IH texts fresh i Hl' H) as [Hm Hs]. split; [exact Hm|exact Hs].
Qed.

(** Without faults, the cache answers each text by its store entry. *)
Lemma getCachedEmbedding_no_faults (E : Env) (text : string) (w : World) :
  isConnected w = true -> faults w = [] ->
  exists w',
    RedisEngine.getCachedEmbedding E text w
    = (Ok (read_back E (store w !! RedisEngine.generateEmbeddingCacheKey E text)), w')
    /\ isConnected w' = true /\ faults w' = [] /\ store w' = store w.
Proof.
  intros Hc Hf. unfold RedisEngine.getCachedEmbedding, bind.
  rewrite (getRedisClient_connected w Hc).
  unfold try_catch, bind, redis_get, next_fault, log, console_error, ret, throw, read_back;
    cbn [faults]. rewrite Hf. cbn [store].
  destruct (store w !! _) as [c|]; [destruct (String.eqb c ""); [|destruct (JSON_parse E c)]|];
    eexists; (split; [reflexivity|]); cbn; auto.
Qed.

Lemma cache_view_no_faults (E : Env) (texts : list string) (w : World) :
  isConnected w = true -> faults w = [] ->
  cache_view E texts w
  = map (fun t => read_back E (store w !! RedisEngine.generateEmbeddingCacheKey E t)) texts.
Proof.
  intros Hc Hf. unfold cache_view.
  assert (H : exists w',
    Promise_all (map (RedisEngine.getCachedEmbedding E) texts) w
    = (Ok (map (fun t => read_back E (store w !! RedisEngine.generateEmbeddingCacheKey E t))
             texts), w')).
  { revert w Hc Hf. induction texts as [|text texts IH]; intros w Hc Hf.
    - now exists w.
    - destruct (getCachedEmbedding_no_faults E text w Hc Hf) as (w0 & H0 & Hc0 & Hf0 & Hs0).
      destruct (IH w0 Hc0 Hf0) as (w1 & H1).
      exists w1. cbn [map Promise_all]. rewrite H0, H1, Hs0. reflexivity. }
  destruct H as [w' H]. now rewrite H.
Qed.

Lemma splice_no_miss (texts : list string) (cached : list (option vector))
    (fresh : list vector) :
  length cached = length texts -> missed_texts texts cached = [] ->
  splice cached fresh = cached.
Proof.
  revert texts. induction cached as [|[v|] cached IH]; intros [|t texts] Hl Hm;
    try discriminate; cbn [splice missed_texts] in *.
  - reflexivity.
  - f_equal. apply (IH texts); [now injection Hl|exact Hm].
Qed.

Lemma map_throwing_present_inv {A} (data : list (option A)) (fresh : list A)
    (i : nat) (e : exn) :
  map_throwing
    (fun (item : option A) (_ : nat) =>
       match item with Some embedding => Ok embedding | None => Throw e end)
    i data = Ok fresh ->
  data = map Some fresh.
Proof.
  revert i fresh. induction data as [|[x|] data IH]; intros i fresh; cbn [map_throwing].
  - now intros [= <-].
  - destruct (map_throwing _ (S i) data) as [xs|e'] eqn:Hd; [|discriminate].
    intros [= <-]. cbn [map]. f_equal. now apply (IH (S i)).
  - discriminate.
Qed.

Lemma getBatchEmbeddingsFromAPI_ok (E : Env) (texts : list string) (fresh : list vector)
    (w w' : World) :
  RedisEngine.getBatchEmbeddingsFromAPI E texts w = (Ok fresh, w') ->
  provider E (Batch texts) = Reply (map Some fresh)
  /\ w' = log (EmbeddingsCreate (Batch texts)) w.
Proof.
  unfold RedisEngine.getBatchEmbeddingsFromAPI, try_catch, bind, embeddings_create, lift.
  destruct (provider E (Batch texts)) as [data|n m]; [|discriminate].
  destruct (map_throwing _ 0 data) as [embeddings|e] eqn:Hd; [|discriminate].
  intros [= <- <-]. split; [|reflexivity].
  f_equal. now apply map_throwing_present_inv in Hd.
Qed.

Lemma lookups_not_connected (E : Env) (text : string) (texts : list string) (w : World) :
  isConnected w = false ->
  fst (Promise_all (map (RedisEngine.getCachedEmbedding E) (text :: texts)) w)
  = Throw RedisNotConnected.
Proof.
  intros Hc. cbn [map Promise_all].
  assert (H : RedisEngine.getCachedEmbedding E text w = (Throw RedisNotConnected, w))
    by (unfold RedisEngine.getCachedEmbedding, bind, getRedisClient; now rewrite Hc).
  rewrite H. now destruct (Promise_all _ w) as [os w2].
Qed.

(** The batch operation once the cache has answered. *)
Lemma getEmbeddingsBatch_after_lookups (E : Env) (texts : list string) (w : World)
    (cached : list (option vector)) (w1 : World) :
  Promise_all (map (RedisEngine.getCachedEmbedding E) texts) w = (Ok cached, w1) ->
  length cached = length texts ->
  RedisEngine.getEmbeddingsBatch E texts true w
  = match missed_texts texts cached with
    | [] => (Ok cached, w1)
    | _ :: _ =>
        match RedisEngine.getBatchEmbeddingsFromAPI E (missed_texts texts cached) w1 with
        | (Ok fresh, w2) =>
            match Promise_all
                    (imap (fun i text => RedisEngine.setCachedEmbedding E text (fresh !! i))
                          (missed_texts texts cached)) w2 with
            | (Ok _, w3) => (Ok (splice cached fresh), w3)
            | (Throw e, w3) => (Throw e, w3)
            end
        | (Throw e, w2) => (Throw e, w2)
        end
    end.
Proof.
  intros H1 Hl. unfold RedisEngine.getEmbeddingsBatch. cbn [negb]. unfold bind at 1.
  rewrite H1, (collect_uncached_spec texts cached Hl).
  destruct (missed_texts texts cached) as [|t missed]; [reflexivity|].
  change (0 <? length (t :: missed))%nat with true. cbv iota. unfold bind, ret.
  destruct (RedisEngine.getBatchEmbeddingsFromAPI E (t :: missed) w1)
    as [[fresh|e] w2]; [|reflexivity].
  destruct (Promise_all _ w2) as [[units|e] w3]; [|reflexivity].
  now rewrite fill_fresh_spec.
Qed.

Lemma reconciled_shape (E : Env) (texts : list string) (w : World)
    (fresh : list vector) (w' : World) :
  length (cache_view E texts w) = length texts ->
  provider_calls (trace w')
  = provider_calls (trace w)
    ++ match missed_texts texts (cache_view E texts w) with
       | [] => []
       | _ :: _ => [Batch (missed_texts texts (cache_view E texts w))]
       end ->
  (missed_texts texts (cache_view E texts w) <> [] ->
   provider E (Batch (missed_texts texts (cache_view E texts w))) = Reply (map Some fresh)) ->
  redis_commands (trace w')
  = redis_commands (trace w)
    ++ map (fun t => RedisGet (RedisEngine.generateEmbeddingCacheKey E t)) texts
    ++ zip_with
         (fun t f => RedisSetEx (RedisEngine.generateEmbeddingCacheKey E t)
                       RedisEngine.EMBEDDING_CACHE_DURATION (JSON_stringify E f))
         (missed_texts texts (cache_view E texts w)) fresh ->
  reconciled E texts w fresh (splice (cache_view E texts w) fresh) w'.
Proof.
  intros Hl Hp Ha Hr. split; try assumption.
  - now rewrite splice_length.
  - reflexivity.
  - intros i v. apply splice_hit.
  - intros i Hi. now apply splice_miss.
Qed.

(** The batch operation on a client that is connected, or on no text. *)
Lemma getEmbeddingsBatch_run (E : Env) (texts : list string) (w : World) :
  isConnected w = true \/ texts = [] ->
  exists w1,
    RedisEngine.getEmbeddingsBatch E texts true w
    = match missed_texts texts (cache_view E texts w) with
      | [] => (Ok (cache_view E texts w), w1)
      | missed =>
          match RedisEngine.getBatchEmbeddingsFromAPI E missed w1 with
          | (Ok fresh, w2) =>
              match Promise_all
                      (imap (fun i text => RedisEngine.setCachedEmbedding E text (fresh !! i))
                            missed) w2 with
              | (Ok _, w3) => (Ok (splice (cache_view E texts w) fresh), w3)
              | (Throw e, w3) => (Throw e, w3)
              end
          | (Throw e, w2) => (Throw e, w2)
          end
      end
    /\ length (cache_view E texts w) = length texts
    /\ (missed_texts texts (cache_view E texts w) <> [] -> isConnected w1 = true)
    /\ redis_commands (trace w1)
       = redis_commands (trace w)
         ++ map (fun t => RedisGet (RedisEngine.generateEmbeddingCacheKey E t)) texts
    /\ provider_calls (trace w1) = provider_calls (trace w).
Proof.
  intros [Hc| ->].
  - destruct (lookups_effect E texts w Hc) as (cached & w1 & H1 & Hc1 & Hl & Hr1 & Hp1).
    assert (Hview : cache_view E texts w = cached) by (unfold cache_view; now rewrite H1).
    rewrite Hview. exists w1.
    rewrite (getEmbeddingsBatch_after_lookups E texts w cached w1 H1 Hl).
    split; [now destruct (missed_texts texts cached)|]. auto.
  - exists w. cbn. rewrite app_nil_r. repeat split; congruence.
Qed.

(** C1. With caching enabled, whenever [getEmbeddingsBatch] returns
    it has reconciled the cache with one provider request: it read the
    cache once for every text, in order; when some text was missed it
    sent the provider exactly one request, which held the missed texts
    and nothing else, and none when nothing was missed; it wrote every
    fresh vector to the cache under the key of its text; and it returns,
    for every text in order, the cached vector where there was one and
    otherwise the fresh vector of that text.  And it does return, with a
    vector for every text, on a connected client whose provider answers
    the batch of the missed texts with one vector for each. *)
Theorem getEmbeddingsBatch_reconciles (E : Env) (texts : list string) (w : World) :
  (forall out w',
     RedisEngine.getEmbeddingsBatch E texts true w = (Ok out, w') ->
     exists fresh, reconciled E texts w fresh out w')
  /\ (forall fresh,
        isConnected w = true ->
        missed_texts texts (cache_view E texts w) = []
        \/ (provider E (Batch (missed_texts texts (cache_view E texts w)))
            = Reply (map Some fresh)
            /\ length fresh = length (missed_texts texts (cache_view E texts w))) ->
        exists out w',
          RedisEngine.getEmbeddingsBatch E texts true w = (Ok out, w')
          /\ reconciled E texts w fresh out w'
          /\ Forall is_Some out).
Proof.
  split.
  - intros out w' Hrun.
    assert (Hc : isConnected w = true \/ texts = []).
    { destruct (isConnected w) eqn:Hc; [now left|right].
      destruct texts as [|text texts]; [reflexivity|exfalso].
      pose proof (lookups_not_connected E text texts w Hc) as Hthrow.
      unfold RedisEngine.getEmbeddingsBatch in Hrun. cbn [negb] in Hrun.
      unfold bind at 1 in Hrun.
      destruct (Promise_all _ w) as [[cached|e] w1]; [discriminate Hthrow|discriminate Hrun]. }
    destruct (getEmbeddingsBatch_run E texts w Hc) as (w1 & Heq & Hl & Hc1 & Hr1 & Hp1).
    rewrite Heq in Hrun. clear Heq.
    destruct (missed_texts texts (cache_view E texts w)) as [|t missed] eqn:Hmissed.
    + injection Hrun as <- <-. exists [].
      pose proof (reconciled_shape E texts w [] w1 Hl) as Hrec.
      rewrite Hmissed, (splice_no_miss texts _ [] Hl Hmissed) in Hrec.
      apply Hrec; rewrite ?app_nil_r; try assumption. contradiction.
    + cbv beta iota zeta in Hrun.
      destruct (RedisEngine.getBatchEmbeddingsFromAPI E (t :: missed) w1)
        as [[fresh|e] w2] eqn:Hbatch; [|discriminate Hrun].
      apply getBatchEmbeddingsFromAPI_ok in Hbatch as [Hreply ->].
      destruct (writes_effect E (t :: missed) fresh
                  (log (EmbeddingsCreate (Batch (t :: missed))) w1)
                  (Hc1 ltac:(discriminate))) as (w3 & H3 & Hr3 & Hp3).
      rewrite H3 in Hrun. injection Hrun as <- <-. exists fresh.
      apply reconciled_shape; rewrite ?Hmissed; try assumption.
      * rewrite Hp3. cbn [trace log]. now rewrite provider_calls_app, Hp1.
      * now intros _.
      * rewrite Hr3. cbn [trace log].
        rewrite redis_commands_app, Hr1. cbn. now rewrite app_nil_r, <- app_assoc.
  - intros fresh Hc Hprovider.
    destruct (getEmbeddingsBatch_run E texts w (or_introl Hc))
      as (w1 & Heq & Hl & Hc1 & Hr1 & Hp1).
    rewrite Heq. clear Heq.
    assert (Hall : length fresh = length (missed_texts texts (cache_view E texts w)) ->
                   Forall is_Some (splice (cache_view E texts w) fresh))
      by apply (splice_all_present texts _ fresh Hl).
    destruct (missed_texts texts (cache_view E texts w)) as [|t missed] eqn:Hmissed.
    + exists (cache_view E texts w), w1. split; [reflexivity|].
      pose proof (reconciled_shape E texts w fresh w1 Hl) as Hrec.
      pose proof (splice_all_present texts _ [] Hl) as Hsome.
      rewrite Hmissed in Hrec, Hsome.
      rewrite (splice_no_miss texts _ fresh Hl Hmissed) in Hrec.
      rewrite (splice_no_miss texts _ [] Hl Hmissed) in Hsome.
      split; [|now apply Hsome].
      apply Hrec; rewrite ?app_nil_r; try assumption. contradiction.
    + destruct Hprovider as [Hnone|[Hreply Hfresh]]; [discriminate|].
      cbv beta iota zeta.
      rewrite (getBatchEmbeddingsFromAPI_reply E _ fresh w1 Hreply).
      destruct (writes_effect E (t :: missed) fresh
                  (log (EmbeddingsCreate (Batch (t :: missed))) w1)
                  (Hc1 ltac:(discriminate))) as (w3 & H3 & Hr3 & Hp3).
      rewrite H3. exists (splice (cache_view E texts w) fresh), w3.
      split; [reflexivity|]. split; [|now apply Hall].
      apply reconciled_shape; rewrite ?Hmissed; try assumption.
      * rewrite Hp3. cbn [trace log]. now rewrite provider_calls_app, Hp1.
      * now intros _.
      * rewrite Hr3. cbn [trace log].
        rewrite redis_commands_app, Hr1. cbn. now rewrite app_nil_r, <- app_assoc.
Qed.

Lemma getEmbeddingsBatch_reconciles_witness :
  exists w',
    RedisEngine.getEmbeddingsBatch boots_env five_texts true three_cached
    = (Ok [Some [1%float; 0%float]; Some [0%float; 1%float]; Some [1%float; 0%float];
           Some [0%float; 1%float]; Some [1%float; 0%float]], w')
    /\ provider_calls (trace w') = [Batch ["bravo"; "delta"]].
Proof.
  destruct (getEmbeddingsBatch_reconciles boots_env five_texts three_cached)
    as [_ Hreturns].
  destruct (Hreturns [[0%float; 1%float]; [0%float; 1%float]] eq_refl)
    as (out & w' & Hrun & Hrec & _).
  - right. split; reflexivity.
  - exists w'. split.
    + rewrite Hrun. f_equal. f_equal. exact (reconciled_merge _ _ _ _ _ _ Hrec).
    + exact (reconciled_request _ _ _ _ _ _ Hrec).
Defined.

(** * Further properties of the code *)

(** ** Symmetry of the similarity *)

Module Binary64Mul.

Lemma SFmul_comm (x y : spec_float) : SF64mul x y = SF64mul y x.
Proof.
  destruct x as [sx|sx| |sx mx ex], y as [sy|sy| |sy my ey]; unfold SF64mul; cbn [SFmul];
    rewrite ?(xorb_comm sx sy); try reflexivity.
  now rewrite (Pos.mul_comm mx my), (Z.add_comm ex ey).
Qed.

Lemma mul_comm (x y : number) : (x * y)%float = (y * x)%float.
Proof. apply Prim2SF_inj. now rewrite !mul_spec, SFmul_comm. Qed.

End Binary64Mul.

Lemma dot_product_comm (a b : vector) : dot_product a b = dot_product b a.
Proof.
  unfold dot_product. generalize 0%float as acc. revert b.
  induction a as [|x a IH]; intros [|y b] acc; try reflexivity.
  cbn [combine fold_left fst snd]. now rewrite IH, (Binary64Mul.mul_comm x y).
Qed.

(** X1. The similarity is symmetric, bit for bit, and so is its
    failure: [cosineSimilarity a b] and [cosineSimilarity b a] are the
    same outcome. *)
Theorem cosineSimilarity_symmetric (a b : vector) :
  cosineSimilarity a b = cosineSimilarity b a.
Proof.
  rewrite !cosineSimilarity_eq, (Nat.eqb_sym (length a) (length b)).
  destruct (length b =? length a)%nat; [|reflexivity].
  now rewrite (dot_product_comm a b), (Binary64Mul.mul_comm (norm a) (norm b)).
Qed.

Lemma silent_ret {A} (a : A) : redis_silent (ret a).
Proof. now intros w. Qed.

Lemma silent_throw {A} (e : exn) : redis_silent (@throw A e).
Proof. now intros w. Qed.

Lemma silent_lift {A} (o : outcome A) : redis_silent (lift o).
Proof. now intros w. Qed.

Lemma silent_console_error message error : redis_silent (console_error message error).
Proof.
  intros w. unfold console_error. cbn [snd]. repeat split. channels.
Qed.

Lemma silent_embeddings_create E input : redis_silent (embeddings_create E input).
Proof.
  intros w. unfold embeddings_create.
  destruct (provider E input); cbn [snd]; repeat split; channels.
Qed.

Lemma silent_bind {A B} (m : M A) (k : A -> M B) :
  redis_silent m -> (forall a, redis_silent (k a)) -> redis_silent (bind m k).
Proof.
  intros Hm Hk w. unfold bind. specialize (Hm w).
  destruct (m w) as [[a|e] w1]; cbn [snd] in *; [|exact Hm].
  destruct Hm as (H1 & H2 & H3 & H4). destruct (Hk a w1) as (K1 & K2 & K3 & K4).
  repeat split; congruence.
Qed.

Lemma silent_try_catch {A} (m : M A) (handler : exn -> M A) :
  redis_silent m -> (forall e, redis_silent (handler e)) ->
  redis_silent (try_catch m handler).
Proof.
  intros Hm Hh w. unfold try_catch. specialize (Hm w).
  destruct (m w) as [[a|e] w1]; cbn [snd] in *; [exact Hm|].
  destruct Hm as (H1 & H2 & H3 & H4). destruct (Hh e w1) as (K1 & K2 & K3 & K4).
  repeat split; congruence.
Qed.

Ltac silent :=
  repeat first
    [ apply silent_bind; [|intros ?]
    | apply silent_try_catch; [|intros ?]
    | apply silent_ret | apply silent_throw | apply silent_lift
    | apply silent_console_error | apply silent_embeddings_create
    | match goal with |- redis_silent (match ?x with _ => _ end) => destruct x end
    | match goal with |- redis_silent (if ?x then _ else _) => destruct x end ].

Lemma silent_getEmbedding E text : redis_silent (RedisEngine.getEmbedding E text false).
Proof. unfold RedisEngine.getEmbedding. silent. Qed.

Lemma silent_getBatchEmbeddingsFromAPI E texts :
  redis_silent (RedisEngine.getBatchEmbeddingsFromAPI E texts).
Proof. unfold RedisEngine.getBatchEmbeddingsFromAPI. silent. Qed.

Lemma silent_getEmbeddingsBatch E texts :
  redis_silent (RedisEngine.getEmbeddingsBatch E texts false).
Proof.
  unfold RedisEngine.getEmbeddingsBatch. cbn [negb].
  apply silent_bind; [apply silent_getBatchEmbeddingsFromAPI|]. intros ?. silent.
Qed.

Lemma silent_quickRank (E : Env) (query : string) (results : list SearchResult) :
  redis_silent (RedisEngine.quickRank E query results).
Proof.
  unfold RedisEngine.quickRank, RedisEngine.rankSearchResults.
  cbn [RedisEngine.useCache default from_option]. unfold id.
  destruct (length results =? 0)%nat; [apply silent_ret|].
  apply silent_try_catch; [|intros e; silent].
  unfold RedisEngine.rank_steps.
  apply silent_bind; [apply silent_getEmbedding|]. intros queryEmbedding.
  apply silent_bind; [apply silent_lift|]. intros resultTexts.
  apply silent_bind; [apply silent_getEmbeddingsBatch|]. intros resultEmbeddings.
  silent.
Qed.

(** X2. Ranking without the cache leaves Redis alone: [quickRank]
    issues no Redis command and leaves the store, the fault schedule and
    the connection flag as they were, whatever the outcome and whether or
    not the client is connected. *)
Theorem quickRank_leaves_redis_alone (E : Env) (query : string)
    (results : list SearchResult) (w : World) :
  let w' := snd (RedisEngine.quickRank E query results w) in
  isConnected w' = isConnected w
  /\ store w' = store w
  /\ faults w' = faults w
  /\ redis_commands (trace w') = redis_commands (trace w).
Proof. apply silent_quickRank. Qed.

Lemma map_throwing_Forall2 {A B} (f : A -> outcome B) (l : list A) (l' : list B) (i : nat) :
  Forall2 (fun x y => f x = Ok y) l l' ->
  map_throwing (fun x _ => f x) i l = Ok l'.
Proof.
  intros H. revert i. induction H as [|x y l l' Hxy _ IH]; intros i; cbn [map_throwing].
  - reflexivity.
  - now rewrite Hxy, IH.
Qed.


Lemma score_too_few (queryEmbedding : vector) (results : list SearchResult)
    (pre embeddings : list vector) :
  length embeddings < length results ->
  Forall (fun e => length e = length queryEmbedding) embeddings ->
  map_throwing (RedisEngine.score queryEmbedding (map Some (pre ++ embeddings)))
    (length pre) results
  = Throw (TypeError "Cannot read properties of undefined (reading 'length')").
Proof.
  revert pre embeddings.
  induction results as [|r results IH]; intros pre [|e embeddings] Hl Hd;
    cbn [length] in Hl; try lia.
  - cbn [map_throwing]. unfold RedisEngine.score.
    change (map Some (pre ++ [])) with (Some <$> (pre ++ [])).
    rewrite list_lookup_fmap, app_nil_r, lookup_ge_None_2 by lia. reflexivity.
  - apply Forall_cons in Hd as [He Hd].
    cbn [map_throwing]. unfold RedisEngine.score at 1.
    change (map Some (pre ++ e :: embeddings)) with (Some <$> (pre ++ e :: embeddings)).
    rewrite list_lookup_fmap, list_lookup_middle by reflexivity.
    cbn [fmap option_fmap option_map].
    rewrite cosineSimilarity_eq, He, Nat.eqb_refl.
    replace (pre ++ e :: embeddings) with ((pre ++ [e]) ++ embeddings)
      by now rewrite <- app_assoc.
    replace (S (length pre)) with (length (pre ++ [e])) by (rewrite length_app; cbn; lia).
    rewrite IH by (assumption || lia). reflexivity.
Qed.

(** The run of [quickRank] up to the scores, when the provider answers
    both requests. *)
Lemma quickRank_run (E : Env) (query : string) (results : list SearchResult)
    (texts : list string) (queryEmbedding : vector) (rest : list (option vector))
    (embeddings : list vector) (w : World) :
  String.length (trim query) <> 0 ->
  provider E (Single query) = Reply (Some queryEmbedding :: rest) ->
  Forall2 (fun r t => extractTextContent r = Ok t) results texts ->
  provider E (Batch texts) = Reply (map Some embeddings) ->
  RedisEngine.rank_steps E query results false w
  = (match map_throwing (RedisEngine.score queryEmbedding (map Some embeddings)) 0 results with
     | Ok ranked => Ok (Array_sort RedisEngine.bySimilarity ranked)
     | Throw e => Throw e
     end,
     log (EmbeddingsCreate (Batch texts)) (log (EmbeddingsCreate (Single query)) w)).
Proof.
  intros Hq Hp1 Ht Hp2.
  unfold RedisEngine.rank_steps, RedisEngine.getEmbedding.
  assert (Hguard : String.eqb query "" || (String.length (trim query) =? 0)%nat = false).
  { apply orb_false_intro.
    - apply String.eqb_neq. intros ->. now apply Hq.
    - now apply Nat.eqb_neq. }
  rewrite Hguard. unfold bind, ret, try_catch, embeddings_create, lift.
  rewrite Hp1. cbn [head].
  rewrite (map_throwing_Forall2 extractTextContent results texts 0 Ht).
  unfold RedisEngine.getEmbeddingsBatch, RedisEngine.getBatchEmbeddingsFromAPI.
  cbn [negb]. unfold bind, ret, try_catch, embeddings_create, lift.
  rewrite Hp2, map_throwing_all_present.
  now destruct (map_throwing _ 0 results).
Qed.


(** X4. Without the cache, a provider that answers the batch with
    fewer vectors than there are results makes [quickRank] throw the
    runtime's [TypeError] on [undefined.length]: the count of vectors is
    not checked, and no shorter list is returned. *)
Theorem quickRank_too_few_vectors (E : Env) (query : string) (results : list SearchResult)
    (texts : list string) (queryEmbedding : vector) (rest : list (option vector))
    (embeddings : list vector) (w : World) :
  String.length (trim query) <> 0 ->
  provider E (Single query) = Reply (Some queryEmbedding :: rest) ->
  Forall2 (fun r t => extractTextContent r = Ok t) results texts ->
  provider E (Batch texts) = Reply (map Some embeddings) ->
  length embeddings < length results ->
  Forall (fun e => length e = length queryEmbedding) embeddings ->
  fst (RedisEngine.quickRank E query results w)
  = Throw (TypeError "Cannot read properties of undefined (reading 'length')").
Proof.
  intros Hq Hp1 Ht Hp2 Hl Hd.
  unfold RedisEngine.quickRank, RedisEngine.rankSearchResults.
  destruct results as [|r results]; [cbn in Hl; lia|]. cbn [length Nat.eqb].
  cbn [RedisEngine.useCache default from_option]. unfold id, try_catch.
  rewrite (quickRank_run E query (r :: results) texts queryEmbedding rest embeddings w
             Hq Hp1 Ht Hp2).
  pose proof (score_too_few queryEmbedding (r :: results) [] embeddings Hl Hd) as Hs.
  cbn [app length] in Hs. rewrite Hs.
  reflexivity.
Qed.

Lemma StronglySorted_app_between {A} (R : A -> A -> Prop) (l1 l2 : list A) :
  StronglySorted R (l1 ++ l2) -> forall x y, x ∈ l1 -> y ∈ l2 -> R x y.
Proof.
  induction l1 as [|a l1 IH]; intros Hs x y Hx Hy.
  - now apply elem_of_nil in Hx.
  - cbn [app] in Hs. apply StronglySorted_inv in Hs as [Hs Ha].
    apply elem_of_cons in Hx as [->|Hx].
    + rewrite Forall_forall in Ha. apply Ha. apply elem_of_app. now right.
    + now apply IH.
Qed.

(** X5. For a natural number [topN], [getTopResults] returns the
    first [topN] results of the ranking it awaited, with the world that
    ranking left, or all of them when there are fewer; when no similarity is
    NaN, none of the results it leaves out has a greater similarity than
    one it returns. *)
Theorem getTopResults_best (E : Env) (query : string) (results : list SearchResult)
    (topN : nat) (useCache : bool) (w : World) (out : list RankedResult) (w' : World) :
  RedisEngine.getTopResults E query results topN useCache w = (Ok out, w') ->
  exists ranked,
    RedisEngine.rankSearchResults E query results
      {| RedisEngine.useCache := Some useCache |} w = (Ok ranked, w')
    /\ out = take topN ranked
    /\ length out = Nat.min topN (length results)
    /\ (no_NaN_similarity ranked ->
        forall kept left_out,
          kept ∈ out -> left_out ∈ drop topN ranked ->
          (similarity left_out <=? similarity kept)%float = true).
Proof.
  unfold RedisEngine.getTopResults, bind, ret.
  destruct (RedisEngine.rankSearchResults E query results _ w) as [[ranked|e] w1] eqn:Hr;
    [|discriminate].
  intros [= <- <-]. exists ranked. split; [reflexivity|]. split; [reflexivity|].
  destruct (redis_rank_ok _ _ _ _ _ _ _ Hr) as (scored_list & Hb & ->).
  destruct (ranked_list_complete results scored_list Hb) as (Hlen & _ & Hsorted).
  split.
  - rewrite length_take. unfold RedisEngine.bySimilarity. rewrite Hlen. reflexivity.
  - intros Hn kept left_out Hk Hl. specialize (Hsorted Hn).
    unfold sorted_by_similarity in Hsorted.
    rewrite <- (take_drop topN (Array_sort _ scored_list)) in Hsorted.
    exact (StronglySorted_app_between _ _ _ Hsorted kept left_out Hk Hl).
Qed.

(** ** The cache of single embeddings *)

Lemma setCachedEmbedding_no_faults (E : Env) (text : string) (v : vector) (w : World) :
  isConnected w = true -> faults w = [] ->
  exists w',
    RedisEngine.setCachedEmbedding E text (Some v) w = (Ok tt, w')
    /\ isConnected w' = true /\ faults w' = []
    /\ store w' = <[RedisEngine.generateEmbeddingCacheKey E text := JSON_stringify E v]> (store w)
    /\ provider_calls (trace w') = provider_calls (trace w).
Proof.
  intros Hc Hf. unfold RedisEngine.setCachedEmbedding, bind.
  rewrite (getRedisClient_connected w Hc).
  unfold try_catch, redis_setEx, next_fault, log; cbn [faults]. rewrite Hf.
  eexists. split; [reflexivity|]. cbn. repeat split; try assumption. channels.
Qed.

Lemma getCachedEmbedding_read (E : Env) (text : string) (w : World) :
  isConnected w = true -> faults w = [] ->
  exists w',
    RedisEngine.getCachedEmbedding E text w
    = (Ok (read_back E (store w !! RedisEngine.generateEmbeddingCacheKey E text)), w')
    /\ isConnected w' = true /\ faults w' = [] /\ store w' = store w
    /\ provider_calls (trace w') = provider_calls (trace w).
Proof.
  intros Hc Hf.
  destruct (getCachedEmbedding_no_faults E text w Hc Hf) as (w' & H & Hc' & Hf' & Hs').
  destruct (getCachedEmbedding_effect E text w Hc) as (c & w'' & H' & _ & _ & Hp).
  rewrite H in H'. injection H' as _ <-.
  exists w'. auto.
Qed.

Lemma not_blank_guard (text : string) :
  String.length (trim text) <> 0 ->
  String.eqb text "" || (String.length (trim text) =? 0)%nat = false.
Proof.
  intros Hq. apply orb_false_intro.
  - apply String.eqb_neq. intros ->. now apply Hq.
  - now apply Nat.eqb_neq.
Qed.

(** A text whose embedding is in the cache is answered from it. *)
Lemma getEmbedding_hit (E : Env) (text : string) (v : vector) (w : World) :
  String.length (trim text) <> 0 ->
  isConnected w = true -> faults w = [] ->
  read_back E (store w !! RedisEngine.generateEmbeddingCacheKey E text) = Some v ->
  exists w',
    RedisEngine.getEmbedding E text true w = (Ok v, w')
    /\ store w' = store w
    /\ provider_calls (trace w') = provider_calls (trace w).
Proof.
  intros Hq Hc Hf Hv. unfold RedisEngine.getEmbedding.
  rewrite (not_blank_guard text Hq). unfold bind.
  destruct (getCachedEmbedding_read E text w Hc Hf) as (w' & H & _ & _ & Hs & Hp).
  rewrite H, Hv. now exists w'.
Qed.

Lemma getEmbedding_miss (E : Env) (text : string) (v : vector)
    (rest : list (option vector)) (w : World) :
  String.length (trim text) <> 0 ->
  isConnected w = true -> faults w = [] ->
  read_back E (store w !! RedisEngine.generateEmbeddingCacheKey E text) = None ->
  provider E (Single text) = Reply (Some v :: rest) ->
  exists w1,
    RedisEngine.getEmbedding E text true w = (Ok v, w1)
    /\ provider_calls (trace w1) = provider_calls (trace w) ++ [Single text]
    /\ store w1 = <[RedisEngine.generateEmbeddingCacheKey E text := JSON_stringify E v]> (store w)
    /\ isConnected w1 = true /\ faults w1 = [].
Proof.
  intros Hq Hc Hf Hmiss Hp.
  unfold RedisEngine.getEmbedding.
  rewrite (not_blank_guard text Hq). unfold bind at 1.
  destruct (getCachedEmbedding_read E text w Hc Hf) as (w0 & H0 & Hc0 & Hf0 & Hs0 & Hp0).
  rewrite H0, Hmiss. unfold try_catch, bind, embeddings_create. rewrite Hp. cbn [head].
  destruct (setCachedEmbedding_no_faults E text v (log (EmbeddingsCreate (Single text)) w0)
              Hc0 Hf0) as (w1 & H1 & Hc1 & Hf1 & Hs1 & Hp1).
  rewrite H1. unfold ret. exists w1. split; [reflexivity|].
  split; [|split; [|auto]].
  - rewrite Hp1. cbn [trace log]. now rewrite provider_calls_app, Hp0.
  - rewrite Hs1. cbn [store log]. now rewrite Hs0.
Qed.

(** X6. On a connected client whose commands are accepted, a text that
    is not in the cache is embedded by one request to the provider, of
    the text as typed, and the vector is stored under the key of the
    text; when the stored string reads back as the vector, embedding the
    same text again answers the same vector without any request to the
    provider. *)
Theorem getEmbedding_caches (E : Env) (text : string) (v : vector)
    (rest : list (option vector)) (w : World) :
  String.length (trim text) <> 0 ->
  isConnected w = true -> faults w = [] ->
  read_back E (store w !! RedisEngine.generateEmbeddingCacheKey E text) = None ->
  provider E (Single text) = Reply (Some v :: rest) ->
  read_back E (Some (JSON_stringify E v)) = Some v ->
  exists w1 w2,
    RedisEngine.getEmbedding E text true w = (Ok v, w1)
    /\ provider_calls (trace w1) = provider_calls (trace w) ++ [Single text]
    /\ store w1 = <[RedisEngine.generateEmbeddingCacheKey E text := JSON_stringify E v]> (store w)
    /\ RedisEngine.getEmbedding E text true w1 = (Ok v, w2)
    /\ provider_calls (trace w2) = provider_calls (trace w1)
    /\ store w2 = store w1.
Proof.
  intros Hq Hc Hf Hmiss Hp Hround.
  destruct (getEmbedding_miss E text v rest w Hq Hc Hf Hmiss Hp)
    as (w1 & H1 & Hp1 & Hs1 & Hc1 & Hf1).
  destruct (getEmbedding_hit E text v w1 Hq Hc1 Hf1) as (w2 & H2 & Hs2 & Hp2).
  { now rewrite Hs1, lookup_insert_eq. }
  exists w1, w2. auto 10.
Qed.

Lemma getCachedEmbedding_throws (E : Env) (text : string) (w : World) (e : exn) (w' : World) :
  RedisEngine.getCachedEmbedding E text w = (Throw e, w') ->
  e = RedisNotConnected /\ w' = w /\ isConnected w = false.
Proof.
  destruct (isConnected w) eqn:Hc.
  - destruct (getCachedEmbedding_effect E text w Hc) as (c & w0 & H & _). rewrite H.
    discriminate.
  - unfold RedisEngine.getCachedEmbedding, bind, getRedisClient. rewrite Hc.
    now intros [= <- <-].
Qed.

Lemma setCachedEmbedding_throws (E : Env) (text : string) (embedding : option vector)
    (w : World) (e : exn) (w' : World) :
  RedisEngine.setCachedEmbedding E text embedding w = (Throw e, w') ->
  e = RedisNotConnected /\ w' = w /\ isConnected w = false.
Proof.
  destruct (isConnected w) eqn:Hc.
  - destruct (setCachedEmbedding_effect E text embedding w Hc) as (w0 & H & _). rewrite H.
    discriminate.
  - unfold RedisEngine.setCachedEmbedding, bind, getRedisClient. rewrite Hc.
    now intros [= <- <-].
Qed.

Lemma getCachedEmbedding_store (E : Env) (text : string) (w : World) :
  store (snd (RedisEngine.getCachedEmbedding E text w)) = store w
  /\ isConnected (snd (RedisEngine.getCachedEmbedding E text w)) = isConnected w.
Proof.
  split; [|apply keeps_getCachedEmbedding].
  unfold RedisEngine.getCachedEmbedding, bind, getRedisClient.
  destruct (isConnected w); [|reflexivity].
  unfold try_catch, bind, redis_get, next_fault, log, console_error, ret, throw;
    cbn [faults].
  destruct (faults w) as [|[[n m]|] rest]; cbn [store];
    try (destruct (store w !! _) as [c|];
         [destruct (String.eqb c ""); [|destruct (JSON_parse E c)]|]);
    reflexivity.
Qed.

Lemma getEmbedding_throw_cases (E : Env) (text : string) (useCache : bool) (w : World)
    (e : exn) (w' : World) :
  RedisEngine.getEmbedding E text useCache w = (Throw e, w') ->
  store w' = store w
  /\ ((e = InvalidInputError /\ String.length (trim text) = 0)
      \/ (e = RedisNotConnected /\ useCache = true /\ isConnected w = false)
      \/ (e = Error "No embedding returned from OpenAI API"
          /\ exists data, provider E (Single text) = Reply data
                          /\ (head data = None \/ head data = Some None))
      \/ (exists n m, provider E (Single text) = Failure n m
                      /\ e = Rejected FromOpenAI n m)).
Proof.
  unfold RedisEngine.getEmbedding.
  destruct (String.eqb text "" || (String.length (trim text) =? 0)%nat) eqn:Hguard.
  { intros [= <- <-]. split; [reflexivity|]. left. split; [reflexivity|].
    apply orb_prop in Hguard as [Hg|Hg].
    - apply String.eqb_eq in Hg as ->. reflexivity.
    - now apply Nat.eqb_eq. }
  unfold bind at 1.
  destruct ((if useCache then RedisEngine.getCachedEmbedding E text else ret None) w)
    as [[cached|e0] w0] eqn:Hcached.
  2: { intros [= <- <-]. destruct useCache; [|discriminate Hcached].
       apply getCachedEmbedding_throws in Hcached as (-> & -> & Hc).
       split; [reflexivity|]. right. left. auto. }
  assert (Hstore : store w0 = store w /\ isConnected w0 = isConnected w).
  { destruct useCache.
    - pose proof (getCachedEmbedding_store E text w) as Hs. now rewrite Hcached in Hs.
    - now injection Hcached as _ <-. }
  destruct Hstore as [Hs0 Hc0].
  destruct cached as [v|]; [discriminate|].
  unfold try_catch, bind, embeddings_create, console_error, throw.
  destruct (provider E (Single text)) as [data|n m] eqn:Hp.
  2: { intros [= <- <-]. split; [exact Hs0|]. right. right. right. now exists n, m. }
  destruct (head data) as [[embedding|]|] eqn:Hhead.
  - destruct ((if useCache then RedisEngine.setCachedEmbedding E text (Some embedding)
               else ret tt) (log (EmbeddingsCreate (Single text)) w0))
      as [[[]|e1] w1] eqn:Hset; [discriminate|].
    intros [= <- <-]. destruct useCache; [|discriminate Hset].
    apply setCachedEmbedding_throws in Hset as (-> & -> & Hc).
    split; [exact Hs0|]. right. left. cbn in Hc. split; [reflexivity|]. split; congruence.
  - intros [= <- <-]. split; [exact Hs0|]. right. right. left.
    split; [reflexivity|]. exists data. auto.
  - intros [= <- <-]. split; [exact Hs0|]. right. right. left.
    split; [reflexivity|]. exists data. auto.
Qed.

(** X7. The errors of [getEmbedding], each with its cause: the
    empty-text error for a blank text, the error of [getRedisClient] when
    caching is on and the client is not connected, the missing-embedding
    error when the first item of the answer has no embedding, and the
    rejection of the provider; and whenever [getEmbedding] throws, it has
    written nothing to the cache. *)
Theorem getEmbedding_errors (E : Env) (text : string) (useCache : bool) (w : World)
    (e : exn) (w' : World) :
  RedisEngine.getEmbedding E text useCache w = (Throw e, w') ->
  store w' = store w
  /\ ((e = InvalidInputError /\ String.length (trim text) = 0)
      \/ (e = RedisNotConnected /\ useCache = true /\ isConnected w = false)
      \/ (e = Error "No embedding returned from OpenAI API"
          /\ exists data, provider E (Single text) = Reply data
                          /\ (head data = None \/ head data = Some None))
      \/ (exists n m, provider E (Single text) = Failure n m
                      /\ e = Rejected FromOpenAI n m)).
Proof. apply getEmbedding_throw_cases. Qed.

(** ** What the ranking operation writes *)

Lemma frame_same {A} (K : string -> Prop) (m : M A) :
  (forall w, store (snd (m w)) = store w) -> cache_frame K m.
Proof. intros H w k. now rewrite H. Qed.

Lemma frame_silent {A} (K : string -> Prop) (m : M A) : redis_silent m -> cache_frame K m.
Proof. intros H. apply frame_same. intros w. apply H. Qed.

Lemma frame_bind {A B} (K : string -> Prop) (m : M A) (k : A -> M B) :
  cache_frame K m -> (forall a, cache_frame K (k a)) -> cache_frame K (bind m k).
Proof.
  intros Hm Hk w key. unfold bind. specialize (Hm w key).
  destruct (m w) as [[a|e] w1]; cbn [snd] in *; [|exact Hm].
  destruct Hm as [H1 H2]. destruct (Hk a w1 key) as [K1 K2].
  split; [intros Hn; rewrite K1, H1 by assumption; reflexivity | auto].
Qed.

Lemma frame_try_catch {A} (K : string -> Prop) (m : M A) (handler : exn -> M A) :
  cache_frame K m -> (forall e, cache_frame K (handler e)) ->
  cache_frame K (try_catch m handler).
Proof.
  intros Hm Hh w key. unfold try_catch. specialize (Hm w key).
  destruct (m w) as [[a|e] w1]; cbn [snd] in *; [exact Hm|].
  destruct Hm as [H1 H2]. destruct (Hh e w1 key) as [K1 K2].
  split; [intros Hn; rewrite K1, H1 by assumption; reflexivity | auto].
Qed.

Lemma frame_Promise_all {A} (K : string -> Prop) (ps : list (M A)) :
  Forall (cache_frame K) ps -> cache_frame K (Promise_all ps).
Proof.
  induction 1 as [|p ps Hp _ IH]; intros w key; [now split|].
  cbn [Promise_all]. specialize (Hp w key).
  destruct (p w) as [o w1]. specialize (IH w1 key).
  destruct (Promise_all ps w1) as [os w2]. cbn [snd] in *.
  destruct Hp as [H1 H2], IH as [K1 K2].
  split; [intros Hn; rewrite K1, H1 by assumption; reflexivity | auto].
Qed.

Lemma frame_redis_setEx (K : string -> Prop) key seconds value :
  K key -> cache_frame K (redis_setEx key seconds value).
Proof.
  intros HK w k. unfold redis_setEx, next_fault, log; cbn [faults].
  destruct (faults w) as [|[[n m]|] rest]; cbn [snd store]; try (now split).
  - split.
    + intros Hn. apply lookup_insert_ne. congruence.
    + intros Hs. destruct (decide (key = k)) as [->|Hne];
        [rewrite lookup_insert_eq; eauto | now rewrite lookup_insert_ne].
  - split.
    + intros Hn. apply lookup_insert_ne. congruence.
    + intros Hs. destruct (decide (key = k)) as [->|Hne];
        [rewrite lookup_insert_eq; eauto | now rewrite lookup_insert_ne].
Qed.

Lemma frame_getCachedEmbedding (K : string -> Prop) E text :
  cache_frame K (RedisEngine.getCachedEmbedding E text).
Proof. apply frame_same. intros w. apply getCachedEmbedding_store. Qed.

Lemma frame_setCachedEmbedding (K : string -> Prop) E text embedding :
  K (RedisEngine.generateEmbeddingCacheKey E text) ->
  cache_frame K (RedisEngine.setCachedEmbedding E text embedding).
Proof.
  intros HK. unfold RedisEngine.setCachedEmbedding.
  apply frame_bind; [apply frame_same; intros w; unfold getRedisClient;
                     now destruct (isConnected w)|].
  intros _. apply frame_try_catch.
  - destruct embedding; [now apply frame_redis_setEx | now apply frame_same].
  - intros e. now apply frame_same.
Qed.

Lemma frame_getEmbedding (K : string -> Prop) E text useCache :
  K (RedisEngine.generateEmbeddingCacheKey E text) ->
  cache_frame K (RedisEngine.getEmbedding E text useCache).
Proof.
  intros HK. unfold RedisEngine.getEmbedding.
  destruct (_ || _); [now apply frame_same|].
  apply frame_bind.
  - destruct useCache; [apply frame_getCachedEmbedding | now apply frame_same].
  - intros [v|]; [now apply frame_same|].
    apply frame_try_catch.
    + apply frame_bind; [apply frame_silent, silent_embeddings_create|].
      intros data. destruct (head data) as [[embedding|]|]; try now apply frame_same.
      apply frame_bind; [|intros _; now apply frame_same].
      destruct useCache; [now apply frame_setCachedEmbedding | now apply frame_same].
    + intros e. apply frame_silent. silent.
Qed.

Lemma Promise_all_length {A} (ps : list (M A)) (w : World) (l : list A) (w' : World) :
  Promise_all ps w = (Ok l, w') -> length l = length ps.
Proof.
  revert w l w'. induction ps as [|p ps IH]; intros w l w'; cbn [Promise_all].
  - now intros [= <- _].
  - destruct (p w) as [o w1]. destruct (Promise_all ps w1) as [os w2] eqn:Hps.
    destruct o as [a|e]; [|discriminate]. destruct os as [l0|e]; [|discriminate].
    intros [= <- _]. cbn [length]. f_equal. now apply (IH w1 l0 w2).
Qed.

Lemma missed_texts_subset (texts : list string) (cached : list (option vector)) (t : string) :
  t ∈ missed_texts texts cached -> t ∈ texts.
Proof.
  revert cached. induction texts as [|t0 texts IH]; intros [|[v|] cached] Ht;
    cbn [missed_texts] in Ht; try (now apply elem_of_nil in Ht).
  - apply elem_of_cons. right. now apply (IH cached).
  - apply elem_of_cons in Ht as [->|Ht]; apply elem_of_cons; [now left|right].
    now apply (IH cached).
Qed.

Lemma frame_bind_post {A B} (K : string -> Prop) (P : A -> Prop) (m : M A) (k : A -> M B) :
  cache_frame K m -> (forall w a w', m w = (Ok a, w') -> P a) ->
  (forall a, P a -> cache_frame K (k a)) -> cache_frame K (bind m k).
Proof.
  intros Hm HP Hk w key. unfold bind. specialize (Hm w key). specialize (HP w).
  destruct (m w) as [[a|e] w1]; cbn [snd] in *; [|exact Hm].
  destruct Hm as [H1 H2]. destruct (Hk a (HP a w1 eq_refl) w1 key) as [K1 K2].
  split; [intros Hn; rewrite K1, H1 by assumption; reflexivity | auto].
Qed.

Lemma frame_getEmbeddingsBatch (K : string -> Prop) E texts useCache :
  (forall t, t ∈ texts -> K (RedisEngine.generateEmbeddingCacheKey E t)) ->
  cache_frame K (RedisEngine.getEmbeddingsBatch E texts useCache).
Proof.
  intros HK. destruct useCache; [|apply frame_silent, silent_getEmbeddingsBatch].
  unfold RedisEngine.getEmbeddingsBatch. cbn [negb].
  apply (frame_bind_post K (fun embeddings => length embeddings = length texts)).
  - apply frame_Promise_all, Forall_map, Forall_forall. intros t _.
    apply frame_getCachedEmbedding.
  - intros w a w' H1. apply Promise_all_length in H1. now rewrite length_map in H1.
  - intros embeddings Hl. rewrite (collect_uncached_spec texts embeddings Hl).
    destruct (0 <? _)%nat; [|now apply frame_same].
    apply frame_bind; [apply frame_silent, silent_getBatchEmbeddingsFromAPI|].
    intros fresh. apply frame_bind; [|intros _; now apply frame_same].
    apply frame_Promise_all, Forall_forall. intros p Hp.
    apply list_elem_of_lookup in Hp as [i Hi]. rewrite list_lookup_imap in Hi.
    destruct (missed_texts texts embeddings !! i) as [t|] eqn:Ht; [|discriminate].
    injection Hi as <-. apply frame_setCachedEmbedding, HK.
    apply (missed_texts_subset texts embeddings). apply list_elem_of_lookup. eauto.
Qed.

Lemma map_throwing_elem {A B} (f : A -> nat -> outcome B) (l : list A) (i : nat)
    (l' : list B) (y : B) :
  map_throwing f i l = Ok l' -> y ∈ l' -> exists x j, x ∈ l /\ f x j = Ok y.
Proof.
  revert i l'. induction l as [|x l IH]; intros i l'; cbn [map_throwing].
  - intros [= <-] Hy. now apply elem_of_nil in Hy.
  - destruct (f x i) as [y0|e] eqn:Hx; [|discriminate].
    destruct (map_throwing f (S i) l) as [ys|e] eqn:Hl; [|discriminate].
    intros [= <-] Hy. apply elem_of_cons in Hy as [->|Hy].
    + exists x, i. split; [apply elem_of_cons; now left|exact Hx].
    + destruct (IH (S i) ys Hl Hy) as (x' & j & Hx' & Hf).
      exists x', j. split; [apply elem_of_cons; now right|exact Hf].
Qed.

(** X8. The ranking operation writes the cache only under the key of
    the query and the keys of the texts extracted from the results, and
    it removes no entry, whatever its outcome. *)
Theorem rankSearchResults_cache_frame (E : Env) (query : string)
    (results : list SearchResult) (options : RedisEngine.Options) (w : World) (k : string) :
  (k <> RedisEngine.generateEmbeddingCacheKey E query ->
   (forall r text, r ∈ results -> extractTextContent r = Ok text ->
                   k <> RedisEngine.generateEmbeddingCacheKey E text) ->
   store (snd (RedisEngine.rankSearchResults E query results options w)) !! k
   = store w !! k)
  /\ (is_Some (store w !! k) ->
      is_Some (store (snd (RedisEngine.rankSearchResults E query results options w)) !! k)).
Proof.
  set (K := fun k' : string =>
              k' = RedisEngine.generateEmbeddingCacheKey E query
              \/ exists r text, r ∈ results /\ extractTextContent r = Ok text
                                /\ k' = RedisEngine.generateEmbeddingCacheKey E text).
  assert (H : cache_frame K (RedisEngine.rankSearchResults E query results options)).
  { unfold RedisEngine.rankSearchResults.
    destruct (length results =? 0)%nat; [now apply frame_same|].
    apply frame_try_catch; [|intros e; apply frame_silent; silent].
    unfold RedisEngine.rank_steps.
    apply frame_bind; [apply frame_getEmbedding; now left|]. intros queryEmbedding.
    apply (frame_bind_post K (fun resultTexts =>
             map_throwing (fun r _ => extractTextContent r) 0 results = Ok resultTexts)).
    { now apply frame_same. }
    { intros w0 a w' H0. unfold lift in H0.
      destruct (map_throwing _ 0 results); now inversion H0. }
    intros resultTexts Ht.
    apply frame_bind.
    { apply frame_getEmbeddingsBatch. intros t Hin. right.
      destruct (map_throwing_elem _ _ _ _ t Ht Hin) as (r & j & Hr & Hx). now exists r, t. }
    intros resultEmbeddings.
    apply frame_silent. silent. }
  destruct (H w k) as [H1 H2]. split; [|exact H2].
  intros Hq Ht. apply H1. intros [->|(r & text & Hr & Hx & ->)]; [now apply Hq|].
  now apply (Ht r text).
Qed.

(** ** The cache object of the in-memory engine *)




Lemma memory_getEmbeddingsBatch_calls (E : Env) (texts : list string) (w : World) :
  provider_calls (trace (snd (MemoryEngine.getEmbeddingsBatch E texts w)))
  = provider_calls (trace w) ++ [Batch texts].
Proof.
  unfold MemoryEngine.getEmbeddingsBatch, try_catch, bind, embeddings_create, lift,
    console_error, throw.
  destruct (provider E (Batch texts)) as [data|n m]; cbn [snd].
  - destruct (map_throwing _ 0 data); cbn [snd]; now channels.
  - now channels.
Qed.

Lemma memory_scoring_calls (E : Env) (queryEmbedding : vector)
    (results : list SearchResult) (w : World) :
  provider_calls (trace (snd
    ((let* resultTexts := lift (map_throwing (fun r _ => extractTextContent r) 0 results) in
      let* resultEmbeddings := MemoryEngine.getEmbeddingsBatch E resultTexts in
      let* rankedResults :=
        lift (map_throwing (MemoryEngine.score queryEmbedding resultEmbeddings) 0 results) in
      ret (Array_sort MemoryEngine.bySimilarity rankedResults)) w)))
  = provider_calls (trace w)
    ++ match map_throwing (fun r _ => extractTextContent r) 0 results with
       | Ok texts => [Batch texts]
       | Throw _ => []
       end.
Proof.
  unfold bind, lift, ret.
  destruct (map_throwing (fun r _ => extractTextContent r) 0 results) as [texts|e];
    [|now channels].
  pose proof (memory_getEmbeddingsBatch_calls E texts w) as Hb.
  destruct (MemoryEngine.getEmbeddingsBatch E texts w) as [[embeddings|e] w1];
    cbn [snd] in Hb |- *; [|exact Hb].
  now destruct (map_throwing (MemoryEngine.score queryEmbedding embeddings) 0 results).
Qed.

(** X10. With caching asked for and an entry for the query in the
    cache object, the in-memory engine sends no request for the query:
    the only request is the batch of the extracted texts, and not even
    that one when a result has no description source.  The cache object
    is unchanged. *)
Theorem memory_cache_hit (E : Env) (query : string) (results : list SearchResult)
    (cache : MemoryEngine.EmbeddingCache) (v : vector) (w : World) :
  results <> [] ->
  cache !! query = Some v ->
  let run := MemoryEngine.rankSearchResults E query results
               {| MemoryEngine.useCache := Some true; MemoryEngine.cache := Some cache |} w in
  snd (fst run) = cache
  /\ provider_calls (trace (snd run))
     = provider_calls (trace w)
       ++ match map_throwing (fun r _ => extractTextContent r) 0 results with
          | Ok texts => [Batch texts]
          | Throw _ => []
          end.
Proof.
  intros Hne Hc. cbv zeta. unfold MemoryEngine.rankSearchResults.
  destruct results as [|r results]; [congruence|]. cbn [length Nat.eqb default].
  unfold MemoryEngine.rank_steps. cbn [MemoryEngine.useCache MemoryEngine.cache default id].
  rewrite Hc.
  pose proof (memory_scoring_calls E v (r :: results) w) as Hs.
  match goal with |- context [bind ?m ?k ?w] => destruct (bind m k w) as [[ranked|e] w2] end;
    cbn [fst snd] in Hs |- *; (split; [reflexivity|]); [exact Hs | now channels].
Qed.

(** ** The life cycle of the connection *)

(** X11. [initRedis] connects at most once.  When it returns, the
    client is handed out and a second call does nothing, not even a
    [connect]; when the [connect] is rejected, the rejection is thrown
    as it is and the flag stays down, so that the client is still
    refused.  The store is not touched either way. *)
Theorem initRedis_lifecycle (w : World) :
  let '(o, w1) := initRedis w in
  store w1 = store w
  /\ match o with
     | Ok _ =>
         getRedisClient w1 = (Ok tt, w1) /\ initRedis w1 = (Ok tt, w1)
         /\ (isConnected w = true -> w1 = w)
     | Throw e =>
         isConnected w = false
         /\ getRedisClient w1 = (Throw RedisNotConnected, w1)
         /\ exists n m, e = Rejected FromRedis n m /\ head (faults w) = Some (Some (n, m))
     end.
Proof.
  unfold initRedis, getRedisClient, next_fault, log. cbn [faults].
  destruct (isConnected w) eqn:Hc.
  - split; [reflexivity|]. rewrite Hc. auto.
  - destruct (faults w) as [|[[n m]|] rest]; cbn; (split; [reflexivity|]).
    + repeat split; congruence.
    + repeat split. now exists n, m.
    + repeat split; congruence.
Qed.

(** X12. [closeRedis] quits at most once.  When it returns, the client
    is refused and a second call does nothing; when the [quit] is
    rejected, the flag stays up and the client is still handed out. *)
Theorem closeRedis_lifecycle (w : World) :
  let '(o, w1) := closeRedis w in
  store w1 = store w
  /\ match o with
     | Ok _ =>
         getRedisClient w1 = (Throw RedisNotConnected, w1) /\ closeRedis w1 = (Ok tt, w1)
         /\ (isConnected w = false -> w1 = w)
     | Throw e =>
         isConnected w = true
         /\ getRedisClient w1 = (Ok tt, w1)
         /\ exists n m, e = Rejected FromRedis n m /\ head (faults w) = Some (Some (n, m))
     end.
Proof.
  unfold closeRedis, getRedisClient, next_fault, log. cbn [faults].
  destruct (isConnected w) eqn:Hc.
  - destruct (faults w) as [|[[n m]|] rest]; cbn; rewrite ?Hc; (split; [reflexivity|]).
    + repeat split; congruence.
    + repeat split. now exists n, m.
    + repeat split; congruence.
  - split; [reflexivity|]. rewrite Hc. auto.
Qed.

(** X13. Without a connection the Redis-backed ranking of a non-empty
    list fails before anything is requested: the error of
    [getRedisClient] is thrown as it is, no provider request and no
    Redis command is issued and the store is as before.  This holds
    unless the caller switches the cache off. *)
Theorem rankSearchResults_needs_connection (E : Env) (query : string)
    (results : list SearchResult) (options : RedisEngine.Options) (w : World) :
  isConnected w = false ->
  results <> [] ->
  String.length (trim query) <> 0 ->
  RedisEngine.useCache options <> Some false ->
  exists w',
    RedisEngine.rankSearchResults E query results options w = (Throw RedisNotConnected, w')
    /\ provider_calls (trace w') = provider_calls (trace w)
    /\ redis_commands (trace w') = redis_commands (trace w)
    /\ store w' = store w /\ isConnected w' = false.
Proof.
  intros Hc Hne Hq Hu.
  assert (Hcache : default true (RedisEngine.useCache options) = true)
    by (destruct (RedisEngine.useCache options) as [[|]|]; [reflexivity|congruence|reflexivity]).
  unfold RedisEngine.rankSearchResults.
  destruct results as [|r results]; [congruence|]. cbn [length Nat.eqb].
  unfold RedisEngine.rank_steps. rewrite Hcache.
  unfold RedisEngine.getEmbedding. rewrite (not_blank_guard query Hq).
  unfold RedisEngine.getCachedEmbedding, getRedisClient, try_catch, bind, console_error, throw.
  rewrite Hc. eexists. split; [reflexivity|]. cbn [trace log store isConnected].
  repeat split; [now channels | now channels | exact Hc].
Qed.

(** ** A second run of the batch operation *)

Lemma setCachedEmbedding_written (E : Env) (text : string) (embedding : option vector)
    (w : World) :
  isConnected w = true -> faults w = [] ->
  exists w',
    RedisEngine.setCachedEmbedding E text embedding w = (Ok tt, w')
    /\ isConnected w' = true /\ faults w' = []
    /\ store w' = match embedding with
                  | Some v => <[RedisEngine.generateEmbeddingCacheKey E text
                                := JSON_stringify E v]> (store w)
                  | None => store w
                  end.
Proof.
  intros Hc Hf. destruct embedding as [v|].
  - destruct (setCachedEmbedding_no_faults E text v w Hc Hf) as (w' & H & ? & ? & ? & _).
    now exists w'.
  - unfold RedisEngine.setCachedEmbedding, bind. rewrite (getRedisClient_connected w Hc).
    unfold try_catch, throw, console_error. eexists. split; [reflexivity|]. now cbn.
Qed.

Lemma writes_no_faults (E : Env) (missed : list string) (fresh : list vector) (w : World) :
  isConnected w = true -> faults w = [] ->
  exists w',
    Promise_all
      (imap (fun i text => RedisEngine.setCachedEmbedding E text (fresh !! i)) missed) w
    = (Ok (map (fun _ => tt) missed), w')
    /\ isConnected w' = true /\ faults w' = []
    /\ (forall k, store w' !! k = store w !! k
                  \/ exists f, store w' !! k = Some (JSON_stringify E f))
    /\ (forall j t f, missed !! j = Some t -> fresh !! j = Some f ->
          exists f', store w' !! RedisEngine.generateEmbeddingCacheKey E t
                     = Some (JSON_stringify E f')).
Proof.
  revert fresh w. induction missed as [|text missed IH]; intros fresh w Hc Hf.
  - exists w. cbn. repeat split; auto. intros j t f Hj. discriminate.
  - cbn [imap Promise_all].
    destruct (setCachedEmbedding_written E text (fresh !! 0) w Hc Hf)
      as (w0 & H0 & Hc0 & Hf0 & Hs0).
    rewrite H0.
    destruct (IH (tail fresh) w0 Hc0 Hf0) as (w1 & H1 & Hc1 & Hf1 & Hk1 & Hw1).
    rewrite (imap_ext _ (fun i text =>
               RedisEngine.setCachedEmbedding E text (tail fresh !! i)))
      by (intros i t _; cbn; now rewrite lookup_tail).
    rewrite H1. exists w1. split; [reflexivity|]. split; [exact Hc1|]. split; [exact Hf1|].
    assert (Hk0 : forall k, store w0 !! k = store w !! k
                            \/ exists f, store w0 !! k = Some (JSON_stringify E f)).
    { intros k. rewrite Hs0. destruct (fresh !! 0) as [v|]; [|now left].
      destruct (decide (RedisEngine.generateEmbeddingCacheKey E text = k)) as [->|Hne].
      - right. exists v. apply lookup_insert_eq.
      - left. now apply lookup_insert_ne. }
    split.
    + intros k. destruct (Hk1 k) as [Hk|Hk]; [|now right].
      rewrite Hk. apply Hk0.
    + intros [|j] t f Hj Hfj.
      * cbn in Hj. injection Hj as ->.
        destruct (Hk1 (RedisEngine.generateEmbeddingCacheKey E t)) as [Hk|Hk]; [|exact Hk].
        exists f. rewrite Hk, Hs0, Hfj. apply lookup_insert_eq.
      * cbn in Hj. apply (Hw1 j t f Hj). now rewrite lookup_tail.
Qed.

Lemma lookups_no_faults (E : Env) (texts : list string) (w : World) :
  isConnected w = true -> faults w = [] ->
  exists w',
    Promise_all (map (RedisEngine.getCachedEmbedding E) texts) w
    = (Ok (map (fun t => read_back E (store w !! RedisEngine.generateEmbeddingCacheKey E t))
             texts), w')
    /\ isConnected w' = true /\ faults w' = [] /\ store w' = store w
    /\ provider_calls (trace w') = provider_calls (trace w).
Proof.
  revert w. induction texts as [|text texts IH]; intros w Hc Hf.
  - now exists w.
  - destruct (getCachedEmbedding_read E text w Hc Hf) as (w0 & H0 & Hc0 & Hf0 & Hs0 & Hp0).
    destruct (IH w0 Hc0 Hf0) as (w1 & H1 & Hc1 & Hf1 & Hs1 & Hp1).
    exists w1. cbn [map Promise_all]. rewrite H0, H1, Hs0.
    repeat split; try assumption; congruence.
Qed.

Lemma missed_texts_lookup (g : string -> option vector) (texts : list string) (t : string) :
  t ∈ texts -> g t = None ->
  exists j, missed_texts texts (map g texts) !! j = Some t.
Proof.
  induction texts as [|t0 texts IH]; intros Ht Hg; [now apply elem_of_nil in Ht|].
  cbn [map missed_texts]. apply elem_of_cons in Ht as [->|Ht].
  - rewrite Hg. now exists 0.
  - destruct (IH Ht Hg) as [j Hj]. destruct (g t0); [now exists j | now exists (S j)].
Qed.

Lemma splice_present_lookup (texts : list string) (cached : list (option vector))
    (fresh : list vector) (j : nat) (t : string) :
  length cached = length texts ->
  Forall is_Some (splice cached fresh) ->
  missed_texts texts cached !! j = Some t -> is_Some (fresh !! j).
Proof.
  revert cached fresh j. induction texts as [|t0 texts IH]; intros [|[v|] cached] fresh j Hl Hs Hj;
    cbn [missed_texts splice length] in *; try discriminate.
  - apply Forall_cons in Hs as [_ Hs]. apply (IH cached fresh j); [lia|exact Hs|exact Hj].
  - destruct fresh as [|f fresh].
    + apply Forall_cons in Hs as [[x Hx] _]. discriminate.
    + apply Forall_cons in Hs as [_ Hs]. destruct j as [|j]; [now exists f|].
      cbn in Hj |- *. apply (IH cached fresh j); [lia|exact Hs|exact Hj].
Qed.

Lemma missed_texts_all_present (texts : list string) (cached : list (option vector)) :
  Forall is_Some cached -> missed_texts texts cached = [].
Proof.
  revert cached. induction texts as [|t texts IH]; intros [|[v|] cached] Hall; try reflexivity.
  - cbn [missed_texts]. apply Forall_cons in Hall as [_ Hall]. now apply IH.
  - apply Forall_cons in Hall as [[x Hx] _]. discriminate.
Qed.

(** X14. What the batch operation wrote, it finds again.  On a
    connected client that accepts every command, with a serialisation
    that is read back as a vector, a run that returned a vector for
    every text leaves the cache such that a second run over the same
    texts sends the provider nothing, leaves the store as it is and
    again returns a vector for every text. *)
Theorem getEmbeddingsBatch_second_run (E : Env) (texts : list string) (w : World)
    (out : list (option vector)) (w1 : World) :
  isConnected w = true ->
  faults w = [] ->
  (forall v, read_back E (Some (JSON_stringify E v)) <> None) ->
  RedisEngine.getEmbeddingsBatch E texts true w = (Ok out, w1) ->
  Forall is_Some out ->
  exists out2 w2,
    RedisEngine.getEmbeddingsBatch E texts true w1 = (Ok out2, w2)
    /\ provider_calls (trace w2) = provider_calls (trace w1)
    /\ store w2 = store w1
    /\ length out2 = length texts
    /\ Forall is_Some out2.
Proof.
  intros Hc Hf Hround Hrun Hout.
  set (key := RedisEngine.generateEmbeddingCacheKey E) in *.
  destruct (lookups_no_faults E texts w Hc Hf) as (wa & Ha & Hca & Hfa & Hsa & _).
  fold key in Ha.
  set (cached := map (fun t => read_back E (store w !! key t)) texts) in *.
  assert (Hlen : length cached = length texts) by apply length_map.
  rewrite (getEmbeddingsBatch_after_lookups E texts w cached wa Ha Hlen) in Hrun.
  (* the store after the first run answers every text *)
  assert (Hgood : isConnected w1 = true /\ faults w1 = []
                  /\ forall t, t ∈ texts -> read_back E (store w1 !! key t) <> None).
  { destruct (missed_texts texts cached) as [|m missed] eqn:Hm.
    - injection Hrun as <- <-. repeat split; try assumption.
      intros t Ht Hn. rewrite Hsa in Hn.
      destruct (missed_texts_lookup (fun t => read_back E (store w !! key t)) texts t Ht Hn)
        as [j Hj].
      fold cached in Hj. rewrite Hm in Hj. discriminate.
    - rewrite <- Hm in *. clear Hm.
      destruct (RedisEngine.getBatchEmbeddingsFromAPI E (missed_texts texts cached) wa)
        as [[fresh|e] wb] eqn:Hb; [|discriminate].
      apply getBatchEmbeddingsFromAPI_ok in Hb as [_ ->].
      destruct (writes_no_faults E (missed_texts texts cached) fresh
                  (log (EmbeddingsCreate (Batch (missed_texts texts cached))) wa))
        as (wc & Hw & Hcc & Hfc & Hk & Hwr); [exact Hca|exact Hfa|].
      rewrite Hw in Hrun. injection Hrun as <- <-.
      repeat split; try assumption.
      intros t Ht Hn.
      destruct (Hk (key t)) as [Hsame|[f Hsome]].
      + cbn [log store] in Hsame. rewrite Hsame, Hsa in Hn.
        destruct (missed_texts_lookup (fun t => read_back E (store w !! key t)) texts t Ht Hn)
          as [j Hj].
        fold cached in Hj.
        destruct (splice_present_lookup texts cached fresh j t Hlen Hout Hj) as [f Hfj].
        destruct (Hwr j t f Hj Hfj) as [f' Hf']. fold key in Hf'.
        rewrite Hsame, Hsa in Hf'. rewrite Hf' in Hn. now apply (Hround f').
      + rewrite Hsome in Hn. now apply (Hround f). }
  destruct Hgood as (Hc1 & Hf1 & Hall).
  destruct (lookups_no_faults E texts w1 Hc1 Hf1) as (w2 & H2 & Hc2 & Hf2 & Hs2 & Hp2).
  fold key in H2.
  set (cached2 := map (fun t => read_back E (store w1 !! key t)) texts) in *.
  assert (Hlen2 : length cached2 = length texts) by apply length_map.
  assert (Hall2 : Forall is_Some cached2).
  { apply Forall_map, Forall_forall. intros t Ht. specialize (Hall t Ht).
    destruct (read_back E (store w1 !! key t)); [eauto|congruence]. }
  assert (Hnone : missed_texts texts cached2 = []).
  { now apply missed_texts_all_present. }
  exists cached2, w2.
  rewrite (getEmbeddingsBatch_after_lookups E texts w1 cached2 w2 H2 Hlen2), Hnone.
  auto.
Qed.

(** ** Blank texts and the cache key *)

Lemma append_empty_r (s : string) : s +:+ "" = s.
Proof.
  induction s as [|c s IH]; [reflexivity|].
  change (String c s +:+ "") with (String c (s +:+ "")). now rewrite IH.
Qed.

Lemma rev_app_rev_app (s1 s2 s3 : string) :
  String.rev_app (String.rev_app s1 s2) s3 = String.rev_app s2 (s1 +:+ s3).
Proof.
  revert s2. induction s1 as [|c s1 IH]; intros s2; [reflexivity|].
  cbn [String.rev_app]. rewrite IH. reflexivity.
Qed.

Lemma String_rev_involutive (s : string) : String.rev (String.rev s) = s.
Proof. unfold String.rev. rewrite rev_app_rev_app. cbn [String.rev_app]. apply append_empty_r. Qed.

Lemma rev_app_empty (s1 s2 : string) :
  String.rev_app s1 s2 = "" -> s1 = "" /\ s2 = "".
Proof.
  revert s2. induction s1 as [|c s1 IH]; intros s2; [now split|].
  cbn [String.rev_app]. intros H. now apply IH in H as [_ H].
Qed.

Lemma isBlank_rev_app (s1 s2 : string) :
  isBlank (String.rev_app s1 s2) = isBlank s1 && isBlank s2.
Proof.
  revert s2. induction s1 as [|c s1 IH]; intros s2; [reflexivity|].
  cbn [String.rev_app isBlank]. rewrite IH. cbn [isBlank].
  now destruct (isWhiteSpace c), (isBlank s1), (isBlank s2).
Qed.

Lemma isBlank_rev (s : string) : isBlank (String.rev s) = isBlank s.
Proof. unfold String.rev. rewrite isBlank_rev_app. cbn. apply andb_true_r. Qed.

Lemma first_unit_rev_app (s acc : string) :
  first_unit (String.rev_app s acc) = last_unit (first_unit acc) s.
Proof.
  revert acc. induction s as [|c s IH]; intros acc; [reflexivity|].
  cbn [String.rev_app last_unit]. now rewrite IH.
Qed.

Lemma last_unit_default (d d' : option Ascii.ascii) (s : string) :
  s <> "" -> last_unit d s = last_unit d' s.
Proof. destruct s; [congruence|reflexivity]. Qed.

Lemma trimStart_blank (s : string) : trimStart s = "" <-> isBlank s = true.
Proof.
  induction s as [|c s IH]; [easy|]. cbn [trimStart isBlank].
  destruct (isWhiteSpace c); [exact IH|]. easy.
Qed.

Lemma trimStart_clean (s : string) : starts_clean (trimStart s).
Proof.
  induction s as [|c s IH]; [exact I|]. cbn [trimStart].
  destruct (isWhiteSpace c) eqn:Hc; [exact IH|exact Hc].
Qed.

Lemma trimStart_fixed (s : string) : starts_clean s -> trimStart s = s.
Proof.
  destruct s as [|c s]; [reflexivity|]. unfold starts_clean. cbn. now intros ->.
Qed.

Lemma last_unit_trimStart (d : option Ascii.ascii) (s : string) :
  last_unit d (trimStart s) = match trimStart s with "" => d | _ => last_unit d s end.
Proof.
  induction s as [|c s IH]; [reflexivity|]. cbn [trimStart].
  destruct (isWhiteSpace c); [|reflexivity].
  rewrite IH. destruct (trimStart s) eqn:Ht; [reflexivity|].
  cbn [last_unit]. apply last_unit_default. intros ->. discriminate.
Qed.

(** What [trim] leaves has no white space at either end. *)
Lemma trim_clean (s : string) :
  starts_clean (trim s) /\ starts_clean (String.rev (trim s)).
Proof.
  unfold trim, trimEnd. rewrite String_rev_involutive.
  split; [|apply trimStart_clean].
  unfold starts_clean, String.rev.
  rewrite first_unit_rev_app, last_unit_trimStart. cbn [first_unit].
  destruct (trimStart (String.rev_app (trimStart s) "")) eqn:Hv; [exact I|].
  rewrite <- (first_unit_rev_app _ ""). fold (String.rev (trimStart s)).
  fold (String.rev (String.rev (trimStart s))). rewrite String_rev_involutive.
  apply trimStart_clean.
Qed.

Lemma trim_idempotent (s : string) : trim (trim s) = trim s.
Proof.
  destruct (trim_clean s) as [H1 H2].
  unfold trim at 1, trimEnd.
  rewrite (trimStart_fixed _ H1), (trimStart_fixed _ H2). apply String_rev_involutive.
Qed.

Lemma trim_blank (s : string) : String.length (trim s) = 0 <-> isBlank s = true.
Proof.
  assert (Hlen : forall t : string, String.length t = 0 <-> t = "")
    by (intros [|c t]; easy).
  rewrite Hlen. unfold trim, trimEnd.
  split.
  - intros H. apply rev_app_empty in H as [H _].
    apply trimStart_blank in H. rewrite isBlank_rev in H.
    pose proof (trimStart_clean s) as Hc.
    destruct (trimStart s) as [|c u] eqn:Hu; [now apply trimStart_blank|].
    unfold starts_clean in Hc. cbn in Hc, H. now rewrite Hc in H.
  - intros H. apply trimStart_blank in H. rewrite H. reflexivity.
Qed.

(** X15. [getEmbedding] throws its empty-text error for exactly the
    texts that consist of white space only, the empty text among them,
    and it then does nothing else; no other failure of the operation
    is that error. *)
Theorem getEmbedding_rejects_exactly_blank (E : Env) (text : string) (useCache : bool)
    (w : World) :
  (isBlank text = true ->
   RedisEngine.getEmbedding E text useCache w = (Throw InvalidInputError, w))
  /\ (fst (RedisEngine.getEmbedding E text useCache w) = Throw InvalidInputError ->
      isBlank text = true).
Proof.
  split.
  - intros Hb. apply trim_blank in Hb. unfold RedisEngine.getEmbedding.
    rewrite Hb, orb_true_r. reflexivity.
  - destruct (RedisEngine.getEmbedding E text useCache w) as [[v|e] w'] eqn:Hrun;
      [discriminate|].
    cbn [fst]. intros [= ->].
    destruct (getEmbedding_throw_cases E text useCache w _ w' Hrun)
      as [_ [[_ H]|[[H _]|[[H _]|(n & m & _ & H)]]]]; try discriminate.
    now apply trim_blank.
Qed.

(** X16. The text extracted from a result is never blank: it starts
    with the title label.  The texts that the ranking passes to the
    batch operation would therefore all pass the empty-text check of
    [getEmbedding]. *)
Theorem extractTextContent_not_blank (result : SearchResult) (text : string) :
  extractTextContent result = Ok text ->
  substring0 7 text = "Title: "
  /\ String.length (trim text) <> 0
  /\ forall E useCache w,
       fst (RedisEngine.getEmbedding E text useCache w) <> Throw InvalidInputError.
Proof.
  intros Hx.
  assert (Hs : exists rest, text = "Title: " +:+ rest).
  { unfold extractTextContent in Hx. destruct (pagemap result) as [pm|]; [|discriminate].
    destruct (metatags pm) as [[|first entries]|]; injection Hx as <-; eauto. }
  destruct Hs as [rest ->].
  assert (Hb : isBlank ("Title: " +:+ rest) = false) by reflexivity.
  assert (Ht : String.length (trim ("Title: " +:+ rest)) <> 0).
  { intros H. apply trim_blank in H. congruence. }
  split; [|split; [exact Ht|]].
  - unfold substring0. cbn. now destruct rest.
  - intros E useCache w H.
    destruct (RedisEngine.getEmbedding E _ useCache w) as [[v|e] w'] eqn:Hrun;
      [discriminate|].
    cbn [fst] in H. injection H as ->.
    destruct (getEmbedding_throw_cases E _ useCache w _ w' Hrun)
      as [_ [[_ H]|[[H _]|[[H _]|(n & m & _ & H)]]]]; try discriminate.
    now apply Ht.
Qed.

(** X17. The cache key is taken from the trimmed text, while the
    provider is sent the text as typed.  So two texts that differ only
    in the white space around them share one cache entry: once the
    first is embedded and cached, the second is answered with the
    vector of the first and is never sent to the provider. *)
Theorem getEmbedding_shares_padded (E : Env) (first second : string) (v : vector)
    (rest : list (option vector)) (w : World) :
  trim second = trim first ->
  String.length (trim first) <> 0 ->
  isConnected w = true -> faults w = [] ->
  read_back E (store w !! RedisEngine.generateEmbeddingCacheKey E first) = None ->
  provider E (Single first) = Reply (Some v :: rest) ->
  read_back E (Some (JSON_stringify E v)) = Some v ->
  RedisEngine.generateEmbeddingCacheKey E (trim first)
  = RedisEngine.generateEmbeddingCacheKey E first
  /\ RedisEngine.generateEmbeddingCacheKey E second
     = RedisEngine.generateEmbeddingCacheKey E first
  /\ exists w1 w2,
       RedisEngine.getEmbedding E first true w = (Ok v, w1)
       /\ RedisEngine.getEmbedding E second true w1 = (Ok v, w2)
       /\ provider_calls (trace w2) = provider_calls (trace w) ++ [Single first].
Proof.
  intros Ht Hq Hc Hf Hmiss Hp Hround.
  assert (Hk : RedisEngine.generateEmbeddingCacheKey E second
               = RedisEngine.generateEmbeddingCacheKey E first)
    by (unfold RedisEngine.generateEmbeddingCacheKey; now rewrite Ht).
  split; [unfold RedisEngine.generateEmbeddingCacheKey; now rewrite trim_idempotent|].
  split; [exact Hk|].
  destruct (getEmbedding_miss E first v rest w Hq Hc Hf Hmiss Hp)
    as (w1 & H1 & Hp1 & Hs1 & Hc1 & Hf1).
  destruct (getEmbedding_hit E second v w1) as (w2 & H2 & Hs2 & Hp2);
    [now rewrite Ht|exact Hc1|exact Hf1| |].
  { now rewrite Hk, Hs1, lookup_insert_eq. }
  exists w1, w2. split; [exact H1|]. split; [exact H2|]. now rewrite Hp2.
Qed.

(** ** The batch request *)

Lemma map_throwing_missing {A} (data : list (option A)) (i : nat) (e : exn) :
  ~ Forall is_Some data ->
  map_throwing
    (fun (item : option A) (_ : nat) =>
       match item with Some embedding => Ok embedding | None => Throw e end)
    i data = Throw e.
Proof.
  revert i. induction data as [|[x|] data IH]; intros i Hn; cbn [map_throwing].
  - destruct Hn. constructor.
  - rewrite IH; [reflexivity|]. intros H. apply Hn. constructor; [eauto|exact H].
  - reflexivity.
Qed.

Lemma all_present_map {A} (data : list (option A)) :
  Forall is_Some data -> data = map Some (omap id data).
Proof.
  induction 1 as [|x data [a ->] _ IH]; [reflexivity|]. cbn. now rewrite <- IH.
Qed.

(** X26. The batch request is all or nothing.  It sends the provider
    one request, of the texts as given, and no Redis command; it returns
    the vectors of the answer, in the order of the answer, when every
    item has one, however many items there are; when an item has none it
    throws the missing-embedding error, and when the provider rejects
    the request it throws the rejection itself.  The in-memory engine
    has the same operation under the name [getEmbeddingsBatch]. *)
Theorem getBatchEmbeddingsFromAPI_all_or_nothing (E : Env) (texts : list string)
    (w : World) :
  let run := RedisEngine.getBatchEmbeddingsFromAPI E texts w in
  MemoryEngine.getEmbeddingsBatch E texts w = run
  /\ provider_calls (trace (snd run)) = provider_calls (trace w) ++ [Batch texts]
  /\ redis_commands (trace (snd run)) = redis_commands (trace w)
  /\ match provider E (Batch texts) with
     | Reply data =>
         (Forall is_Some data -> run = (Ok (omap id data), log (EmbeddingsCreate (Batch texts)) w))
         /\ (~ Forall is_Some data ->
             fst run = Throw (Error "Missing embedding in batch response"))
     | Failure name message => fst run = Throw (Rejected FromOpenAI name message)
     end.
Proof.
  cbv zeta. split; [reflexivity|].
  split; [exact (memory_getEmbeddingsBatch_calls E texts w)|].
  split; [apply silent_getBatchEmbeddingsFromAPI|].
  unfold RedisEngine.getBatchEmbeddingsFromAPI, try_catch, bind, embeddings_create, lift,
    console_error, throw.
  destruct (provider E (Batch texts)) as [data|n m]; [|reflexivity].
  split.
  - intros Hall. rewrite (all_present_map data Hall) at 1.
    now rewrite map_throwing_all_present.
  - intros Hn. now rewrite (map_throwing_missing data 0 _ Hn).
Qed.

(** ** Instances of the further properties *)


Lemma quickRank_too_few_vectors_witness :
  fst (RedisEngine.quickRank short_env "best hiking boots" [boots] connected)
  = Throw (TypeError "Cannot read properties of undefined (reading 'length')").
Proof.
  apply (quickRank_too_few_vectors short_env "best hiking boots" [boots]
           ["Title: Top Boots 2024 Description: Our picks for hiking boots"]
           [1%float; 0%float] [] [] connected).
  - vm_compute. discriminate.
  - reflexivity.
  - repeat constructor.
  - reflexivity.
  - simpl. lia.
  - constructor.
Defined.

Lemma getTopResults_best_witness :
  exists out,
    fst (RedisEngine.getTopResults boots_env "best hiking boots" [shoes; boots] 1 true
           connected) = Ok out
    /\ map base out = [boots] /\ length out = 1.
Proof.
  destruct (RedisEngine.getTopResults boots_env "best hiking boots" [shoes; boots] 1 true
              connected) as [[out|e] w'] eqn:Hr.
  - exists out. split; [reflexivity|].
    destruct (getTopResults_best boots_env "best hiking boots" [shoes; boots] 1 true
                connected out w' Hr) as (ranked & _ & _ & Hlen & _).
    split; [|exact Hlen].
    vm_compute in Hr. injection Hr as <- <-. reflexivity.
  - vm_compute in Hr. discriminate Hr.
Defined.

Lemma getEmbedding_caches_witness :
  exists w1 w2,
    RedisEngine.getEmbedding boots_env "best hiking boots" true connected
    = (Ok [1%float; 0%float], w1)
    /\ provider_calls (trace w1) = [Single "best hiking boots"]
    /\ RedisEngine.getEmbedding boots_env "best hiking boots" true w1
       = (Ok [1%float; 0%float], w2)
    /\ provider_calls (trace w2) = [Single "best hiking boots"].
Proof.
  destruct (getEmbedding_caches boots_env "best hiking boots" [1%float; 0%float] []
              connected) as (w1 & w2 & H1 & Hp1 & _ & H2 & Hp2 & _).
  - vm_compute. discriminate.
  - reflexivity.
  - reflexivity.
  - reflexivity.
  - reflexivity.
  - reflexivity.
  - exists w1, w2. split; [exact H1|]. split; [exact Hp1|]. split; [exact H2|].
    rewrite Hp2. exact Hp1.
Defined.

Lemma getEmbedding_errors_witness : isConnected not_connected = false.
Proof.
  destruct (getEmbedding_errors boots_env "best hiking boots" true not_connected
              RedisNotConnected not_connected eq_refl)
    as [_ [[H _]|[(_ & _ & H)|[[H _]|(n & m & H & _)]]]].
  - discriminate H.
  - exact H.
  - discriminate H.
  - discriminate H.
Defined.

Lemma memory_cache_hit_witness :
  provider_calls
    (trace (snd (MemoryEngine.rankSearchResults boots_env "best hiking boots" [shoes; boots]
                   {| MemoryEngine.useCache := Some true;
                      MemoryEngine.cache := Some query_cached |} connected)))
  = [Batch ["Title: Cheap Shoes Description: Discount footwear deals";
            "Title: Top Boots 2024 Description: Our picks for hiking boots"]].
Proof.
  destruct (memory_cache_hit boots_env "best hiking boots" [shoes; boots] query_cached
              [1%float; 0%float] connected) as [_ H].
  - discriminate.
  - reflexivity.
  - exact H.
Defined.

Lemma rankSearchResults_needs_connection_witness :
  exists w',
    RedisEngine.rankSearchResults boots_env "best hiking boots" [shoes; boots]
      {| RedisEngine.useCache := None |} not_connected = (Throw RedisNotConnected, w')
    /\ provider_calls (trace w') = [].
Proof.
  destruct (rankSearchResults_needs_connection boots_env "best hiking boots" [shoes; boots]
              {| RedisEngine.useCache := None |} not_connected)
    as (w' & H & Hp & _).
  - reflexivity.
  - discriminate.
  - vm_compute. discriminate.
  - discriminate.
  - exists w'. split; [exact H|exact Hp].
Defined.

Lemma getEmbeddingsBatch_second_run_witness :
  let w1 := snd (RedisEngine.getEmbeddingsBatch boots_env five_texts true three_cached) in
  exists out2 w2,
    RedisEngine.getEmbeddingsBatch boots_env five_texts true w1 = (Ok out2, w2)
    /\ provider_calls (trace w2) = provider_calls (trace w1)
    /\ length out2 = 5.
Proof.
  cbv zeta.
  destruct (RedisEngine.getEmbeddingsBatch boots_env five_texts true three_cached)
    as [[out|e] w1] eqn:Hr.
  - destruct (getEmbeddingsBatch_second_run boots_env five_texts three_cached out w1)
      as (out2 & w2 & H2 & Hp2 & _ & Hl & _).
    + reflexivity.
    + reflexivity.
    + intros v. discriminate.
    + exact Hr.
    + vm_compute in Hr. injection Hr as <- _. repeat constructor; eexists; reflexivity.
    + exists out2, w2. split; [exact H2|]. split; [exact Hp2|exact Hl].
  - vm_compute in Hr. discriminate Hr.
Defined.

Lemma extractTextContent_not_blank_witness :
  String.length (trim "Title: Top Boots 2024 Description: Our picks for hiking boots") <> 0.
Proof.
  destruct (extractTextContent_not_blank boots
              "Title: Top Boots 2024 Description: Our picks for hiking boots" eq_refl)
    as (_ & H & _).
  exact H.
Defined.

Lemma getEmbedding_shares_padded_witness :
  exists w1 w2,
    RedisEngine.getEmbedding boots_env "best hiking boots" true connected
    = (Ok [1%float; 0%float], w1)
    /\ RedisEngine.getEmbedding boots_env "  best hiking boots " true w1
       = (Ok [1%float; 0%float], w2)
    /\ provider_calls (trace w2) = [Single "best hiking boots"].
Proof.
  destruct (getEmbedding_shares_padded boots_env "best hiking boots" "  best hiking boots "
              [1%float; 0%float] [] connected) as (_ & _ & w1 & w2 & H).
  - reflexivity.
  - vm_compute. discriminate.
  - reflexivity.
  - reflexivity.
  - reflexivity.
  - reflexivity.
  - reflexivity.
  - exists w1, w2. exact H.
Defined.

(** ** The query generator *)

Module QueryGenerationFacts.
Import QueryGeneration.

Lemma append_cons (c : Ascii.ascii) (s t : string) : String c s +:+ t = String c (s +:+ t).
Proof. reflexivity. Qed.

Lemma append_empty_l (s : string) : "" +:+ s = s.
Proof. reflexivity. Qed.

Lemma occurs_app (unit s t : string) : occurs unit (s +:+ t) = occurs unit s || occurs unit t.
Proof.
  induction s as [|c s IH]; [reflexivity|].
  rewrite append_cons. cbn [occurs]. rewrite IH. apply orb_assoc.
Qed.

Lemma unit_eq (c : Ascii.ascii) (unit : string) :
  String.eqb (String c "") unit = true -> String c "" = unit.
Proof. apply String.eqb_eq. Qed.

Lemma from_first_brace_some (s rest : string) :
  from_first_brace s = Some rest ->
  exists pre, s = pre +:+ "{" +:+ rest /\ occurs "{" pre = false.
Proof.
  induction s as [|c s IH]; [discriminate|]. cbn [from_first_brace].
  destruct (String.eqb (String c "") "{") eqn:Hc.
  - intros [= ->]. exists "". split; [|reflexivity].
    apply unit_eq in Hc. injection Hc as ->. reflexivity.
  - intros H. destruct (IH H) as (pre & -> & Hpre). exists (String c pre).
    split; [reflexivity|]. cbn [occurs]. now rewrite Hc.
Qed.

Lemma from_first_brace_none (s : string) :
  from_first_brace s = None -> occurs "{" s = false.
Proof.
  induction s as [|c s IH]; [reflexivity|]. cbn [from_first_brace occurs].
  destruct (String.eqb (String c "") "{"); [discriminate|exact IH].
Qed.

Lemma up_to_last_brace_some (s p : string) :
  up_to_last_brace s = Some p ->
  exists mid post, s = mid +:+ "}" +:+ post /\ p = mid +:+ "}" /\ occurs "}" post = false.
Proof.
  revert p. induction s as [|c s IH]; intros p; [discriminate|]. cbn [up_to_last_brace].
  destruct (up_to_last_brace s) as [p'|] eqn:Hs.
  - intros [= <-]. destruct (IH p' eq_refl) as (mid & post & -> & -> & Hpost).
    exists (String c mid), post. auto.
  - destruct (String.eqb (String c "") "}") eqn:Hc; [|discriminate].
    intros [= <-]. apply unit_eq in Hc. injection Hc as ->.
    exists "", s. repeat split.
    clear IH. induction s as [|c s IH]; [reflexivity|].
    cbn [up_to_last_brace] in Hs. destruct (up_to_last_brace s); [discriminate|].
    cbn [occurs]. destruct (String.eqb (String c "") "}"); [discriminate|]. now apply IH.
Qed.

Lemma up_to_last_brace_none (s : string) :
  up_to_last_brace s = None -> occurs "}" s = false.
Proof.
  induction s as [|c s IH]; [reflexivity|]. cbn [up_to_last_brace occurs].
  destruct (up_to_last_brace s); [discriminate|].
  destruct (String.eqb (String c "") "}"); [discriminate|]. now intros _; apply IH.
Qed.

Lemma from_first_brace_keeps (pre tail : string) :
  occurs "}" tail = true ->
  exists rest, from_first_brace (pre +:+ "{" +:+ tail) = Some rest /\ occurs "}" rest = true.
Proof.
  intros Ht. induction pre as [|c pre IH].
  - exists tail. now split.
  - rewrite append_cons. cbn [from_first_brace].
    destruct (String.eqb (String c "") "{"); [|exact IH].
    eexists. split; [reflexivity|]. rewrite !occurs_app, Ht. apply orb_true_r.
Qed.

(** X18. What the pattern [/\{[\s\S]*\}/] matches in a text: the part
    from the first opening brace to the last closing brace after it,
    and nothing where no closing brace follows an opening one. *)
Theorem match_braces_spec (text : string) :
  match match_braces text with
  | Some jsonMatch =>
      exists pre mid post,
        text = pre +:+ "{" +:+ mid +:+ "}" +:+ post
        /\ jsonMatch = "{" +:+ mid +:+ "}"
        /\ occurs "{" pre = false /\ occurs "}" post = false
  | None => forall pre mid post, text <> pre +:+ "{" +:+ mid +:+ "}" +:+ post
  end.
Proof.
  unfold match_braces.
  destruct (from_first_brace text) as [rest|] eqn:Hf.
  - destruct (up_to_last_brace rest) as [p|] eqn:Hu.
    + apply from_first_brace_some in Hf as (pre & -> & Hpre).
      apply up_to_last_brace_some in Hu as (mid & post & -> & -> & Hpost).
      now exists pre, mid, post.
    + intros pre mid post ->.
      destruct (from_first_brace_keeps pre (mid +:+ "}" +:+ post)) as (rest' & H1 & H2).
      { rewrite !occurs_app. cbn. apply orb_true_r. }
      rewrite H1 in Hf. injection Hf as ->.
      apply up_to_last_brace_none in Hu. congruence.
  - intros pre mid post ->. apply from_first_brace_none in Hf.
    rewrite !occurs_app in Hf. cbn in Hf. rewrite orb_true_r in Hf. discriminate.
Qed.

Lemma shape_accepted (queries : option json) :
  negb (truthy queries) || negb (Array_isArray queries) = false ->
  exists items, queries = Some (JArray items).
Proof.
  destruct queries as [[| | | |items|]|]; cbn; rewrite ?orb_true_r; try discriminate.
  now exists items.
Qed.

(** X19. When [generateSearchQueries] returns: the prompt was read and
    the model answered, and either the trimmed answer is one of the two
    sentinels and the result is the one-query sentinel, or the braces of
    the answer parse to a value whose [queries] is an array of at most
    four items, and that value is returned as it was parsed.  Nothing
    else makes it return. *)
Theorem generateSearchQueries_returns (E : Env) (naturalLanguageQuery : string)
    (response : json) :
  generateSearchQueries E naturalLanguageQuery = Ok response
  <-> exists prompt content,
        read_prompt E = Done prompt
        /\ chat_completions_create E prompt naturalLanguageQuery = Done content
        /\ (((reply_text content = "Unfulfilled" \/ reply_text content = "UNDEFINED")
             /\ response = Unfulfilled)
            \/ (reply_text content <> "Unfulfilled" /\ reply_text content <> "UNDEFINED"
                /\ exists jsonMatch items,
                     match_braces (reply_text content) = Some jsonMatch
                     /\ JSON_parse E jsonMatch = Ok response
                     /\ queries_of response = Ok (Some (JArray items))
                     /\ length items <= 4)).
Proof.
  unfold generateSearchQueries, generate.
  destruct (read_prompt E) as [prompt|t] eqn:Hr.
  2: { split; [now destruct t|]. intros (p & c & H & _). discriminate. }
  destruct (chat_completions_create E prompt naturalLanguageQuery) as [content|t] eqn:Hchat.
  2: { split; [now destruct t|]. intros (p & c & [= <-] & H & _). congruence. }
  fold (reply_text content). set (text := reply_text content).
  assert (Hback : forall P : string -> option string -> Prop,
            (exists p c, Done prompt = Done p
                         /\ chat_completions_create E p naturalLanguageQuery = Done c
                         /\ P p c) -> P prompt content).
  { intros P (p & c & [= <-] & Hc & HP). rewrite Hchat in Hc. now injection Hc as <-. }
  destruct (String.eqb text "Unfulfilled") eqn:H1.
  { apply String.eqb_eq in H1. cbn [orb]. split.
    - intros [= <-]. exists prompt, content.
      split; [reflexivity|]. split; [exact Hchat|]. left. split; [now left|reflexivity].
    - intros H. apply (Hback (fun _ c => _)) in H. cbv beta in H. fold text in H.
      destruct H as [[_ ->]|(Hn & _)]; [reflexivity|congruence]. }
  destruct (String.eqb text "UNDEFINED") eqn:H2.
  { apply String.eqb_eq in H2. cbn [orb]. split.
    - intros [= <-]. exists prompt, content.
      split; [reflexivity|]. split; [exact Hchat|]. left. split; [now right|reflexivity].
    - intros H. apply (Hback (fun _ c => _)) in H. cbv beta in H. fold text in H.
      destruct H as [[_ ->]|(_ & Hn & _)]; [reflexivity|congruence]. }
  apply String.eqb_neq in H1, H2. cbn [orb].
  split.
  - intros H. exists prompt, content. split; [reflexivity|]. split; [exact Hchat|]. right.
    split; [exact H1|]. split; [exact H2|]. fold text.
    destruct (match_braces text) as [jsonMatch|]; [|discriminate].
    destruct (JSON_parse E jsonMatch) as [parsed|e] eqn:Hp; [|discriminate].
    destruct (queries_of parsed) as [queries|e] eqn:Hq; [|discriminate].
    destruct (negb (truthy queries) || negb (Array_isArray queries)) eqn:Hshape;
      [discriminate|].
    apply shape_accepted in Hshape as [items ->]. cbn [length_of] in H.
    destruct (4 <? length items)%nat eqn:Hl; [discriminate|].
    injection H as <-. exists jsonMatch, items. apply Nat.ltb_ge in Hl.
    repeat split; assumption.
  - intros H. apply (Hback (fun _ c => _)) in H. cbv beta in H. fold text in H.
    destruct H as [[[H|H] _]|(_ & _ & jsonMatch & items & Hm & Hp & Hq & Hl)];
      [congruence|congruence|].
    rewrite Hm, Hp, Hq. cbn [truthy Array_isArray negb orb length_of].
    apply Nat.ltb_ge in Hl. now rewrite Hl.
Qed.

(** X20. Whatever goes wrong in [generateSearchQueries] — the prompt
    cannot be read, the request is rejected, the answer has no braces,
    does not parse or has the wrong shape — the caller sees one kind of
    error only: an [Error] whose message starts with
    [Failed to generate search queries: ]. *)
Theorem generateSearchQueries_throws_wrapped (E : Env) (naturalLanguageQuery : string)
    (e : exn) :
  generateSearchQueries E naturalLanguageQuery = Throw e ->
  exists reason, e = Error ("Failed to generate search queries: " +:+ reason).
Proof.
  unfold generateSearchQueries.
  destruct (generate E naturalLanguageQuery) as [r|[error|]]; [discriminate| |];
    intros [= <-]; eexists; reflexivity.
Qed.

Lemma generateSearchQueries_throws_wrapped_witness :
  exists reason,
    Error "Failed to generate search queries: Expected at most 4 queries, got 5"
    = Error ("Failed to generate search queries: " +:+ reason).
Proof.
  exact (generateSearchQueries_throws_wrapped five_queries_env "boots for the hills"
           (Error "Failed to generate search queries: Expected at most 4 queries, got 5")
           eq_refl).
Defined.

End QueryGenerationFacts.

(** ** The search *)

Module GoogleSearchFacts.
Import GoogleSearch.

Ltac each_unit c := destruct c as [[] [] [] [] [] [] [] []]; reflexivity.

Lemma toLowerCase_unit_lower (c : Ascii.ascii) : isUpperCase (toLowerCase_unit c) = false.
Proof. each_unit c. Qed.

Lemma toLowerCase_unit_space (c : Ascii.ascii) :
  isWhiteSpace (toLowerCase_unit c) = isWhiteSpace c.
Proof. each_unit c. Qed.

Lemma toLowerCase_unit_fixed (c : Ascii.ascii) :
  isUpperCase c = false -> toLowerCase_unit c = c.
Proof. unfold toLowerCase_unit. now intros ->. Qed.

Lemma toLowerCase_hyphen (s : string) : toLowerCase ("-" +:+ s) = "-" +:+ toLowerCase s.
Proof. reflexivity. Qed.

Lemma toLowerCase_replace (inRun : bool) (s : string) :
  toLowerCase (replace_runs inRun s) = replace_runs inRun (toLowerCase s).
Proof.
  revert inRun. induction s as [|c s IH]; intros inRun; [reflexivity|].
  cbn [replace_runs toLowerCase]. rewrite toLowerCase_unit_space.
  destruct (isWhiteSpace c); [destruct inRun|].
  - apply IH.
  - rewrite toLowerCase_hyphen. now rewrite IH.
  - cbn [toLowerCase]. now rewrite IH.
Qed.

Lemma toLowerCase_idempotent (s : string) : toLowerCase (toLowerCase s) = toLowerCase s.
Proof.
  induction s as [|c s IH]; [reflexivity|]. cbn [toLowerCase]. rewrite IH. f_equal.
  apply toLowerCase_unit_fixed, toLowerCase_unit_lower.
Qed.

Lemma all_units_app (P : Ascii.ascii -> bool) (s t : string) :
  all_units P (s +:+ t) = all_units P s && all_units P t.
Proof.
  induction s as [|c s IH]; [reflexivity|].
  change (String c s +:+ t) with (String c (s +:+ t)). cbn [all_units].
  rewrite IH. apply andb_assoc.
Qed.

Lemma replace_runs_clean (inRun : bool) (s : string) :
  all_units (fun c => negb (isWhiteSpace c)) (replace_runs inRun s) = true.
Proof.
  revert inRun. induction s as [|c s IH]; intros inRun; [reflexivity|].
  cbn [replace_runs]. destruct (isWhiteSpace c) eqn:Hc; [destruct inRun|].
  - apply IH.
  - rewrite all_units_app, IH. reflexivity.
  - cbn [all_units]. now rewrite Hc, IH.
Qed.

Lemma replace_runs_fixed (inRun : bool) (s : string) :
  all_units (fun c => negb (isWhiteSpace c)) s = true -> replace_runs inRun s = s.
Proof.
  revert inRun. induction s as [|c s IH]; intros inRun; [reflexivity|].
  cbn [all_units replace_runs]. intros H. apply andb_prop in H as [Hc Hs].
  apply negb_true_iff in Hc. rewrite Hc. now rewrite IH.
Qed.

Lemma all_units_and (P Q : Ascii.ascii -> bool) (s : string) :
  all_units (fun c => P c && Q c) s = all_units P s && all_units Q s.
Proof.
  induction s as [|c s IH]; [reflexivity|]. cbn [all_units]. rewrite IH.
  now destruct (P c), (Q c), (all_units P s), (all_units Q s).
Qed.

Lemma toLowerCase_lower (s : string) :
  all_units (fun c => negb (isUpperCase c)) (toLowerCase s) = true.
Proof.
  induction s as [|c s IH]; [reflexivity|]. cbn [toLowerCase all_units].
  now rewrite toLowerCase_unit_lower, IH.
Qed.

Lemma replace_runs_lower (inRun : bool) (s : string) :
  all_units (fun c => negb (isUpperCase c)) s = true ->
  all_units (fun c => negb (isUpperCase c)) (replace_runs inRun s) = true.
Proof.
  revert inRun. induction s as [|c s IH]; intros inRun; [reflexivity|].
  cbn [all_units replace_runs]. intros H. apply andb_prop in H as [Hc Hs].
  destruct (isWhiteSpace c); [destruct inRun|].
  - now apply IH.
  - rewrite all_units_app, IH by assumption. reflexivity.
  - cbn [all_units]. now rewrite Hc, IH.
Qed.

(** X21. The cache key of a query is [search:] followed by a
    normal form of the query that holds no white space and no capital
    letter, and the normal form of a normal form is itself.  So the
    queries that share a normal form share a key: queries that differ
    in letter case, in the kind or amount of white space, or that have
    a hyphen where the other has white space. *)
Theorem generateCacheKey_normal_form (query : string) :
  let normal := replace_white_space (toLowerCase query) in
  generateCacheKey query = "search:" +:+ normal
  /\ all_units (fun c => negb (isWhiteSpace c) && negb (isUpperCase c)) normal = true
  /\ replace_white_space (toLowerCase normal) = normal
  /\ generateCacheKey normal = generateCacheKey query.
Proof.
  cbv zeta. unfold generateCacheKey, replace_white_space.
  assert (Hn : replace_runs false (toLowerCase (replace_runs false (toLowerCase query)))
               = replace_runs false (toLowerCase query)).
  { rewrite toLowerCase_replace, toLowerCase_idempotent.
    apply replace_runs_fixed, replace_runs_clean. }
  split; [reflexivity|]. split; [|split; [exact Hn|now rewrite Hn]].
  rewrite all_units_and, replace_runs_clean. cbn [andb].
  apply replace_runs_lower, toLowerCase_lower.
Qed.

Lemma readCache_total (E : Env) (query : string) (w : World) :
  exists cached w',
    readCache E query w = (Ok cached, w') /\ isConnected w' = isConnected w.
Proof.
  unfold readCache, try_catch, bind, redis_get, next_fault, console_error, ret, throw, log.
  cbn [faults].
  destruct (faults w) as [|[[n m]|] rest]; cbn [store]; try (now eexists _, _).
  - destruct (store w !! generateCacheKey query) as [c|]; [|now eexists _, _].
    destruct (String.eqb c ""); [now eexists _, _|].
    destruct (JSON_parse E c); now eexists _, _.
  - destruct (store w !! generateCacheKey query) as [c|]; [|now eexists _, _].
    destruct (String.eqb c ""); [now eexists _, _|].
    destruct (JSON_parse E c); now eexists _, _.
Qed.

Lemma lookups_total (E : Env) (queries : list string) (w : World) :
  exists cached w',
    Promise_all (map (readCache E) queries) w = (Ok cached, w')
    /\ isConnected w' = isConnected w.
Proof.
  revert w. induction queries as [|query queries IH]; intros w; [now exists [], w|].
  destruct (readCache_total E query w) as (c & w0 & H0 & Hc0).
  destruct (IH w0) as (cached & w1 & H1 & Hc1).
  exists (c :: cached), w1. cbn [map Promise_all]. rewrite H0, H1.
  split; [reflexivity|congruence].
Qed.

(** X22. Without a connection [searchGoogle] throws the error of
    [getRedisClient] before it looks at the queries: it does so for an
    empty list too, it sends no search and no command, and it leaves
    the state as it was. *)
Theorem searchGoogle_needs_connection (E : Env) (queries : list string) (s : State) :
  isConnected (redis s) = false ->
  searchGoogle E queries s = (Throw RedisNotConnected, s).
Proof.
  intros Hc. unfold searchGoogle, getRedisClient. rewrite Hc. now destruct s.
Qed.

(** X23. With a connection [searchGoogle] always returns: a rejected
    Redis command, a cached string that does not parse and a failed
    search are logged and cost the results of one query at most, never
    the call. *)
Theorem searchGoogle_returns (E : Env) (queries : list string) (s : State) :
  isConnected (redis s) = true ->
  exists results s',
    searchGoogle E queries s = (Ok results, s')
    /\ isConnected (redis s') = true.
Proof.
  intros Hc. unfold searchGoogle, getRedisClient. rewrite Hc.
  destruct (lookups_total E queries (redis s)) as (cached & w1 & H1 & Hc1).
  rewrite H1.
  assert (Hfin : forall qs cs st,
            isConnected (redis (snd (finish E qs cs st))) = isConnected (redis st)).
  { clear. induction qs as [|q qs IH]; intros [|[rs|] cs] st; try reflexivity.
    - cbn [finish]. specialize (IH cs st). now destruct (finish E qs cs st).
    - cbn [finish].
      assert (Hp : isConnected (redis (snd (performSearch E q st))) = isConnected (redis st)).
      { unfold performSearch. destruct (axios_get E q) as [items|error]; [|reflexivity].
        pose proof (keeps_try_catch
                      (redis_setEx (generateCacheKey q) CACHE_DURATION
                         (JSON_stringify E (default [] items)))
                      (fun cacheError =>
                         console_error
                           ("Error caching results for " +:+ quote +:+ q +:+ quote +:+ ":")
                           cacheError)
                      (keeps_redis_setEx _ _ _)
                      (fun e => keeps_console_error _ e) (redis st)) as Hk.
        destruct (try_catch _ _ (redis st)) as [o w]. exact Hk. }
      destruct (performSearch E q st) as [rs st1]. cbn [snd] in Hp.
      specialize (IH cs st1). destruct (finish E qs cs st1) as [rest st2].
      cbn [snd] in *. congruence. }
  specialize (Hfin queries cached {| redis := w1; requests := requests s |}).
  destruct (finish E queries cached _) as [searchResults s2]. cbn [snd redis] in Hfin.
  exists (concat searchResults), s2. split; [reflexivity|congruence].
Qed.

Lemma readCache_no_faults (E : Env) (query : string) (w : World) :
  faults w = [] ->
  exists w',
    readCache E query w = (Ok (read_results E (store w !! generateCacheKey query)), w')
    /\ isConnected w' = isConnected w /\ faults w' = [] /\ store w' = store w.
Proof.
  intros Hf.
  unfold readCache, try_catch, bind, redis_get, next_fault, console_error, ret, throw, log.
  cbn [faults]. rewrite Hf. cbn [store]. unfold read_results.
  destruct (store w !! generateCacheKey query) as [c|]; [|now eexists].
  destruct (String.eqb c ""); [now eexists|].
  destruct (JSON_parse E c); now eexists.
Qed.

Lemma lookups_read (E : Env) (queries : list string) (w : World) :
  faults w = [] ->
  exists w',
    Promise_all (map (readCache E) queries) w
    = (Ok (map (fun query => read_results E (store w !! generateCacheKey query)) queries), w')
    /\ isConnected w' = isConnected w /\ faults w' = [] /\ store w' = store w.
Proof.
  revert w. induction queries as [|query queries IH]; intros w Hf; [now exists w|].
  destruct (readCache_no_faults E query w Hf) as (w0 & H0 & Hc0 & Hf0 & Hs0).
  destruct (IH w0 Hf0) as (w1 & H1 & Hc1 & Hf1 & Hs1).
  exists w1. cbn [map Promise_all]. rewrite H0, H1, Hs0.
  repeat split; congruence.
Qed.

Lemma performSearch_found (E : Env) (query : string) (s : State) :
  fst (performSearch E query s) = found E query
  /\ requests (snd (performSearch E query s)) = requests s ++ [query].
Proof.
  unfold performSearch, found.
  destruct (axios_get E query) as [items|error]; [|now split].
  now destruct (try_catch _ _ (redis s)).
Qed.

Lemma finish_found (E : Env) (g : string -> option (list SearchResult))
    (queries : list string) (s : State) :
  fst (finish E queries (map g queries) s)
  = map (fun query => match g query with Some results => results | None => found E query end)
      queries
  /\ requests (snd (finish E queries (map g queries) s))
     = requests s
       ++ List.filter (fun query => match g query with Some _ => false | None => true end)
            queries.
Proof.
  revert s. induction queries as [|query queries IH]; intros s.
  - cbn. now rewrite app_nil_r.
  - cbn [map finish List.filter]. destruct (g query) as [results|].
    + specialize (IH s). destruct (finish E queries (map g queries) s) as [rest s'].
      cbn [fst snd] in *. destruct IH as [-> ->]. now split.
    + destruct (performSearch_found E query s) as [Hr Hq].
      destruct (performSearch E query s) as [results s1]. cbn [fst snd] in Hr, Hq.
      specialize (IH s1). destruct (finish E queries (map g queries) s1) as [rest s2].
      cbn [fst snd] in *. destruct IH as [-> ->]. rewrite Hr, Hq, <- app_assoc. now split.
Qed.

Lemma searchGoogle_results_aux (E : Env) (queries : list string) (s : State) :
  isConnected (redis s) = true ->
  faults (redis s) = [] ->
  exists s',
    searchGoogle E queries s
    = (Ok (concat (map (results_for E (redis s)) queries)), s')
    /\ requests s' = requests s ++ missed E (redis s) queries.
Proof.
  intros Hc Hf. unfold searchGoogle, getRedisClient. rewrite Hc.
  destruct (lookups_read E queries (redis s) Hf) as (w1 & H1 & _ & _ & _).
  rewrite H1.
  destruct (finish_found E (fun query => read_results E (store (redis s) !! generateCacheKey query))
              queries {| redis := w1; requests := requests s |}) as [Hr Hq].
  destruct (finish E queries _ _) as [searchResults s2]. cbn [fst snd requests] in Hr, Hq.
  exists s2. rewrite Hr. split; [reflexivity|exact Hq].
Qed.

(** X24. What [searchGoogle] returns on a connected client whose reads
    are accepted: the results of the queries one after the other, in
    the order of the queries, for each query the cached results where
    the cache holds a string that parses, and otherwise what the search
    found, nothing where the search failed.  A search is requested for
    the queries without cached results and for no other. *)
Theorem searchGoogle_results (E : Env) (queries : list string) (s : State) :
  isConnected (redis s) = true ->
  faults (redis s) = [] ->
  exists s',
    searchGoogle E queries s
    = (Ok (concat (map (results_for E (redis s)) queries)), s')
    /\ requests s' = requests s ++ missed E (redis s) queries.
Proof. apply searchGoogle_results_aux. Qed.

(** X25. What a search found is cached under the key of the query, an
    empty list of results too.  On a connected client whose commands
    are accepted, with a serialisation that is read back as the results,
    a query with the same key — the same query, or one that differs in
    case or white space — is then answered from the cache with the
    results of the first, and no search is requested for it. *)
Theorem searchGoogle_shares_cache (E : Env) (first second : string)
    (items : option (list SearchResult)) (s : State) :
  isConnected (redis s) = true ->
  faults (redis s) = [] ->
  read_results E (store (redis s) !! generateCacheKey first) = None ->
  axios_get E first = Response items ->
  read_results E (Some (JSON_stringify E (default [] items))) = Some (default [] items) ->
  generateCacheKey second = generateCacheKey first ->
  exists s1 s2,
    searchGoogle E [first] s = (Ok (default [] items), s1)
    /\ requests s1 = requests s ++ [first]
    /\ store (redis s1)
       = <[generateCacheKey first := JSON_stringify E (default [] items)]> (store (redis s))
    /\ searchGoogle E [second] s1 = (Ok (default [] items), s2)
    /\ requests s2 = requests s1.
Proof.
  intros Hc Hf Hmiss Hget Hround Hkey.
  assert (Hfirst : exists s1,
    searchGoogle E [first] s = (Ok (default [] items), s1)
    /\ requests s1 = requests s ++ [first]
    /\ store (redis s1)
       = <[generateCacheKey first := JSON_stringify E (default [] items)]> (store (redis s))
    /\ isConnected (redis s1) = true /\ faults (redis s1) = []).
  { unfold searchGoogle, getRedisClient. rewrite Hc.
    destruct (lookups_read E [first] (redis s) Hf) as (w1 & H1 & Hc1 & Hf1 & Hs1).
    rewrite H1. cbn [map]. rewrite Hmiss. cbn [finish].
    unfold performSearch. cbn [redis requests]. rewrite Hget.
    unfold try_catch, redis_setEx, next_fault, log. cbn [faults]. rewrite Hf1.
    eexists. split; [cbn; now rewrite app_nil_r|]. cbn.
    repeat split; congruence. }
  destruct Hfirst as (s1 & H1 & Hq1 & Hs1 & Hc1 & Hf1).
  destruct (searchGoogle_results_aux E [second] s1 Hc1 Hf1) as (s2 & H2 & Hq2).
  exists s1, s2. split; [exact H1|]. split; [exact Hq1|]. split; [exact Hs1|].
  unfold results_for, missed in *. cbn [map concat List.filter] in *.
  rewrite Hkey, Hs1, lookup_insert_eq, Hround in H2, Hq2.
  rewrite app_nil_r in H2, Hq2. now split.
Qed.

Lemma searchGoogle_needs_connection_witness :
  searchGoogle shop_env [] offline = (Throw RedisNotConnected, offline).
Proof. exact (searchGoogle_needs_connection shop_env [] offline eq_refl). Defined.

Lemma searchGoogle_returns_witness :
  exists results s',
    searchGoogle shop_env ["hiking boots"] unreliable = (Ok results, s')
    /\ isConnected (redis s') = true.
Proof. exact (searchGoogle_returns shop_env ["hiking boots"] unreliable eq_refl). Defined.

Lemma searchGoogle_results_witness :
  exists s',
    searchGoogle shop_env ["hiking boots"; "Hiking Boots"] online
    = (Ok [boots; boots], s')
    /\ requests s' = ["hiking boots"; "Hiking Boots"].
Proof.
  exact (searchGoogle_results shop_env ["hiking boots"; "Hiking Boots"] online
           eq_refl eq_refl).
Defined.

Lemma searchGoogle_shares_cache_witness :
  exists s1 s2,
    searchGoogle shop_env ["Hiking Boots"] online = (Ok [boots], s1)
    /\ requests s1 = ["Hiking Boots"]
    /\ searchGoogle shop_env ["hiking   boots"] s1 = (Ok [boots], s2)
    /\ requests s2 = requests s1.
Proof.
  destruct (searchGoogle_shares_cache shop_env "Hiking Boots" "hiking   boots"
              (Some [boots]) online eq_refl eq_refl eq_refl eq_refl eq_refl eq_refl)
    as (s1 & s2 & H1 & Hq1 & _ & H2 & Hq2).
  exists s1, s2. split; [exact H1|]. split; [exact Hq1|]. split; [exact H2|exact Hq2].
Defined.

End GoogleSearchFacts.
